(** * Token-authentication simulation (final.cpp): model and verification

    The program simulates a Trusted Authority (TA), Nodes and a Middleware
    (MW) that exchange AES-CBC encrypted tokens, runs the per-node protocol
    on a pool of worker threads and aggregates latency statistics.

    Modelling conventions:
    - [std::string] is a byte sequence: [list ascii] ([bytes]);
    - [int] is a 32-bit and [long long] a 64-bit two's-complement integer,
      carried by [Z] with the wrap-around written out;
    - [double] is carried by [Q] (rounding is not modelled);
    - a C++ exception is the [Throw] side of [result];
    - the entropy of [CryptoPP::AutoSeededRandomPool], the draws of the
      worker's [std::mt19937] and the clock are inputs of the model. *)

From Stdlib Require Import Ascii String.
From Stdlib Require Import List Bool Arith ZArith QArith Lia DecimalString.
From Stdlib Require Import Permutation Sorted Btauto.
From Stdlib Require DecimalPos.
Import ListNotations.

Set Implicit Arguments.
Close Scope Q_scope.
Open Scope nat_scope.

(* ------------------------------------------------------------------ *)
(** * Byte strings *)

Definition bytes := list ascii.

(** A string literal of the source. *)
Definition str (s : string) : bytes := list_ascii_of_string s.
Arguments str s%_string.

(** The exceptions and other abnormal ends of the modelled code. *)
Inductive error : Type :=
| BadCiphertextFormat   (* std::runtime_error("Bad ciphertext format") *)
| InvalidCiphertext     (* CryptoPP::InvalidCiphertext *)
| InvalidKeyLength      (* CryptoPP::InvalidKeyLength *)
| IvOverread            (* iv.data() holds fewer than 16 bytes: undefined *)
| OutOfRange            (* std::out_of_range of substr or stoi *)
| InvalidArgument       (* std::invalid_argument of stoi or stod *)
| LengthError           (* std::length_error of the string constructor *)
| DivideByZero.         (* division by zero *)

Inductive result (A : Type) : Type :=
| OK (a : A)
| Throw (e : error).
Arguments OK {A} a.
Arguments Throw {A} e.

Definition bind {A B} (r : result A) (k : A -> result B) : result B :=
  match r with
  | OK a => k a
  | Throw e => Throw e
  end.

Notation "'do' x <- r ; k" := (bind r (fun x => k))
  (at level 10, x name, r at level 100, k at level 200).

(* ------------------------------------------------------------------ *)
(** * Hex helpers (toHex, fromHex) *)

Definition hex_alphabet : bytes := Eval cbv in str "0123456789abcdef".

Definition hex_digit (n : nat) : ascii := nth n hex_alphabet "0"%char.

(** [HexEncoder(..., false)]: two lower-case digits per byte. *)
Definition toHex (input : bytes) : bytes :=
  flat_map (fun c => let n := nat_of_ascii c in
                     [hex_digit (n / 16); hex_digit (n mod 16)]) input.

(** The decoding table of [HexDecoder]: digits and both letter cases;
    every other character has no value. *)
Definition hex_value (c : ascii) : option nat :=
  let n := nat_of_ascii c in
  if (48 <=? n) && (n <=? 57) then Some (n - 48)
  else if (65 <=? n) && (n <=? 70) then Some (n - 55)
  else if (97 <=? n) && (n <=? 102) then Some (n - 87)
  else None.

(** [HexDecoder]: characters without a value are skipped, digits are
    packed in pairs, a dangling digit at the end is discarded. *)
Fixpoint hex_decode (pending : option nat) (s : bytes) : bytes :=
  match s with
  | [] => []
  | c :: tl =>
      match hex_value c with
      | None => hex_decode pending tl
      | Some v =>
          match pending with
          | None => hex_decode (Some v) tl
          | Some h => ascii_of_nat (16 * h + v) :: hex_decode None tl
          end
      end
  end.

Definition fromHex (hex : bytes) : bytes := hex_decode None hex.

Definition is_hex_digit (c : ascii) : bool :=
  match hex_value c with Some _ => true | None => false end.

(* ------------------------------------------------------------------ *)
(** * AES (FIPS-197): the block cipher behind [CryptoPP::AES]

    Bytes are [ascii] values, that is eight bits with the least
    significant first; the 16-byte state is kept in input order
    (column after column). *)

Definition bxor (a b : ascii) : ascii :=
  match a, b with
  | Ascii a0 a1 a2 a3 a4 a5 a6 a7, Ascii b0 b1 b2 b3 b4 b5 b6 b7 =>
      Ascii (xorb a0 b0) (xorb a1 b1) (xorb a2 b2) (xorb a3 b3)
            (xorb a4 b4) (xorb a5 b5) (xorb a6 b6) (xorb a7 b7)
  end.

(** Multiplication by x in GF(2^8) modulo x^8 + x^4 + x^3 + x + 1. *)
Definition xtime (a : ascii) : ascii :=
  match a with
  | Ascii a0 a1 a2 a3 a4 a5 a6 a7 =>
      Ascii a7 (xorb a0 a7) a1 (xorb a2 a7) (xorb a3 a7) a4 a5 a6
  end.

Fixpoint xor_bytes (a b : bytes) : bytes :=
  match a, b with
  | x :: a', y :: b' => bxor x y :: xor_bytes a' b'
  | _, _ => a
  end.

Definition SBOX : bytes := Eval vm_compute in
  fromHex
    (str "637c777bf26b6fc53001672bfed7ab76ca82c97dfa5947f0add4a2af9ca472c0" ++
     str "b7fd9326363ff7cc34a5e5f171d8311504c723c31896059a071280e2eb27b275" ++
     str "09832c1a1b6e5aa0523bd6b329e32f8453d100ed20fcb15b6acbbe394a4c58cf" ++
     str "d0efaafb434d338545f9027f503c9fa851a3408f929d38f5bcb6da2110fff3d2" ++
     str "cd0c13ec5f974417c4a77e3d645d197360814fdc222a908846eeb814de5e0bdb" ++
     str "e0323a0a4906245cc2d3ac629195e479e7c8376d8dd54ea96c56f4ea657aae08" ++
     str "ba78252e1ca6b4c6e8dd741f4bbd8b8a703eb5664803f60e613557b986c11d9e" ++
     str "e1f8981169d98e949b1e87e9ce5528df8ca1890dbfe6426841992d0fb054bb16").

Definition INV_SBOX : bytes := Eval vm_compute in
  fromHex
    (str "52096ad53036a538bf40a39e81f3d7fb7ce339829b2fff87348e4344c4dee9cb" ++
     str "547b9432a6c2233dee4c950b42fac34e082ea16628d924b2765ba2496d8bd125" ++
     str "72f8f66486689816d4a45ccc5d65b6926c704850fdedb9da5e154657a78d9d84" ++
     str "90d8ab008cbcd30af7e45805b8b34506d02c1e8fca3f0f02c1afbd0301138a6b" ++
     str "3a9111414f67dcea97f2cfcef0b4e67396ac7422e7ad3585e2f937e81c75df6e" ++
     str "47f11a711d29c5896fb7620eaa18be1bfc563e4bc6d279209adbc0fe78cd5af4" ++
     str "1fdda8338807c731b11210592780ec5f60517fa919b54a0d2de57a9f93c99cef" ++
     str "a0e03b4dae2af5b0c8ebbb3c83539961172b047eba77d626e169146355210c7d").

Definition sub_byte (c : ascii) : ascii := nth (nat_of_ascii c) SBOX zero.
Definition inv_sub_byte (c : ascii) : ascii :=
  nth (nat_of_ascii c) INV_SBOX zero.

Definition SubBytes (s : bytes) : bytes := map sub_byte s.
Definition InvSubBytes (s : bytes) : bytes := map inv_sub_byte s.

Definition ShiftRows (s : bytes) : bytes :=
  match s with
  | [s0; s1; s2; s3; s4; s5; s6; s7; s8; s9; s10; s11; s12; s13; s14; s15] =>
      [s0; s5; s10; s15; s4; s9; s14; s3; s8; s13; s2; s7; s12; s1; s6; s11]
  | _ => s
  end.

Definition InvShiftRows (s : bytes) : bytes :=
  match s with
  | [s0; s1; s2; s3; s4; s5; s6; s7; s8; s9; s10; s11; s12; s13; s14; s15] =>
      [s0; s13; s10; s7; s4; s1; s14; s11; s8; s5; s2; s15; s12; s9; s6; s3]
  | _ => s
  end.

Definition mul2 (a : ascii) : ascii := xtime a.
Definition mul3 (a : ascii) : ascii := bxor (xtime a) a.
Definition mul9 (a : ascii) : ascii := bxor (xtime (xtime (xtime a))) a.
Definition mul11 (a : ascii) : ascii :=
  bxor (xtime (xtime (xtime a))) (bxor (xtime a) a).
Definition mul13 (a : ascii) : ascii :=
  bxor (xtime (xtime (xtime a))) (bxor (xtime (xtime a)) a).
Definition mul14 (a : ascii) : ascii :=
  bxor (xtime (xtime (xtime a))) (bxor (xtime (xtime a)) (xtime a)).

Definition mix_column (a0 a1 a2 a3 : ascii) : bytes :=
  [ bxor (bxor (mul2 a0) (mul3 a1)) (bxor a2 a3);
    bxor (bxor a0 (mul2 a1)) (bxor (mul3 a2) a3);
    bxor (bxor a0 a1) (bxor (mul2 a2) (mul3 a3));
    bxor (bxor (mul3 a0) a1) (bxor a2 (mul2 a3)) ].

Definition inv_mix_column (a0 a1 a2 a3 : ascii) : bytes :=
  [ bxor (bxor (mul14 a0) (mul11 a1)) (bxor (mul13 a2) (mul9 a3));
    bxor (bxor (mul9 a0) (mul14 a1)) (bxor (mul11 a2) (mul13 a3));
    bxor (bxor (mul13 a0) (mul9 a1)) (bxor (mul14 a2) (mul11 a3));
    bxor (bxor (mul11 a0) (mul13 a1)) (bxor (mul9 a2) (mul14 a3)) ].

Definition MixColumns (s : bytes) : bytes :=
  match s with
  | [s0; s1; s2; s3; s4; s5; s6; s7; s8; s9; s10; s11; s12; s13; s14; s15] =>
      mix_column s0 s1 s2 s3 ++ mix_column s4 s5 s6 s7
      ++ mix_column s8 s9 s10 s11 ++ mix_column s12 s13 s14 s15
  | _ => s
  end.

Definition InvMixColumns (s : bytes) : bytes :=
  match s with
  | [s0; s1; s2; s3; s4; s5; s6; s7; s8; s9; s10; s11; s12; s13; s14; s15] =>
      inv_mix_column s0 s1 s2 s3 ++ inv_mix_column s4 s5 s6 s7
      ++ inv_mix_column s8 s9 s10 s11 ++ inv_mix_column s12 s13 s14 s15
  | _ => s
  end.

(** ** Key expansion *)

Definition RotWord (w : bytes) : bytes :=
  match w with
  | [a; b; c; d] => [b; c; d; a]
  | _ => w
  end.

Definition SubWord (w : bytes) : bytes := map sub_byte w.

(** Rcon[j] = x^(j-1), for j >= 1. *)
Definition rcon (j : nat) : ascii := Nat.iter (j - 1) xtime one.

Fixpoint words (n : nat) (s : bytes) : list bytes :=
  match n with
  | 0 => []
  | S n' => firstn 4 s :: words n' (skipn 4 s)
  end.

Fixpoint expand (Nk n i : nat) (w : list bytes) : list bytes :=
  match n with
  | 0 => w
  | S n' =>
      let temp := nth (i - 1) w [] in
      let temp :=
        if i mod Nk =? 0
        then xor_bytes (SubWord (RotWord temp)) [rcon (i / Nk); zero; zero; zero]
        else if (6 <? Nk) && (i mod Nk =? 4) then SubWord temp
        else temp in
      expand Nk n' (S i) (w ++ [xor_bytes (nth (i - Nk) w []) temp])
  end.

Fixpoint group_keys (n : nat) (w : list bytes) : list bytes :=
  match n with
  | 0 => []
  | S n' => concat (firstn 4 w) :: group_keys n' (skipn 4 w)
  end.

(** The Nr + 1 round keys of a key of Nk words (Nr = Nk + 6). *)
Definition KeyExpansion (key : bytes) : list bytes :=
  let Nk := length key / 4 in
  let Nr := Nk + 6 in
  group_keys (Nr + 1) (expand Nk (4 * (Nr + 1) - Nk) Nk (words Nk key)).

(** ** Cipher and inverse cipher *)

Definition AddRoundKey (s k : bytes) : bytes := xor_bytes s k.

Definition round (k s : bytes) : bytes :=
  AddRoundKey (MixColumns (ShiftRows (SubBytes s))) k.

Definition final_round (k s : bytes) : bytes :=
  AddRoundKey (ShiftRows (SubBytes s)) k.

Fixpoint rounds (rks : list bytes) (s : bytes) : bytes :=
  match rks with
  | [] => s
  | [k] => final_round k s
  | k :: rest => rounds rest (round k s)
  end.

Definition Cipher (rks : list bytes) (input : bytes) : bytes :=
  match rks with
  | [] => input
  | k0 :: rest => rounds rest (AddRoundKey input k0)
  end.

Definition inv_round (k s : bytes) : bytes :=
  InvSubBytes (InvShiftRows (InvMixColumns (AddRoundKey s k))).

Definition inv_final_round (k s : bytes) : bytes :=
  InvSubBytes (InvShiftRows (AddRoundKey s k)).

Fixpoint inv_rounds (rks : list bytes) (s : bytes) : bytes :=
  match rks with
  | [] => s
  | [k] => inv_final_round k s
  | k :: rest => inv_round k (inv_rounds rest s)
  end.

Definition InvCipher (rks : list bytes) (input : bytes) : bytes :=
  match rks with
  | [] => input
  | k0 :: rest => AddRoundKey (inv_rounds rest input) k0
  end.

(* ------------------------------------------------------------------ *)
(** * std::string operations used by the program *)

Fixpoint prefixb (p s : bytes) : bool :=
  match p, s with
  | [], _ => true
  | a :: p', b :: s' => Ascii.eqb a b && prefixb p' s'
  | _ :: _, [] => false
  end.

(** First position at which [needle] occurs in [hay]. *)
Fixpoint find_first (needle hay : bytes) : option nat :=
  if prefixb needle hay then Some 0
  else match hay with
       | [] => None
       | _ :: tl => option_map S (find_first needle tl)
       end.

(** [s.find(needle, pos)]; [None] is [string::npos]. *)
Definition find (s needle : bytes) (pos : nat) : option nat :=
  if length s <? pos then None
  else option_map (Nat.add pos) (find_first needle (skipn pos s)).

(** [s.substr(pos)] and [s.substr(pos, n)]: [std::out_of_range] when
    [pos > s.size()]. *)
Definition substr_from (s : bytes) (pos : nat) : result bytes :=
  if length s <? pos then Throw OutOfRange else OK (skipn pos s).
Definition substr (s : bytes) (pos n : nat) : result bytes :=
  if length s <? pos then Throw OutOfRange else OK (firstn n (skipn pos s)).

(* ------------------------------------------------------------------ *)
(** * Entropy *)

(** The bytes a freshly seeded [AutoSeededRandomPool] hands out. *)
Definition RandomPool := nat -> ascii.

Definition GenerateBlock (rng : RandomPool) (n : nat) : bytes :=
  map rng (seq 0 n).

(* ------------------------------------------------------------------ *)
(** * AES-CBC with PKCS #7 padding
      ([CBC_Mode<AES>] driven by [StreamTransformationFilter]) *)

Definition BLOCKSIZE : nat := 16.

Definition valid_key_length (n : nat) : bool :=
  (n =? 16) || (n =? 24) || (n =? 32).

(** [SetKeyWithIV]: the key schedule, or [InvalidKeyLength]. *)
Definition SetKey (key : bytes) : result (list bytes) :=
  if valid_key_length (length key) then OK (KeyExpansion key)
  else Throw InvalidKeyLength.

Definition pkcs_pad (plain : bytes) : bytes :=
  let n := BLOCKSIZE - length plain mod BLOCKSIZE in
  plain ++ repeat (ascii_of_nat n) n.

Definition pkcs_unpad (p : bytes) : result bytes :=
  let pad := nat_of_ascii (last p zero) in
  if (1 <=? pad) && (pad <=? BLOCKSIZE)
     && forallb (Ascii.eqb (ascii_of_nat pad)) (skipn (length p - pad) p)
  then OK (firstn (length p - pad) p)
  else Throw InvalidCiphertext.

(** [n] blocks of [data], chained from [prev]. *)
Fixpoint cbc_enc (rks : list bytes) (n : nat) (prev data : bytes) : bytes :=
  match n with
  | 0 => []
  | S n' =>
      let c := Cipher rks (xor_bytes (firstn BLOCKSIZE data) prev) in
      c ++ cbc_enc rks n' c (skipn BLOCKSIZE data)
  end.

Fixpoint cbc_dec (rks : list bytes) (n : nat) (prev data : bytes) : bytes :=
  match n with
  | 0 => []
  | S n' =>
      let c := firstn BLOCKSIZE data in
      xor_bytes (InvCipher rks c) prev ++ cbc_dec rks n' c (skipn BLOCKSIZE data)
  end.

(** The encrypting filter pads and encrypts every block. *)
Definition cbc_encrypt (rks : list bytes) (iv plain : bytes) : bytes :=
  let padded := pkcs_pad plain in
  cbc_enc rks (length padded / BLOCKSIZE) iv padded.

(** The decrypting filter refuses an input that is not a positive number
    of whole blocks, decrypts, then checks and strips the padding. *)
Definition cbc_decrypt (rks : list bytes) (iv cipher : bytes) : result bytes :=
  if (length cipher =? 0) || negb (length cipher mod BLOCKSIZE =? 0)
  then Throw InvalidCiphertext
  else pkcs_unpad (cbc_dec rks (length cipher / BLOCKSIZE) iv cipher).

(** ** aesEncryptHex / aesDecryptHex *)

Definition aesEncryptHex (key : bytes) (rng : RandomPool) (plain : bytes)
  : result bytes :=
  let iv := GenerateBlock rng BLOCKSIZE in
  do rks <- SetKey key;
  let cipher := cbc_encrypt rks iv plain in
  let ivhex := toHex iv in
  let chex := toHex cipher in
  OK (ivhex ++ str ":" ++ chex).

Definition aesDecryptHex (key : bytes) (combined : bytes) : result bytes :=
  match find combined (str ":") 0 with
  | None => Throw BadCiphertextFormat
  | Some pos =>
      do ivhex <- substr combined 0 pos;
      do chex <- substr_from combined (pos + 1);
      let iv := fromHex ivhex in
      let cipher := fromHex chex in
      do rks <- SetKey key;
      (* SetKeyWithIV reads BLOCKSIZE bytes at iv.data() *)
      if length iv <? BLOCKSIZE then Throw IvOverread
      else cbc_decrypt rks (firstn BLOCKSIZE iv) cipher
  end.

(* ------------------------------------------------------------------ *)
(** * SHA-256 (FIPS 180-4): the digest behind [CryptoPP::SHA256] *)

Module SHA256.
Local Open Scope N_scope.

Definition w32 (x : N) : N := x mod 0x100000000.
Definition add32 (x y : N) : N := w32 (x + y).
Definition rotr (n x : N) : N :=
  N.lor (N.shiftr x n) (w32 (N.shiftl x (32 - n))).

Definition Ch (x y z : N) : N :=
  N.lxor (N.land x y) (N.land (N.lxor x 0xffffffff) z).
Definition Maj (x y z : N) : N :=
  N.lxor (N.lxor (N.land x y) (N.land x z)) (N.land y z).
Definition Sigma0 (x : N) : N :=
  N.lxor (N.lxor (rotr 2 x) (rotr 13 x)) (rotr 22 x).
Definition Sigma1 (x : N) : N :=
  N.lxor (N.lxor (rotr 6 x) (rotr 11 x)) (rotr 25 x).
Definition sigma0 (x : N) : N :=
  N.lxor (N.lxor (rotr 7 x) (rotr 18 x)) (N.shiftr x 3).
Definition sigma1 (x : N) : N :=
  N.lxor (N.lxor (rotr 17 x) (rotr 19 x)) (N.shiftr x 10).

Definition be_word (w : bytes) : N :=
  fold_left (fun acc c => acc * 256 + N_of_ascii c) w 0.

(** The round constants: the first 32 bits of the fractional parts of
    the cube roots of the first 64 primes, as 64 big-endian words. *)
Definition K : list N := Eval vm_compute in
  map be_word (words 64 (fromHex
    (str "428a2f9871374491b5c0fbcfe9b5dba53956c25b59f111f1923f82a4ab1c5ed5" ++
     str "d807aa9812835b01243185be550c7dc372be5d7480deb1fe9bdc06a7c19bf174" ++
     str "e49b69c1efbe47860fc19dc6240ca1cc2de92c6f4a7484aa5cb0a9dc76f988da" ++
     str "983e5152a831c66db00327c8bf597fc7c6e00bf3d5a7914706ca635114292967" ++
     str "27b70a852e1b21384d2c6dfc53380d13650a7354766a0abb81c2c92e92722c85" ++
     str "a2bfe8a1a81a664bc24b8b70c76c51a3d192e819d6990624f40e3585106aa070" ++
     str "19a4c1161e376c082748774c34b0bcb5391c0cb34ed8aa4a5b9cca4f682e6ff3" ++
     str "748f82ee78a5636f84c878148cc7020890befffaa4506cebbef9a3f7c67178f2"))).

Definition state : Type := N * N * N * N * N * N * N * N.

(** The initial hash value: from the square roots of the first 8
    primes. *)
Definition initial_words : list N := Eval vm_compute in
  map be_word (words 8 (fromHex
    (str "6a09e667bb67ae853c6ef372a54ff53a510e527f9b05688c1f83d9ab5be0cd19"))).

Definition initial : state :=
  match initial_words with
  | [a; b; c; d; e; f; g; h] => (a, b, c, d, e, f, g, h)
  | _ => (0, 0, 0, 0, 0, 0, 0, 0)
  end.

(** [n] bytes of [x], most significant first. *)
Definition be_bytes (n : nat) (x : N) : bytes :=
  map (fun i => ascii_of_N (N.shiftr x (8 * N.of_nat i) mod 256))
      (rev (seq 0 n)).

Definition pad (msg : bytes) : bytes :=
  let l := length msg in
  let zeros := ((64 - (l + 9) mod 64) mod 64)%nat in
  msg ++ [ascii_of_nat 128] ++ repeat zero zeros
      ++ be_bytes 8 (8 * N.of_nat l).

(** The message schedule; [rw] holds the words so far, last first. *)
Fixpoint extend (n : nat) (rw : list N) : list N :=
  match n with
  | O => rw
  | S n' =>
      let x := add32 (add32 (sigma1 (nth 1 rw 0)) (nth 6 rw 0))
                     (add32 (sigma0 (nth 14 rw 0)) (nth 15 rw 0)) in
      extend n' (x :: rw)
  end.

Definition schedule (block : bytes) : list N :=
  rev (extend 48 (rev (map be_word (words 16 block)))).

Definition step (s : state) (kw : N * N) : state :=
  let '(a, b, c, d, e, f, g, h) := s in
  let (k, w) := kw in
  let t1 := add32 (add32 (add32 h (Sigma1 e)) (add32 (Ch e f g) k)) w in
  let t2 := add32 (Sigma0 a) (Maj a b c) in
  (add32 t1 t2, a, b, c, add32 d t1, e, f, g).

Definition compress (s : state) (block : bytes) : state :=
  let '(a, b, c, d, e, f, g, h) := s in
  let '(a', b', c', d', e', f', g', h') :=
    fold_left step (combine K (schedule block)) s in
  (add32 a a', add32 b b', add32 c c', add32 d d',
   add32 e e', add32 f f', add32 g g', add32 h h').

Fixpoint blocks (n : nat) (s : state) (data : bytes) : state :=
  match n with
  | O => s
  | S n' => blocks n' (compress s (firstn 64 data)) (skipn 64 data)
  end.

Definition digest (msg : bytes) : bytes :=
  let padded := pad msg in
  let '(a, b, c, d, e, f, g, h) :=
    blocks (length padded / 64)%nat initial padded in
  be_bytes 4 a ++ be_bytes 4 b ++ be_bytes 4 c ++ be_bytes 4 d
  ++ be_bytes 4 e ++ be_bytes 4 f ++ be_bytes 4 g ++ be_bytes 4 h.

End SHA256.

(* ------------------------------------------------------------------ *)
(** * Key derivation and the three pre-shared keys *)

(** SHA-256 of the passphrase, first 16 bytes (an AES-128 key). *)
Definition deriveKey (passphrase : bytes) : bytes :=
  firstn 16 (SHA256.digest passphrase).

Definition NODE_ID_BASE : bytes := Eval cbv in str "node-".

Definition KEY_TA_NODE : bytes :=
  Eval vm_compute in deriveKey (str "passphrase_ta_node_v1").
Definition KEY_NODE_MW : bytes :=
  Eval vm_compute in deriveKey (str "passphrase_node_mw_v1").
Definition KEY_TA_MW : bytes :=
  Eval vm_compute in deriveKey (str "passphrase_ta_mw_v1").

(* ------------------------------------------------------------------ *)
(** * Machine integers, decimal text, comparison of doubles *)

Definition INT_MAX : Z := 2147483647.
Definition INT_MIN : Z := -2147483648.

(** Two's-complement wrap-around of [int] and [long long]. *)
Definition wrap32 (x : Z) : Z := ((x + 2 ^ 31) mod 2 ^ 32 - 2 ^ 31)%Z.
Definition wrap64 (x : Z) : Z := ((x + 2 ^ 63) mod 2 ^ 64 - 2 ^ 63)%Z.

(** [std::to_string(int)]. *)
Definition to_string (n : Z) : bytes :=
  str (NilZero.string_of_int (Z.to_int n)).

(** [x < y] on doubles. *)
Definition Qltb (x y : Q) : bool := negb (Qle_bool y x).

Fixpoint bytes_eqb (a b : bytes) : bool :=
  match a, b with
  | [], [] => true
  | x :: a', y :: b' => Ascii.eqb x y && bytes_eqb a' b'
  | _, _ => false
  end.

(* ------------------------------------------------------------------ *)
(** * Random token generator *)

Definition genTokenHex (rng : RandomPool) (nbytes : nat) : bytes :=
  let raw := GenerateBlock rng nbytes in
  toHex raw.

(* ------------------------------------------------------------------ *)
(** * The TA issues per-request tokens *)

Record IssuedTokens : Type := {
  token_plain : bytes;
  enc_for_node : bytes;
  enc_for_mw : bytes
}.

(** The three pools are the entropy of [genTokenHex] and of the two
    calls of [aesEncryptHex], in that order. *)
Definition TA_issue_tokens_for_node
    (token_rng node_rng mw_rng : RandomPool) (node_id : bytes)
  : result IssuedTokens :=
  let token := genTokenHex token_rng 16 in
  let payload_for_node := str "NODE_ID:" ++ node_id ++ str ";TOKEN:" ++ token in
  let payload_for_mw :=
    str "MW_EXPECTS_NODE:" ++ node_id ++ str ";TOKEN:" ++ token in
  do enc_node <- aesEncryptHex KEY_TA_NODE node_rng payload_for_node;
  do enc_mw <- aesEncryptHex KEY_TA_MW mw_rng payload_for_mw;
  OK {| token_plain := token; enc_for_node := enc_node; enc_for_mw := enc_mw |}.

(* ------------------------------------------------------------------ *)
(** * Config *)

Record Config : Type := {
  nodes : Z;
  workers : Z;
  tamper_percent : Q;
  payload_bytes : Z;
  node_start_jitter_ms : Z;
  net_delay_ta_node_min : Z;
  net_delay_ta_node_max : Z;
  net_delay_node_mw_min : Z;
  net_delay_node_mw_max : Z;
  db_delay_min : Z;
  db_delay_max : Z;
  fail_percent : Q;
  out_file : bytes
}.

Definition default_config : Config := {|
  nodes := 100;
  workers := 2;
  tamper_percent := 0;
  payload_bytes := 500;
  node_start_jitter_ms := 50;
  net_delay_ta_node_min := 5;
  net_delay_ta_node_max := 20;
  net_delay_node_mw_min := 5;
  net_delay_node_mw_max := 20;
  db_delay_min := 10;
  db_delay_max := 30;
  fail_percent := 0;
  out_file := str "realistic_perf.csv"
|}.

(* ------------------------------------------------------------------ *)
(** * Metrics *)

Record NodeMetrics : Type := {
  node_index : Z;
  total_us : Z;
  success : bool;
  dropped : bool
}.

(* ------------------------------------------------------------------ *)
(** * One iteration of the worker loop *)

(** What one iteration takes from outside: the two uniform draws of the
    generator the worker was handed by reference, the entropy of each
    random pool it creates, and the elapsed time the clock reports when
    the record is written.  The sleeps, and the delays drawn for them,
    only show in that time; any draw of the distribution's range and
    any elapsed time can occur. *)
Record Draws : Type := {
  fail_draw : Q;
  tamper_draw : Q;
  token_rng : RandomPool;
  node_rng : RandomPool;
  mw_rng : RandomPool;
  tamper_rng : RandomPool;
  request_rng : RandomPool;
  elapsed_us : Z
}.

(** [uniform_real_distribution<double>(0.0, 1.0)] draws from [0, 1). *)
Definition valid_draws (d : Draws) : Prop :=
  (0 <= fail_draw d /\ fail_draw d < 1 /\
   0 <= tamper_draw d /\ tamper_draw d < 1)%Q.

(** The text after the first "TOKEN:", or the empty string. *)
Definition token_after_marker (s : bytes) : result bytes :=
  match find s (str "TOKEN:") 0 with
  | Some p => substr_from s (p + 6)
  | None => OK []
  end.

(** ['A' + (idx % 26)] as a [char]. *)
Definition filler (idx : Z) : ascii :=
  ascii_of_N (Z.to_N ((65 + Z.rem idx 26) mod 256)).

(** [string(n, c)] with [n] an [int] converted to [size_t]. *)
Definition string_fill (n : Z) (c : ascii) : result bytes :=
  if (n <? 0)%Z then Throw LengthError else OK (repeat c (Z.to_nat n)).

(** "Maybe tamper". *)
Definition maybe_tamper (cfg : Config) (d : Draws) (token_extracted : bytes)
  : bytes :=
  if Qltb (tamper_draw d) (tamper_percent cfg / 100)
  then genTokenHex (tamper_rng d) 8
  else token_extracted.

(** "Build and encrypt to MW": the request text. *)
Definition build_request (cfg : Config) (idx : Z) (token_extracted : bytes)
  : result bytes :=
  do payload <- string_fill (payload_bytes cfg) (filler idx);
  let header :=
    str "NODE_ID:" ++ NODE_ID_BASE ++ to_string idx
    ++ str ";TOKEN:" ++ token_extracted in
  OK (str "HEADER[" ++ header ++ str "]|BODY[" ++ payload ++ str "]").

Definition header_marker : bytes := Eval cbv in str "HEADER[".

(** "parse header token": the comparison that sets [m.success], which
    otherwise keeps its initial [false]. *)
Definition validate_header (node_request_plain ta_token : bytes)
  : result bool :=
  match find node_request_plain header_marker 0 with
  | Some hpos =>
      match find node_request_plain (str "]") (hpos + length header_marker) with
      | Some hend =>
          do header_str <-
            substr node_request_plain (hpos + length header_marker)
                   (hend - (hpos + length header_marker));
          do node_token <- token_after_marker header_str;
          OK (bytes_eqb node_token ta_token)
      | None => OK false
      end
  | None => OK false
  end.

(** "Middleware decrypt & validate". *)
Definition mw_validate (enc_mw encrypted_for_mw : bytes) : result bool :=
  do ta_payload_for_mw <- aesDecryptHex KEY_TA_MW enc_mw;
  do ta_token <- token_after_marker ta_payload_for_mw;
  do node_request_plain <- aesDecryptHex KEY_NODE_MW encrypted_for_mw;
  validate_header node_request_plain ta_token.

(** The body of [while (true)] in [worker_func] once [idx] is claimed
    and found below [cfg.nodes]: the record pushed to [results], or the
    exception that leaves the thread. *)
Definition node_iteration (cfg : Config) (idx : Z) (d : Draws)
  : result NodeMetrics :=
  if Qltb (fail_draw d) (fail_percent cfg / 100) then
    OK {| node_index := idx; total_us := elapsed_us d;
          success := false; dropped := true |}
  else
    do issued <- TA_issue_tokens_for_node (token_rng d) (node_rng d) (mw_rng d)
                   (NODE_ID_BASE ++ to_string idx);
    do decrypted_payload <- aesDecryptHex KEY_TA_NODE (enc_for_node issued);
    do token_extracted <- token_after_marker decrypted_payload;
    let token_extracted := maybe_tamper cfg d token_extracted in
    do full_request <- build_request cfg idx token_extracted;
    do encrypted_for_mw <- aesEncryptHex KEY_NODE_MW (request_rng d) full_request;
    do ok <- mw_validate (enc_for_mw issued) encrypted_for_mw;
    OK {| node_index := idx; total_us := elapsed_us d;
          success := ok; dropped := false |}.

(* ------------------------------------------------------------------ *)
(** * The worker pool

    [worker_func] run by [threads] threads over the shared counter and
    the shared result vector.  Two actions of a thread are visible to
    the others: [counter.fetch_add(1)] and the [push_back] under the
    mutex; threads interleave between them in any order. *)

Inductive thread : Type :=
| AtLoop                  (* at the top of [while (true)] *)
| Working (idx : Z)       (* [idx] claimed, record not pushed yet *)
| Exited.                 (* after [break]: the thread can be joined *)

Record Pool : Type := {
  counter : Z;                      (* std::atomic<int> *)
  results : list NodeMetrics;       (* std::vector<NodeMetrics> *)
  threads : list thread;
  crashed : option error            (* an exception left a thread:
                                       std::terminate *)
}.

Fixpoint set_nth {A} (n : nat) (x : A) (l : list A) : list A :=
  match l, n with
  | [], _ => []
  | _ :: tl, O => x :: tl
  | y :: tl, S n' => y :: set_nth n' x tl
  end.

(** [int idx = counter.fetch_add(1); if (idx >= cfg.nodes) break;] *)
Definition claim (cfg : Config) (w : nat) (p : Pool) : Pool :=
  let idx := counter p in
  {| counter := wrap32 (idx + 1);
     results := results p;
     threads := set_nth w (if (idx >=? nodes cfg)%Z then Exited
                           else Working idx) (threads p);
     crashed := crashed p |}.

(** [results.push_back(std::move(m))], then back to the loop head. *)
Definition push (w : nat) (m : NodeMetrics) (p : Pool) : Pool :=
  {| counter := counter p;
     results := results p ++ [m];
     threads := set_nth w AtLoop (threads p);
     crashed := crashed p |}.

Definition crash (e : error) (p : Pool) : Pool :=
  {| counter := counter p;
     results := results p;
     threads := threads p;
     crashed := Some e |}.

Inductive step (cfg : Config) : Pool -> Pool -> Prop :=
| step_claim (w : nat) (p : Pool) :
    crashed p = None ->
    nth_error (threads p) w = Some AtLoop ->
    step cfg p (claim cfg w p)
| step_push (w : nat) (p : Pool) (idx : Z) (d : Draws) (m : NodeMetrics) :
    crashed p = None ->
    nth_error (threads p) w = Some (Working idx) ->
    valid_draws d ->
    node_iteration cfg idx d = OK m ->
    step cfg p (push w m p)
| step_throw (w : nat) (p : Pool) (idx : Z) (d : Draws) (e : error) :
    crashed p = None ->
    nth_error (threads p) w = Some (Working idx) ->
    valid_draws d ->
    node_iteration cfg idx d = Throw e ->
    step cfg p (crash e p).

Inductive steps (cfg : Config) : Pool -> Pool -> Prop :=
| steps_refl (p : Pool) : steps cfg p p
| steps_cons (p q r : Pool) : step cfg p q -> steps cfg q r -> steps cfg p r.

(** [main]: [workers = std::min(cfg.workers, cfg.nodes)] threads, an
    empty vector and [counter{0}]. *)
Definition pool_size (cfg : Config) : Z := Z.min (workers cfg) (nodes cfg).

Definition init_pool (cfg : Config) : Pool :=
  {| counter := 0;
     results := [];
     threads := repeat AtLoop (Z.to_nat (pool_size cfg));
     crashed := None |}.

Definition is_exited (t : thread) : bool :=
  match t with Exited => true | _ => false end.

(** Every [t.join()] returned. *)
Definition joined (p : Pool) : Prop :=
  crashed p = None /\ forallb is_exited (threads p) = true.

(** A completed run of the pool. *)
Definition completed_run (cfg : Config) (p : Pool) : Prop :=
  steps cfg (init_pool cfg) p /\ joined p.

(** A schedule names, at each step, the thread that moves and the
    draws it takes if it pushes. *)
Fixpoint run_schedule (cfg : Config) (sched : list (nat * Draws)) (p : Pool)
  : Pool :=
  match sched with
  | [] => p
  | (w, d) :: rest =>
      match crashed p, nth_error (threads p) w with
      | None, Some AtLoop => run_schedule cfg rest (claim cfg w p)
      | None, Some (Working idx) =>
          match node_iteration cfg idx d with
          | OK m => run_schedule cfg rest (push w m p)
          | Throw e => crash e p
          end
      | _, _ => p
      end
  end.

(* ------------------------------------------------------------------ *)
(** * Aggregated statistics *)

(** [std::sort] of a vector of [long long]: the ascending arrangement. *)
Fixpoint insert_sorted (x : Z) (l : list Z) : list Z :=
  match l with
  | [] => [x]
  | y :: tl => if (x <=? y)%Z then x :: l else y :: insert_sorted x tl
  end.

Fixpoint sort (l : list Z) : list Z :=
  match l with
  | [] => []
  | x :: tl => insert_sorted x (sort tl)
  end.

Definition median_of_vec (v : list Z) : Z :=
  match v with
  | [] => 0%Z
  | _ =>
      let v := sort v in
      let n := length v in
      if n mod 2 =? 1 then nth (n / 2) v 0%Z
      else Z.quot (wrap64 (nth (n / 2 - 1) v 0 + nth (n / 2) v 0)%Z) 2
  end.

Record RunSummary : Type := {
  avg_total : Z;
  min_total : Z;
  max_total : Z;
  med_total : Z;
  success_pct : Q;
  drop_pct : Q
}.

(** The loop over [results]: the totals of the records that are not
    dropped, and the two [int] counters. *)
Fixpoint tally (rs : list NodeMetrics) (totals : list Z)
    (success_cnt drop_cnt : Z) : list Z * Z * Z :=
  match rs with
  | [] => (totals, success_cnt, drop_cnt)
  | m :: rest =>
      let totals' := if dropped m then totals else totals ++ [total_us m] in
      let drop_cnt' := if dropped m then wrap32 (drop_cnt + 1) else drop_cnt in
      let success_cnt' :=
        if success m then wrap32 (success_cnt + 1) else success_cnt in
      tally rest totals' success_cnt' drop_cnt'
  end.

(** [std::accumulate(..., 0LL)]. *)
Definition accumulate (totals : list Z) : Z :=
  fold_left (fun acc x => wrap64 (acc + x)) totals 0%Z.

(** [*std::min_element] and [*std::max_element] of a vector that is not
    empty. *)
Definition min_element (first : Z) (others : list Z) : Z :=
  fold_left Z.min others first.
Definition max_element (first : Z) (others : list Z) : Z :=
  fold_left Z.max others first.

(** Division of [long long] values: undefined for a zero divisor. *)
Definition lldiv (a b : Z) : result Z :=
  if (b =? 0)%Z then Throw DivideByZero else OK (Z.quot a b).

(** Division of doubles; [DivideByZero] stands for the result that is
    not a finite number. *)
Definition fdiv (a b : Q) : result Q :=
  if Qeq_bool b 0 then Throw DivideByZero else OK (a / b)%Q.

(** "compute aggregated stats" in [main]. *)
Definition aggregate (cfg_nodes : Z) (rs : list NodeMetrics)
  : result RunSummary :=
  let '(totals, success_cnt, drop_cnt) := tally rs [] 0%Z 0%Z in
  do avg <- match totals with
            | [] => OK 0%Z
            | _ => lldiv (accumulate totals) (Z.of_nat (length totals))
            end;
  let min := match totals with [] => 0%Z | x :: tl => min_element x tl end in
  let max := match totals with [] => 0%Z | x :: tl => max_element x tl end in
  let med := median_of_vec totals in
  do spct <- match rs with
             | [] => OK 0%Q
             | _ => fdiv (100 * inject_Z success_cnt) (inject_Z cfg_nodes)
             end;
  do dpct <- match rs with
             | [] => OK 0%Q
             | _ => fdiv (100 * inject_Z drop_cnt) (inject_Z cfg_nodes)
             end;
  OK {| avg_total := avg; min_total := min; max_total := max;
        med_total := med; success_pct := spct; drop_pct := dpct |}.

(* ------------------------------------------------------------------ *)
(** * Command line *)

Definition set_nodes (v : Z) (cfg : Config) : Config :=
  {| nodes := v; workers := workers cfg;
     tamper_percent := tamper_percent cfg;
     payload_bytes := payload_bytes cfg;
     node_start_jitter_ms := node_start_jitter_ms cfg;
     net_delay_ta_node_min := net_delay_ta_node_min cfg;
     net_delay_ta_node_max := net_delay_ta_node_max cfg;
     net_delay_node_mw_min := net_delay_node_mw_min cfg;
     net_delay_node_mw_max := net_delay_node_mw_max cfg;
     db_delay_min := db_delay_min cfg; db_delay_max := db_delay_max cfg;
     fail_percent := fail_percent cfg; out_file := out_file cfg |}.

Definition set_workers (v : Z) (cfg : Config) : Config :=
  {| nodes := nodes cfg; workers := v;
     tamper_percent := tamper_percent cfg;
     payload_bytes := payload_bytes cfg;
     node_start_jitter_ms := node_start_jitter_ms cfg;
     net_delay_ta_node_min := net_delay_ta_node_min cfg;
     net_delay_ta_node_max := net_delay_ta_node_max cfg;
     net_delay_node_mw_min := net_delay_node_mw_min cfg;
     net_delay_node_mw_max := net_delay_node_mw_max cfg;
     db_delay_min := db_delay_min cfg; db_delay_max := db_delay_max cfg;
     fail_percent := fail_percent cfg; out_file := out_file cfg |}.

Definition set_tamper_percent (v : Q) (cfg : Config) : Config :=
  {| nodes := nodes cfg; workers := workers cfg; tamper_percent := v;
     payload_bytes := payload_bytes cfg;
     node_start_jitter_ms := node_start_jitter_ms cfg;
     net_delay_ta_node_min := net_delay_ta_node_min cfg;
     net_delay_ta_node_max := net_delay_ta_node_max cfg;
     net_delay_node_mw_min := net_delay_node_mw_min cfg;
     net_delay_node_mw_max := net_delay_node_mw_max cfg;
     db_delay_min := db_delay_min cfg; db_delay_max := db_delay_max cfg;
     fail_percent := fail_percent cfg; out_file := out_file cfg |}.

Definition set_payload_bytes (v : Z) (cfg : Config) : Config :=
  {| nodes := nodes cfg; workers := workers cfg;
     tamper_percent := tamper_percent cfg; payload_bytes := v;
     node_start_jitter_ms := node_start_jitter_ms cfg;
     net_delay_ta_node_min := net_delay_ta_node_min cfg;
     net_delay_ta_node_max := net_delay_ta_node_max cfg;
     net_delay_node_mw_min := net_delay_node_mw_min cfg;
     net_delay_node_mw_max := net_delay_node_mw_max cfg;
     db_delay_min := db_delay_min cfg; db_delay_max := db_delay_max cfg;
     fail_percent := fail_percent cfg; out_file := out_file cfg |}.

Definition set_node_start_jitter_ms (v : Z) (cfg : Config) : Config :=
  {| nodes := nodes cfg; workers := workers cfg;
     tamper_percent := tamper_percent cfg;
     payload_bytes := payload_bytes cfg; node_start_jitter_ms := v;
     net_delay_ta_node_min := net_delay_ta_node_min cfg;
     net_delay_ta_node_max := net_delay_ta_node_max cfg;
     net_delay_node_mw_min := net_delay_node_mw_min cfg;
     net_delay_node_mw_max := net_delay_node_mw_max cfg;
     db_delay_min := db_delay_min cfg; db_delay_max := db_delay_max cfg;
     fail_percent := fail_percent cfg; out_file := out_file cfg |}.

Definition set_net_delay_ta_node_min (v : Z) (cfg : Config) : Config :=
  {| nodes := nodes cfg; workers := workers cfg;
     tamper_percent := tamper_percent cfg;
     payload_bytes := payload_bytes cfg;
     node_start_jitter_ms := node_start_jitter_ms cfg;
     net_delay_ta_node_min := v;
     net_delay_ta_node_max := net_delay_ta_node_max cfg;
     net_delay_node_mw_min := net_delay_node_mw_min cfg;
     net_delay_node_mw_max := net_delay_node_mw_max cfg;
     db_delay_min := db_delay_min cfg; db_delay_max := db_delay_max cfg;
     fail_percent := fail_percent cfg; out_file := out_file cfg |}.

Definition set_net_delay_ta_node_max (v : Z) (cfg : Config) : Config :=
  {| nodes := nodes cfg; workers := workers cfg;
     tamper_percent := tamper_percent cfg;
     payload_bytes := payload_bytes cfg;
     node_start_jitter_ms := node_start_jitter_ms cfg;
     net_delay_ta_node_min := net_delay_ta_node_min cfg;
     net_delay_ta_node_max := v;
     net_delay_node_mw_min := net_delay_node_mw_min cfg;
     net_delay_node_mw_max := net_delay_node_mw_max cfg;
     db_delay_min := db_delay_min cfg; db_delay_max := db_delay_max cfg;
     fail_percent := fail_percent cfg; out_file := out_file cfg |}.

Definition set_net_delay_node_mw_min (v : Z) (cfg : Config) : Config :=
  {| nodes := nodes cfg; workers := workers cfg;
     tamper_percent := tamper_percent cfg;
     payload_bytes := payload_bytes cfg;
     node_start_jitter_ms := node_start_jitter_ms cfg;
     net_delay_ta_node_min := net_delay_ta_node_min cfg;
     net_delay_ta_node_max := net_delay_ta_node_max cfg;
     net_delay_node_mw_min := v;
     net_delay_node_mw_max := net_delay_node_mw_max cfg;
     db_delay_min := db_delay_min cfg; db_delay_max := db_delay_max cfg;
     fail_percent := fail_percent cfg; out_file := out_file cfg |}.

Definition set_net_delay_node_mw_max (v : Z) (cfg : Config) : Config :=
  {| nodes := nodes cfg; workers := workers cfg;
     tamper_percent := tamper_percent cfg;
     payload_bytes := payload_bytes cfg;
     node_start_jitter_ms := node_start_jitter_ms cfg;
     net_delay_ta_node_min := net_delay_ta_node_min cfg;
     net_delay_ta_node_max := net_delay_ta_node_max cfg;
     net_delay_node_mw_min := net_delay_node_mw_min cfg;
     net_delay_node_mw_max := v; db_delay_min := db_delay_min cfg;
     db_delay_max := db_delay_max cfg; fail_percent := fail_percent cfg;
     out_file := out_file cfg |}.

Definition set_db_delay_min (v : Z) (cfg : Config) : Config :=
  {| nodes := nodes cfg; workers := workers cfg;
     tamper_percent := tamper_percent cfg;
     payload_bytes := payload_bytes cfg;
     node_start_jitter_ms := node_start_jitter_ms cfg;
     net_delay_ta_node_min := net_delay_ta_node_min cfg;
     net_delay_ta_node_max := net_delay_ta_node_max cfg;
     net_delay_node_mw_min := net_delay_node_mw_min cfg;
     net_delay_node_mw_max := net_delay_node_mw_max cfg; db_delay_min := v;
     db_delay_max := db_delay_max cfg; fail_percent := fail_percent cfg;
     out_file := out_file cfg |}.

Definition set_db_delay_max (v : Z) (cfg : Config) : Config :=
  {| nodes := nodes cfg; workers := workers cfg;
     tamper_percent := tamper_percent cfg;
     payload_bytes := payload_bytes cfg;
     node_start_jitter_ms := node_start_jitter_ms cfg;
     net_delay_ta_node_min := net_delay_ta_node_min cfg;
     net_delay_ta_node_max := net_delay_ta_node_max cfg;
     net_delay_node_mw_min := net_delay_node_mw_min cfg;
     net_delay_node_mw_max := net_delay_node_mw_max cfg;
     db_delay_min := db_delay_min cfg; db_delay_max := v;
     fail_percent := fail_percent cfg; out_file := out_file cfg |}.

Definition set_fail_percent (v : Q) (cfg : Config) : Config :=
  {| nodes := nodes cfg; workers := workers cfg;
     tamper_percent := tamper_percent cfg;
     payload_bytes := payload_bytes cfg;
     node_start_jitter_ms := node_start_jitter_ms cfg;
     net_delay_ta_node_min := net_delay_ta_node_min cfg;
     net_delay_ta_node_max := net_delay_ta_node_max cfg;
     net_delay_node_mw_min := net_delay_node_mw_min cfg;
     net_delay_node_mw_max := net_delay_node_mw_max cfg;
     db_delay_min := db_delay_min cfg; db_delay_max := db_delay_max cfg;
     fail_percent := v; out_file := out_file cfg |}.

Definition set_out_file (v : bytes) (cfg : Config) : Config :=
  {| nodes := nodes cfg; workers := workers cfg;
     tamper_percent := tamper_percent cfg;
     payload_bytes := payload_bytes cfg;
     node_start_jitter_ms := node_start_jitter_ms cfg;
     net_delay_ta_node_min := net_delay_ta_node_min cfg;
     net_delay_ta_node_max := net_delay_ta_node_max cfg;
     net_delay_node_mw_min := net_delay_node_mw_min cfg;
     net_delay_node_mw_max := net_delay_node_mw_max cfg;
     db_delay_min := db_delay_min cfg; db_delay_max := db_delay_max cfg;
     fail_percent := fail_percent cfg; out_file := v |}.

Definition is_space (c : ascii) : bool :=
  let n := nat_of_ascii c in (n =? 32) || ((9 <=? n) && (n <=? 13)).

Definition is_digit (c : ascii) : bool :=
  let n := nat_of_ascii c in (48 <=? n) && (n <=? 57).

Fixpoint skip_spaces (s : bytes) : bytes :=
  match s with
  | c :: tl => if is_space c then skip_spaces tl else s
  | [] => []
  end.

Fixpoint digits_value (acc : Z) (s : bytes) : Z :=
  match s with
  | c :: tl =>
      if is_digit c
      then digits_value (10 * acc + (Z.of_nat (nat_of_ascii c) - 48)) tl
      else acc
  | [] => acc
  end.

(** [std::stoi]: blanks, a sign, decimal digits; what follows the
    digits is ignored. *)
Definition stoi (s : bytes) : result Z :=
  let s := skip_spaces s in
  let '(neg, s) :=
    match s with
    | c :: tl =>
        if Ascii.eqb c "-" then (true, tl)
        else if Ascii.eqb c "+" then (false, tl)
        else (false, s)
    | [] => (false, s)
    end in
  match s with
  | c :: _ =>
      if is_digit c then
        let v := digits_value 0 s in
        let v := if neg then (- v)%Z else v in
        if (v <? INT_MIN)%Z || (INT_MAX <? v)%Z then Throw OutOfRange
        else OK v
      else Throw InvalidArgument
  | [] => Throw InvalidArgument
  end.

(** [print_usage]: the lines written to [cout]. *)
Definition print_usage (prog : bytes) : list bytes :=
  [ str "Usage: " ++ prog
      ++ str " [--nodes N] [--workers N] [--tamper-percent P] [--payload-bytes N]";
    str "       [--node-jitter MS] [--net-ta-node MIN MAX] [--net-node-mw MIN MAX] [--db-delay MIN MAX]";
    str "       [--fail-percent P] [--out filename]";
    str "Defaults: nodes=1000 workers=4 tamper-percent=0.0 payload-bytes=256 fail-percent=1.0";
    str "Example: " ++ prog
      ++ str " --nodes 1000 --workers 4 --tamper-percent 5 --payload-bytes 512 --fail-percent 2" ].

Section CommandLine.

(** [std::stod] is taken from the standard library as it is. *)
Variable stod : bytes -> result Q.

(** What [parse_args] leaves: its [bool], the [Config] it was given by
    reference, and the lines written to [cerr]. *)
Definition parsed : Type := bool * Config * list bytes.

(** How one iteration of the [for] loop ends: at the next argument to
    examine, or with a [return]. *)
Inductive loop_step : Type :=
| Continue (rest : list bytes) (cfg : Config)
| Return (ok : bool) (cfg : Config) (cerr : list bytes).

(** [i + k < argc]: at least [k] arguments follow argument [i]. *)
Definition follows (k : nat) (rest : list bytes) : bool := k <=? length rest.

(** The body of the [for] loop: [a] is [argv[i]] and [rest] what follows
    it.  The branches marked "not reached" are those a true [follows]
    excludes. *)
Definition parse_one (a : bytes) (rest : list bytes) (cfg : Config)
  : result loop_step :=
  if bytes_eqb a (str "--nodes") && follows 1 rest then
    match rest with
    | v :: rest' => do n <- stoi v; OK (Continue rest' (set_nodes n cfg))
    | [] => OK (Continue rest cfg)   (* not reached *)
    end
  else if bytes_eqb a (str "--workers") && follows 1 rest then
    match rest with
    | v :: rest' => do n <- stoi v; OK (Continue rest' (set_workers n cfg))
    | [] => OK (Continue rest cfg)   (* not reached *)
    end
  else if bytes_eqb a (str "--tamper-percent") && follows 1 rest then
    match rest with
    | v :: rest' =>
        do x <- stod v; OK (Continue rest' (set_tamper_percent x cfg))
    | [] => OK (Continue rest cfg)   (* not reached *)
    end
  else if bytes_eqb a (str "--payload-bytes") && follows 1 rest then
    match rest with
    | v :: rest' =>
        do n <- stoi v; OK (Continue rest' (set_payload_bytes n cfg))
    | [] => OK (Continue rest cfg)   (* not reached *)
    end
  else if bytes_eqb a (str "--node-jitter") && follows 1 rest then
    match rest with
    | v :: rest' =>
        do n <- stoi v; OK (Continue rest' (set_node_start_jitter_ms n cfg))
    | [] => OK (Continue rest cfg)   (* not reached *)
    end
  else if bytes_eqb a (str "--net-ta-node") && follows 2 rest then
    match rest with
    | v1 :: v2 :: rest' =>
        do lo <- stoi v1;
        do hi <- stoi v2;
        OK (Continue rest'
              (set_net_delay_ta_node_max hi (set_net_delay_ta_node_min lo cfg)))
    | _ => OK (Continue rest cfg)    (* not reached *)
    end
  else if bytes_eqb a (str "--net-node-mw") && follows 2 rest then
    match rest with
    | v1 :: v2 :: rest' =>
        do lo <- stoi v1;
        do hi <- stoi v2;
        OK (Continue rest'
              (set_net_delay_node_mw_max hi (set_net_delay_node_mw_min lo cfg)))
    | _ => OK (Continue rest cfg)    (* not reached *)
    end
  else if bytes_eqb a (str "--db-delay") && follows 2 rest then
    match rest with
    | v1 :: v2 :: rest' =>
        do lo <- stoi v1;
        do hi <- stoi v2;
        OK (Continue rest' (set_db_delay_max hi (set_db_delay_min lo cfg)))
    | _ => OK (Continue rest cfg)    (* not reached *)
    end
  else if bytes_eqb a (str "--fail-percent") && follows 1 rest then
    match rest with
    | v :: rest' =>
        do x <- stod v; OK (Continue rest' (set_fail_percent x cfg))
    | [] => OK (Continue rest cfg)   (* not reached *)
    end
  else if bytes_eqb a (str "--out") && follows 1 rest then
    match rest with
    | v :: rest' => OK (Continue rest' (set_out_file v cfg))
    | [] => OK (Continue rest cfg)   (* not reached *)
    end
  else if bytes_eqb a (str "--help") || bytes_eqb a (str "-h") then
    OK (Return false cfg [])
  else
    OK (Return false cfg [str "Unknown arg: " ++ a]).

(** The [for] loop on the arguments from [argv[i]] on.  Every iteration
    moves [i] forward, so as many iterations as there are arguments
    suffice ([fuel]). *)
Fixpoint parse_loop (fuel : nat) (args : list bytes) (cfg : Config)
  : result parsed :=
  match args, fuel with
  | [], _ => OK (true, cfg, [])
  | _ :: _, O => OK (true, cfg, [])   (* not reached *)
  | a :: rest, S fuel' =>
      do st <- parse_one a rest cfg;
      match st with
      | Continue rest' cfg' => parse_loop fuel' rest' cfg'
      | Return ok cfg' cerr => OK (ok, cfg', cerr)
      end
  end.

(** The clamps after the loop. *)
Definition clamp_config (cfg : Config) : Config :=
  let cfg := if (nodes cfg <=? 0)%Z then set_nodes 1000 cfg else cfg in
  let cfg := if (workers cfg <=? 0)%Z then set_workers 1 cfg else cfg in
  let cfg := if Qltb (tamper_percent cfg) 0
             then set_tamper_percent 0 cfg else cfg in
  let cfg := if Qltb 100 (tamper_percent cfg)
             then set_tamper_percent 100 cfg else cfg in
  let cfg := if Qltb (fail_percent cfg) 0
             then set_fail_percent 0 cfg else cfg in
  let cfg := if Qltb 100 (fail_percent cfg)
             then set_fail_percent 100 cfg else cfg in
  cfg.

(** [parse_args(argc, argv, cfg)]; [argv] holds [argc] strings, the
    first of which is the program name. *)
Definition parse_args (argv : list bytes) (cfg : Config) : result parsed :=
  do r <- parse_loop (length argv) (tl argv) cfg;
  let '(ok, cfg', err) := r in
  if ok then OK (true, clamp_config cfg', err) else OK (false, cfg', err).

(** The loop, started on [args] with [cfg], comes to examine the first
    of [args'] with [cfg']. *)
Inductive reaches : list bytes -> Config -> list bytes -> Config -> Prop :=
| reaches_here (args : list bytes) (cfg : Config) :
    reaches args cfg args cfg
| reaches_next (a : bytes) (rest rest1 : list bytes) (cfg cfg1 : Config)
               (args' : list bytes) (cfg' : Config) :
    parse_one a rest cfg = OK (Continue rest1 cfg1) ->
    reaches rest1 cfg1 args' cfg' ->
    reaches (a :: rest) cfg args' cfg'.

(** The flags that take values, with the number of values. *)
Definition value_flags : list (bytes * nat) :=
  [ (str "--nodes", 1); (str "--workers", 1); (str "--tamper-percent", 1);
    (str "--payload-bytes", 1); (str "--node-jitter", 1);
    (str "--net-ta-node", 2); (str "--net-node-mw", 2); (str "--db-delay", 2);
    (str "--fail-percent", 1); (str "--out", 1) ].

(** What [main] leaves behind: the usage text and status 1, the
    summary handed to [write_summary_txt] and status 0, or the
    exception that ended the process ([std::terminate]). *)
Inductive main_result : Type :=
| Usage (cout : list bytes) (status : Z)
| Report (cfg : Config) (pool_workers : Z) (summary : RunSummary)
         (status : Z)
| Terminated (e : error).

Inductive main (argv : list bytes) : main_result -> Prop :=
| main_usage (cfg : Config) (err : list bytes) :
    parse_args argv default_config = OK (false, cfg, err) ->
    main argv (Usage (print_usage (hd [] argv)) 1)
| main_report (cfg : Config) (err : list bytes) (p : Pool) (s : RunSummary) :
    parse_args argv default_config = OK (true, cfg, err) ->
    completed_run cfg p ->
    aggregate (nodes cfg) (results p) = OK s ->
    main argv (Report cfg (pool_size cfg) s 0)
| main_bad_value (e : error) :
    parse_args argv default_config = Throw e ->
    main argv (Terminated e)
| main_thread_throws (cfg : Config) (err : list bytes) (p : Pool) (e : error) :
    parse_args argv default_config = OK (true, cfg, err) ->
    steps cfg (init_pool cfg) p ->
    crashed p = Some e ->
    main argv (Terminated e).

End CommandLine.

(* ------------------------------------------------------------------ *)
(** * Vocabulary of the statements and sample inputs *)

(** No character of [p] is [x]. *)
Definition absent (x : ascii) (p : bytes) : bool :=
  forallb (fun c => negb (Ascii.eqb x c)) p.

(** The characters of a decimal numeral: digits and the sign. *)
Definition dec_char (c : ascii) : bool :=
  let n := nat_of_ascii c in ((48 <=? n) && (n <=? 57)) || (n =? 45).

(** A value of type [long long]. *)
Definition representable64 (x : Z) : Prop := (- 2 ^ 63 <= x < 2 ^ 63)%Z.

Definition test_key : bytes :=
  Eval vm_compute in fromHex (str "000102030405060708090a0b0c0d0e0f").

Definition test_pool : RandomPool := fun i => ascii_of_nat (16 + i).

Definition sample_draws : Draws := {|
  fail_draw := 1 # 2;
  tamper_draw := 1 # 2;
  token_rng := fun i => ascii_of_nat (7 * i + 3);
  node_rng := fun i => ascii_of_nat (16 + i);
  mw_rng := fun i => ascii_of_nat (32 + i);
  tamper_rng := fun i => ascii_of_nat (200 + i);
  request_rng := fun i => ascii_of_nat (64 + i);
  elapsed_us := 41250
|}.

Definition small_config : Config := {|
  nodes := 3;
  workers := 2;
  tamper_percent := 0;
  payload_bytes := 5;
  node_start_jitter_ms := 0;
  net_delay_ta_node_min := 0;
  net_delay_ta_node_max := 0;
  net_delay_node_mw_min := 0;
  net_delay_node_mw_max := 0;
  db_delay_min := 0;
  db_delay_max := 0;
  fail_percent := 0;
  out_file := str "out.csv"
|}.

(** Counting records, as the specification does. *)
Definition count_success (rs : list NodeMetrics) : Z :=
  Z.of_nat (length (filter success rs)).
Definition count_dropped (rs : list NodeMetrics) : Z :=
  Z.of_nat (length (filter dropped rs)).

(** The elapsed times of the records that are not dropped. *)
Definition completed_totals (rs : list NodeMetrics) : list Z :=
  map total_us (filter (fun m => negb (dropped m)) rs).

Definition zero_summary : RunSummary :=
  {| avg_total := 0; min_total := 0; max_total := 0; med_total := 0;
     success_pct := 0; drop_pct := 0 |}.

(** avg, min, max and median of a vector of elapsed times, as [main]
    computes them. *)
Definition time_stats (totals : list Z) : Z * Z * Z * Z :=
  match totals with
  | [] => (0, 0, 0, 0)%Z
  | x :: tl =>
      (Z.quot (accumulate totals) (Z.of_nat (length totals)),
       min_element x tl, max_element x tl, median_of_vec totals)
  end.

(** The indices held by threads that have claimed and not yet pushed. *)
Definition claimed (ts : list thread) : list Z :=
  flat_map (fun t => match t with Working i => [i] | _ => [] end) ts.

Definition exited_count (ts : list thread) : Z :=
  Z.of_nat (length (filter is_exited ts)).

(** The node indices 0, 1, ..., n - 1. *)
Definition indices (n : Z) : list Z := map Z.of_nat (seq 0 (Z.to_nat n)).

(** What [parse_args] guarantees on the two counts (see
    [clamp_config]), within the range of [int]. *)
Definition counts_in_range (cfg : Config) : Prop :=
  (0 < nodes cfg <= INT_MAX /\ 0 < workers cfg <= INT_MAX)%Z.

(** The claims of the run stay below 2^31: one per node and one more
    per thread, the claim on which it leaves the loop. *)
Definition counter_in_range (cfg : Config) : Prop :=
  (nodes cfg + pool_size cfg <= 2 ^ 31)%Z.

(** The state the pool is in between two steps of a run. *)
Definition pool_inv (cfg : Config) (p : Pool) : Prop :=
  exists k : Z,
    (0 <= k)%Z
    /\ counter p = wrap32 k
    /\ k = (Z.min k (nodes cfg) + exited_count (threads p))%Z
    /\ Permutation (map node_index (results p) ++ claimed (threads p))
                   (indices (Z.min k (nodes cfg)))
    /\ length (threads p) = Z.to_nat (pool_size cfg).

(** [k] consecutive integers from [c]. *)
Definition Zseq (c : Z) (k : nat) : list Z :=
  map (fun i => (c + Z.of_nat i)%Z) (seq 0 k).

(** The record of a dropped node, and draws that drop under any
    positive drop percentage. *)
Definition dropped_record (idx : Z) : NodeMetrics :=
  {| node_index := idx; total_us := 0; success := false; dropped := true |}.

Definition dropping_draws : Draws := {|
  fail_draw := 0;
  tamper_draw := 0;
  token_rng := fun _ => zero;
  node_rng := fun _ => zero;
  mw_rng := fun _ => zero;
  tamper_rng := fun _ => zero;
  request_rng := fun _ => zero;
  elapsed_us := 0
|}.

(** [--nodes 2147483647 --fail-percent 100], other settings as the
    defaults. *)
Definition wrapping_config : Config :=
  set_fail_percent 100 (set_nodes INT_MAX default_config).

(** All draws of a schedule are draws of [uniform_real_distribution]. *)
Definition valid_schedule (sched : list (nat * Draws)) : Prop :=
  Forall (fun wd => valid_draws (snd wd)) sched.

(** What [aesDecryptHex] does with the two decoded parts of a wire
    string. *)
Definition decrypt_parts (key iv cipher : bytes) : result bytes :=
  do rks <- SetKey key;
  if length iv <? BLOCKSIZE then Throw IvOverread
  else cbc_decrypt rks (firstn BLOCKSIZE iv) cipher.

(** A run of [small_config]: two threads, three nodes. *)
Definition demo_schedule : list (nat * Draws) :=
  map (fun w => (w, sample_draws)) [0; 1; 1; 0; 0; 1; 0; 0].

Definition demo_run : Pool :=
  run_schedule small_config demo_schedule (init_pool small_config).

(** [small_config] with [--tamper-percent 100]. *)
Definition tamper_config : Config := set_tamper_percent 100 small_config.

(** Three records: a success, a dropped node, a failed validation. *)
Definition sample_records : list NodeMetrics :=
  [ {| node_index := 0; total_us := 30; success := true; dropped := false |};
    {| node_index := 1; total_us := 7; success := false; dropped := true |};
    {| node_index := 2; total_us := 10; success := false; dropped := false |} ].

(** A wire string with characters that are not hex digits. *)
Definition dirty_iv_hex : bytes :=
  Eval cbv in str "zz101112131415161718191a1b1c1d1e1f".
Definition dirty_cipher_hex : bytes :=
  Eval cbv in str "cda122e6 71f0f910 95f42633 4e422b2b".

(** [./verbose --workers 4 --nodes]: the last flag lacks its value. *)
Definition short_argv : list bytes :=
  [str "./verbose"; str "--workers"; str "4"; str "--nodes"].

(** A stand-in for [std::stod] that accepts nothing. *)
Definition no_stod (s : bytes) : result Q := Throw InvalidArgument.


(** [small_config] with [--fail-percent 100], and a run of each of the
    two variants of [small_config] under [demo_schedule]. *)
Definition drop_config : Config := set_fail_percent 100 small_config.

Definition tamper_run : Pool :=
  run_schedule tamper_config demo_schedule (init_pool tamper_config).

Definition drop_run : Pool :=
  run_schedule drop_config demo_schedule (init_pool drop_config).

(* ------------------------------------------------------------------ *)
(** * Vocabulary of the further properties *)

(** A lower-case hex digit, as [toHex] writes them. *)
Definition is_lower_hex (c : ascii) : bool := existsb (Ascii.eqb c) hex_alphabet.

(** ASCII upper case of a letter a..z. *)
Definition to_upper (c : ascii) : ascii :=
  let n := nat_of_ascii c in
  if (97 <=? n) && (n <=? 122) then ascii_of_nat (n - 32) else c.

(** The steps a run still has to make: two for each node not yet
    claimed (its claim and its push), one for each node claimed and
    not yet pushed, one for each thread still in the loop (the claim
    on which it leaves). *)
Definition steps_left (cfg : Config) (p : Pool) : Z :=
  (2 * nodes cfg + pool_size cfg
   - 2 * Z.of_nat (length (results p))
   - Z.of_nat (length (claimed (threads p)))
   - exited_count (threads p))%Z.

(** A run of exactly [n] steps. *)
Inductive steps_count (cfg : Config) : nat -> Pool -> Pool -> Prop :=
| count_refl (p : Pool) : steps_count cfg 0 p p
| count_cons (n : nat) (p q r : Pool) :
    step cfg p q -> steps_count cfg n q r -> steps_count cfg (S n) p r.


(** The steps a schedule makes (see [run_schedule]). *)
Fixpoint moves (cfg : Config) (sched : list (nat * Draws)) (p : Pool) : nat :=
  match sched with
  | [] => 0
  | (w, d) :: rest =>
      match crashed p, nth_error (threads p) w with
      | None, Some AtLoop => S (moves cfg rest (claim cfg w p))
      | None, Some (Working idx) =>
          match node_iteration cfg idx d with
          | OK m => S (moves cfg rest (push w m p))
          | Throw e => 1
          end
      | _, _ => 0
      end
  end.

(** [demo_run] after three steps: node 1 is recorded, node 0 is
    claimed and not yet recorded, node 2 is not claimed. *)
Definition mid_run : Pool :=
  run_schedule small_config (firstn 3 demo_schedule) (init_pool small_config).

(** The sum of a vector of elapsed times, as a number. *)
Definition total_time (l : list Z) : Z := fold_right Z.add 0%Z l.


(** Text at which the digits of a numeral end: nothing, or a character
    that is no digit. *)
Definition stops (s : bytes) : bool :=
  match s with [] => true | c :: _ => negb (is_digit c) end.

(** A value of type [int]. *)
Definition int_range (z : Z) : Prop := (INT_MIN <= z <= INT_MAX)%Z.

(** The flags that take one [int], with the field they set, and those
    that take two. *)
Definition int_flags : list (bytes * (Z -> Config -> Config)) :=
  [ (str "--nodes", set_nodes); (str "--workers", set_workers);
    (str "--payload-bytes", set_payload_bytes);
    (str "--node-jitter", set_node_start_jitter_ms) ].

Definition pair_flags
  : list (bytes * (Z -> Config -> Config) * (Z -> Config -> Config)) :=
  [ (str "--net-ta-node", set_net_delay_ta_node_min, set_net_delay_ta_node_max);
    (str "--net-node-mw", set_net_delay_node_mw_min, set_net_delay_node_mw_max);
    (str "--db-delay", set_db_delay_min, set_db_delay_max) ].


(** The arguments [parse_args] knows. *)
Definition known_args : list bytes :=
  map fst value_flags ++ [str "--help"; str "-h"].

(* ================================================================== *)
(** * Part II: facts and theorems *)
(** ** Facts on hex *)

Lemma hex_byte_roundtrip (c : ascii) (s : bytes) :
  hex_decode None (hex_digit (nat_of_ascii c / 16)
                   :: hex_digit (nat_of_ascii c mod 16) :: s)
  = c :: hex_decode None s.
Proof.
  destruct c as [[] [] [] [] [] [] [] []]; reflexivity.
Qed.

Lemma fromHex_toHex_app (s t : bytes) :
  hex_decode None (toHex s ++ t) = s ++ hex_decode None t.
Proof.
  induction s as [|c s IH]; [reflexivity|].
  cbn [toHex flat_map app]. rewrite hex_byte_roundtrip.
  fold (toHex s). now rewrite IH.
Qed.

Lemma fromHex_toHex (s : bytes) : fromHex (toHex s) = s.
Proof.
  unfold fromHex. rewrite <- (app_nil_r (toHex s)), fromHex_toHex_app.
  cbn. apply app_nil_r.
Qed.

Lemma toHex_length (s : bytes) : length (toHex s) = 2 * length s.
Proof.
  induction s as [|c s IH]; [reflexivity|].
  cbn [toHex flat_map app length] in *. fold (toHex s). lia.
Qed.

Lemma hex_digit_is_hex (c : ascii) :
  is_hex_digit (hex_digit (nat_of_ascii c / 16)) = true
  /\ is_hex_digit (hex_digit (nat_of_ascii c mod 16)) = true.
Proof.
  destruct c as [[] [] [] [] [] [] [] []]; split; reflexivity.
Qed.

Lemma toHex_is_hex (s : bytes) : forallb is_hex_digit (toHex s) = true.
Proof.
  induction s as [|c s IH]; [reflexivity|].
  cbn [toHex flat_map app forallb]. fold (toHex s).
  destruct (hex_digit_is_hex c) as [-> ->]. exact IH.
Qed.

(** Characters that are not hex digits do not change what is decoded. *)
Lemma hex_decode_filter (p : option nat) (s : bytes) :
  hex_decode p (filter is_hex_digit s) = hex_decode p s.
Proof.
  revert p; induction s as [|c s IH]; intro p; [reflexivity|].
  cbn [filter]. unfold is_hex_digit at 1.
  destruct (hex_value c) eqn:E; cbn [hex_decode]; rewrite E.
  - destruct p; now rewrite IH.
  - apply IH.
Qed.

(** The examples of FIPS-197, appendix C. *)
Example aes128_fips197 :
  toHex (Cipher (KeyExpansion (fromHex (str "000102030405060708090a0b0c0d0e0f")))
                (fromHex (str "00112233445566778899aabbccddeeff")))
  = str "69c4e0d86a7b0430d8cdb78070b4c55a".
Proof. vm_compute. reflexivity. Qed.

Example aes192_fips197 :
  toHex (Cipher (KeyExpansion
                   (fromHex (str "000102030405060708090a0b0c0d0e0f1011121314151617")))
                (fromHex (str "00112233445566778899aabbccddeeff")))
  = str "dda97ca4864cdfe06eaf70a0ec0d7191".
Proof. vm_compute. reflexivity. Qed.

Example aes256_fips197 :
  toHex (Cipher (KeyExpansion
                   (fromHex (str "000102030405060708090a0b0c0d0e0f101112131415161718191a1b1c1d1e1f")))
                (fromHex (str "00112233445566778899aabbccddeeff")))
  = str "8ea2b7ca516745bfeafc49904b496089".
Proof. vm_compute. reflexivity. Qed.

Example aes128_fips197_inverse :
  toHex (InvCipher (KeyExpansion (fromHex (str "000102030405060708090a0b0c0d0e0f")))
                   (fromHex (str "69c4e0d86a7b0430d8cdb78070b4c55a")))
  = str "00112233445566778899aabbccddeeff".
Proof. vm_compute. reflexivity. Qed.

(** ** The inverse cipher undoes the cipher *)

Lemma bxor_involutive (a b : ascii) : bxor (bxor a b) b = a.
Proof.
  destruct a, b; cbn. f_equal; btauto.
Qed.

Lemma xor_bytes_involutive (a b : bytes) : xor_bytes (xor_bytes a b) b = a.
Proof.
  revert b; induction a as [|x a IH]; intros [|y b]; cbn; try reflexivity.
  now rewrite bxor_involutive, IH.
Qed.

Lemma inv_sub_byte_sub_byte (c : ascii) : inv_sub_byte (sub_byte c) = c.
Proof.
  destruct c as [[] [] [] [] [] [] [] []]; reflexivity.
Qed.

Lemma InvSubBytes_SubBytes (s : bytes) : InvSubBytes (SubBytes s) = s.
Proof.
  unfold InvSubBytes, SubBytes. rewrite map_map.
  rewrite (map_ext _ (fun c => c) inv_sub_byte_sub_byte). apply map_id.
Qed.

Lemma InvShiftRows_ShiftRows (s : bytes) : InvShiftRows (ShiftRows s) = s.
Proof.
  do 17 (destruct s as [|? s]; [reflexivity|]). reflexivity.
Qed.

Lemma inv_mix_column_mix_column (a0 a1 a2 a3 : ascii) :
  match mix_column a0 a1 a2 a3 with
  | [b0; b1; b2; b3] => inv_mix_column b0 b1 b2 b3
  | _ => []
  end = [a0; a1; a2; a3].
Proof.
  destruct a0, a1, a2, a3.
  cbv [mix_column inv_mix_column mul2 mul3 mul9 mul11 mul13 mul14 xtime bxor].
  repeat f_equal; btauto.
Qed.

Lemma InvMixColumns_MixColumns (s : bytes) : InvMixColumns (MixColumns s) = s.
Proof.
  do 16 (destruct s as [|? s]; [reflexivity|]).
  destruct s; [|reflexivity].
  pose proof inv_mix_column_mix_column as E.
  unfold MixColumns.
  repeat match goal with
  | |- context [mix_column ?a ?b ?c ?d] =>
      let H := fresh in
      pose proof (E a b c d) as H;
      destruct (mix_column a b c d) as [|? [|? [|? [|? [|? ?]]]]];
      try discriminate H
  end.
  cbn [app InvMixColumns].
  repeat match goal with H : inv_mix_column _ _ _ _ = _ |- _ =>
    rewrite H; clear H end.
  reflexivity.
Qed.

Lemma inv_round_round (k s : bytes) : inv_round k (round k s) = s.
Proof.
  unfold inv_round, round, AddRoundKey.
  now rewrite xor_bytes_involutive, InvMixColumns_MixColumns,
    InvShiftRows_ShiftRows, InvSubBytes_SubBytes.
Qed.

Lemma inv_final_round_final_round (k s : bytes) :
  inv_final_round k (final_round k s) = s.
Proof.
  unfold inv_final_round, final_round, AddRoundKey.
  now rewrite xor_bytes_involutive, InvShiftRows_ShiftRows,
    InvSubBytes_SubBytes.
Qed.

Lemma inv_rounds_rounds (rks : list bytes) (s : bytes) :
  inv_rounds rks (rounds rks s) = s.
Proof.
  revert s; induction rks as [|k rest IH]; intro s; [reflexivity|].
  destruct rest as [|k' rest].
  - apply inv_final_round_final_round.
  - change (inv_round k (inv_rounds (k' :: rest)
                           (rounds (k' :: rest) (round k s))) = s).
    now rewrite IH, inv_round_round.
Qed.

Theorem InvCipher_Cipher (rks : list bytes) (b : bytes) :
  InvCipher rks (Cipher rks b) = b.
Proof.
  destruct rks as [|k0 rest]; [reflexivity|].
  unfold InvCipher, Cipher, AddRoundKey.
  now rewrite inv_rounds_rounds, xor_bytes_involutive.
Qed.

(** The cipher keeps the length of its input. *)

Lemma xor_bytes_length (a b : bytes) : length (xor_bytes a b) = length a.
Proof.
  revert b; induction a as [|x a IH]; intros [|y b]; cbn; auto.
Qed.

Lemma ShiftRows_length (s : bytes) : length (ShiftRows s) = length s.
Proof.
  do 17 (destruct s as [|? s]; [reflexivity|]). reflexivity.
Qed.

Lemma MixColumns_length (s : bytes) : length (MixColumns s) = length s.
Proof.
  do 17 (destruct s as [|? s]; [reflexivity|]). reflexivity.
Qed.

Lemma round_length (k s : bytes) : length (round k s) = length s.
Proof.
  unfold round, AddRoundKey, SubBytes.
  now rewrite xor_bytes_length, MixColumns_length, ShiftRows_length,
    length_map.
Qed.

Lemma final_round_length (k s : bytes) : length (final_round k s) = length s.
Proof.
  unfold final_round, AddRoundKey, SubBytes.
  now rewrite xor_bytes_length, ShiftRows_length, length_map.
Qed.

Lemma rounds_length (rks : list bytes) (s : bytes) :
  length (rounds rks s) = length s.
Proof.
  revert s; induction rks as [|k rest IH]; intro s; [reflexivity|].
  destruct rest as [|k' rest].
  - apply final_round_length.
  - change (length (rounds (k' :: rest) (round k s)) = length s).
    now rewrite IH, round_length.
Qed.

Lemma Cipher_length (rks : list bytes) (b : bytes) :
  length (Cipher rks b) = length b.
Proof.
  destruct rks as [|k0 rest]; [reflexivity|].
  unfold Cipher, AddRoundKey. now rewrite rounds_length, xor_bytes_length.
Qed.

(** Cross-checked with [openssl enc -aes-128-cbc]. *)
Example aesEncryptHex_hello :
  aesEncryptHex test_key test_pool (str "hello world")
  = OK (str "101112131415161718191a1b1c1d1e1f:cda122e671f0f91095f426334e422b2b").
Proof. vm_compute. reflexivity. Qed.

Example aesEncryptHex_full_block :
  aesEncryptHex test_key test_pool (str "0123456789abcdef")
  = OK (str "101112131415161718191a1b1c1d1e1f:eb9e5ba41b902db8252982aa1a23f4be50c761ee882c090360eb92688653635f").
Proof. vm_compute. reflexivity. Qed.

Example aesDecryptHex_hello :
  aesDecryptHex test_key
    (str "101112131415161718191a1b1c1d1e1f:cda122e671f0f91095f426334e422b2b")
  = OK (str "hello world").
Proof. vm_compute. reflexivity. Qed.

(* ------------------------------------------------------------------ *)
(** * Facts on [find] *)

Lemma prefixb_app (n rest : bytes) : prefixb n (n ++ rest) = true.
Proof.
  induction n as [|a n IH]; [reflexivity|].
  cbn. now rewrite Ascii.eqb_refl, IH.
Qed.

Lemma prefixb_true (n s : bytes) :
  prefixb n s = true -> exists rest, s = n ++ rest.
Proof.
  revert s; induction n as [|a n IH]; intros s H.
  - now exists s.
  - destruct s as [|b s]; [discriminate|]. cbn in H.
    apply andb_true_iff in H as [Hab H]. apply Ascii.eqb_eq in Hab as ->.
    destruct (IH _ H) as [rest ->]. now exists rest.
Qed.

Lemma absent_app (x : ascii) (p q : bytes) :
  absent x (p ++ q) = absent x p && absent x q.
Proof. apply forallb_app. Qed.

(** A needle is first found right after a prefix that lacks its first
    character. *)
Lemma find_first_after (x : ascii) (nd p rest : bytes) :
  absent x p = true ->
  find_first (x :: nd) (p ++ x :: nd ++ rest) = Some (length p).
Proof.
  induction p as [|c p IH]; intro H.
  - cbn. now rewrite Ascii.eqb_refl, prefixb_app.
  - cbn in H. apply andb_true_iff in H as [Hc H].
    apply negb_true_iff in Hc.
    cbn [app find_first prefixb length]. rewrite Hc. cbn [andb].
    now rewrite (IH H).
Qed.

Lemma find_first_bound (needle hay : bytes) (p : nat) :
  find_first needle hay = Some p -> p + length needle <= length hay.
Proof.
  revert p; induction hay as [|c hay IH]; intros p H; cbn in H.
  - destruct needle; [|discriminate]. injection H as <-. cbn; lia.
  - destruct (prefixb needle (c :: hay)) eqn:E.
    + injection H as <-. apply prefixb_true in E as [rest E].
      rewrite E, length_app. lia.
    + destruct (find_first needle hay) as [q|]; [|discriminate].
      injection H as <-. specialize (IH q eq_refl). cbn; lia.
Qed.

Lemma find_first_none (x : ascii) (nd hay : bytes) :
  absent x hay = true -> find_first (x :: nd) hay = None.
Proof.
  induction hay as [|c hay IH]; intro H; [reflexivity|].
  cbn in H. apply andb_true_iff in H as [Hc H]. apply negb_true_iff in Hc.
  cbn. now rewrite Hc, (IH H).
Qed.

Lemma find_0 (s needle : bytes) : find s needle 0 = find_first needle s.
Proof.
  unfold find. cbn. now destruct (find_first needle s).
Qed.

(** Hex text holds no separator, bracket or capital letter. *)
Lemma hex_absent (x : ascii) (s : bytes) :
  is_hex_digit x = false -> forallb is_hex_digit s = true -> absent x s = true.
Proof.
  intros Hx. unfold absent.
  induction s as [|c s IH]; [reflexivity|]. cbn [forallb].
  intro H. apply andb_true_iff in H as [Hc H]. rewrite (IH H), andb_true_r.
  apply negb_true_iff. destruct (Ascii.eqb x c) eqn:E; [|reflexivity].
  apply Ascii.eqb_eq in E as ->. congruence.
Qed.

(* ------------------------------------------------------------------ *)
(** * The CBC round trip *)

Lemma GenerateBlock_length (rng : RandomPool) (n : nat) :
  length (GenerateBlock rng n) = n.
Proof. unfold GenerateBlock. now rewrite length_map, length_seq. Qed.

Lemma cbc_enc_length (rks : list bytes) (n : nat) (prev data : bytes) :
  BLOCKSIZE * n <= length data ->
  length (cbc_enc rks n prev data) = BLOCKSIZE * n.
Proof.
  unfold BLOCKSIZE.
  revert prev data; induction n as [|n IH]; intros prev data H;
    [reflexivity|].
  cbn [cbc_enc]. rewrite length_app, Cipher_length, xor_bytes_length.
  unfold BLOCKSIZE. rewrite length_firstn, IH; [lia|].
  rewrite length_skipn. lia.
Qed.

Lemma firstn_app_exact {A} (n : nat) (a b : list A) :
  length a = n -> firstn n (a ++ b) = a.
Proof.
  intros <-. now rewrite firstn_app, Nat.sub_diag, firstn_O, firstn_all,
    app_nil_r.
Qed.

Lemma skipn_app_exact {A} (n : nat) (a b : list A) :
  length a = n -> skipn n (a ++ b) = b.
Proof.
  intros <-. now rewrite skipn_app, Nat.sub_diag, skipn_O, skipn_all.
Qed.

Lemma cbc_dec_enc (rks : list bytes) (n : nat) (prev data : bytes) :
  BLOCKSIZE * n <= length data ->
  cbc_dec rks n prev (cbc_enc rks n prev data) = firstn (BLOCKSIZE * n) data.
Proof.
  unfold BLOCKSIZE.
  revert prev data; induction n as [|n IH]; intros prev data H;
    [reflexivity|].
  cbn [cbc_enc cbc_dec]. unfold BLOCKSIZE.
  set (c := Cipher rks (xor_bytes (firstn 16 data) prev)).
  assert (Hc : length c = 16).
  { unfold c. rewrite Cipher_length, xor_bytes_length, length_firstn. lia. }
  rewrite (firstn_app_exact _ _ Hc), (skipn_app_exact _ _ Hc).
  unfold c at 1. rewrite InvCipher_Cipher, xor_bytes_involutive.
  rewrite IH by (rewrite length_skipn; lia).
  replace (16 * S n) with (16 + 16 * n) by lia.
  rewrite <- (firstn_skipn 16 data) at 3.
  rewrite firstn_app, length_firstn.
  replace (Nat.min 16 (length data)) with 16 by lia.
  replace (16 + 16 * n - 16) with (16 * n) by lia.
  f_equal. rewrite firstn_firstn. f_equal. lia.
Qed.

Lemma pkcs_pad_length (plain : bytes) :
  length (pkcs_pad plain)
  = BLOCKSIZE * (length plain / BLOCKSIZE + 1).
Proof.
  unfold pkcs_pad, BLOCKSIZE. rewrite length_app, repeat_length.
  pose proof (Nat.div_mod_eq (length plain) 16).
  pose proof (Nat.mod_upper_bound (length plain) 16). lia.
Qed.

Lemma last_app_repeat (p : bytes) (c : ascii) (n : nat) :
  0 < n -> last (p ++ repeat c n) zero = c.
Proof.
  intro H. destruct n as [|n]; [lia|].
  replace (S n) with (n + 1) by lia.
  rewrite repeat_app, app_assoc. cbn. apply last_last.
Qed.

Lemma forallb_eqb_repeat (c : ascii) (n : nat) :
  forallb (Ascii.eqb c) (repeat c n) = true.
Proof.
  induction n as [|n IH]; [reflexivity|]. cbn.
  now rewrite Ascii.eqb_refl, IH.
Qed.

Lemma pkcs_unpad_pad (plain : bytes) : pkcs_unpad (pkcs_pad plain) = OK plain.
Proof.
  unfold pkcs_unpad, pkcs_pad, BLOCKSIZE.
  pose proof (Nat.mod_upper_bound (length plain) 16 ltac:(lia)) as Hm.
  set (n := 16 - length plain mod 16) in *.
  assert (Hn : 1 <= n <= 16) by (unfold n; lia).
  rewrite last_app_repeat by lia.
  rewrite nat_ascii_embedding by lia.
  rewrite length_app, repeat_length.
  replace (length plain + n - n) with (length plain) by lia.
  rewrite (skipn_app_exact _ _ eq_refl), forallb_eqb_repeat.
  rewrite (firstn_app_exact _ _ eq_refl).
  destruct (Nat.leb_spec 1 n); [|lia].
  destruct (Nat.leb_spec n 16); [|lia]. reflexivity.
Qed.

Lemma cbc_decrypt_encrypt (rks : list bytes) (iv plain : bytes) :
  cbc_decrypt rks iv (cbc_encrypt rks iv plain) = OK plain.
Proof.
  unfold cbc_decrypt, cbc_encrypt.
  pose proof (pkcs_pad_length plain) as Hp. unfold BLOCKSIZE in *.
  set (m := length plain / 16 + 1) in *.
  assert (Hdiv : length (pkcs_pad plain) / 16 = m).
  { rewrite Hp, Nat.mul_comm. apply Nat.div_mul. lia. }
  rewrite Hdiv.
  pose proof (cbc_enc_length rks m iv (pkcs_pad plain)) as Hl.
  unfold BLOCKSIZE in Hl. rewrite Hl by lia.
  replace (16 * m =? 0) with false by (symmetry; apply Nat.eqb_neq; lia).
  replace (16 * m mod 16) with 0
    by (rewrite Nat.mul_comm, Nat.Div0.mod_mul; reflexivity).
  cbn [Nat.eqb negb orb].
  replace (16 * m / 16) with m by (rewrite Nat.mul_comm, Nat.div_mul; lia).
  pose proof (cbc_dec_enc rks m iv (pkcs_pad plain)) as Hd.
  unfold BLOCKSIZE in Hd. rewrite Hd by lia.
  rewrite <- Hp, firstn_all. apply pkcs_unpad_pad.
Qed.

Lemma find_separator (a b : bytes) :
  forallb is_hex_digit a = true ->
  find (a ++ str ":" ++ b) (str ":") 0 = Some (length a).
Proof.
  intro H. rewrite find_0. change (str ":") with [":"%char].
  change ([":"%char] ++ b) with (":"%char :: [] ++ b).
  apply find_first_after, hex_absent; [reflexivity|exact H].
Qed.

(** Decrypting a wire string made of the hex of a 16-byte IV, the
    separator and the hex of a ciphertext. *)
Lemma substr_from_ok (s : bytes) (pos : nat) :
  pos <= length s -> substr_from s pos = OK (skipn pos s).
Proof.
  intro H. unfold substr_from.
  now destruct (Nat.ltb_spec (length s) pos); [lia|].
Qed.

Lemma substr_ok (s : bytes) (pos n : nat) :
  pos <= length s -> substr s pos n = OK (firstn n (skipn pos s)).
Proof.
  intro H. unfold substr.
  now destruct (Nat.ltb_spec (length s) pos); [lia|].
Qed.

Lemma substr_from_app (a b : bytes) : substr_from (a ++ b) (length a) = OK b.
Proof.
  rewrite substr_from_ok by (rewrite length_app; lia).
  now rewrite (skipn_app_exact _ _ eq_refl).
Qed.

Lemma substr_prefix (a b : bytes) : substr (a ++ b) 0 (length a) = OK a.
Proof.
  rewrite substr_ok by lia.
  now rewrite skipn_O, (firstn_app_exact _ _ eq_refl).
Qed.

Lemma aesDecryptHex_wire (key iv cipher : bytes) (rks : list bytes) :
  SetKey key = OK rks -> length iv = BLOCKSIZE ->
  aesDecryptHex key (toHex iv ++ str ":" ++ toHex cipher)
  = cbc_decrypt rks iv cipher.
Proof.
  intros Hk Hiv. unfold aesDecryptHex.
  rewrite find_separator by apply toHex_is_hex.
  rewrite substr_prefix. cbn [bind].
  replace (length (toHex iv) + 1) with (length (toHex iv ++ str ":"))
    by (rewrite length_app; reflexivity).
  rewrite app_assoc, substr_from_app. cbn [bind].
  rewrite !fromHex_toHex, Hk. cbn [bind]. rewrite Hiv, Nat.ltb_irrefl.
  rewrite <- Hiv. now rewrite firstn_all.
Qed.

(** The round trip, whatever the key schedule and the entropy. *)
Lemma aes_roundtrip (key : bytes) (rng : RandomPool) (plain : bytes) :
  valid_key_length (length key) = true ->
  exists wire,
    aesEncryptHex key rng plain = OK wire
    /\ aesDecryptHex key wire = OK plain.
Proof.
  intro Hk. unfold aesEncryptHex, SetKey. rewrite Hk. cbn [bind].
  eexists; split; [reflexivity|].
  rewrite (@aesDecryptHex_wire key _ _ (KeyExpansion key)).
  - apply cbc_decrypt_encrypt.
  - unfold SetKey. now rewrite Hk.
  - apply GenerateBlock_length.
Qed.

Example sha256_abc :
  toHex (SHA256.digest (str "abc"))
  = str "ba7816bf8f01cfea414140de5dae2223b00361a396177a9cb410ff61f20015ad".
Proof. vm_compute. reflexivity. Qed.

Example sha256_two_blocks :
  toHex (SHA256.digest (repeat "a"%char 100))
  = str "2816597888e4a0d3a36b82b83316ab32680eb8f00f8cd3b904d681246d285a0e".
Proof. vm_compute. reflexivity. Qed.

Example KEY_TA_NODE_value :
  toHex KEY_TA_NODE = str "fcb6e93338ce3a7babfa5e6202d2c702".
Proof. vm_compute. reflexivity. Qed.

Lemma deriveKey_length (passphrase : bytes) :
  length (deriveKey passphrase) = 16.
Proof.
  unfold deriveKey, SHA256.digest.
  destruct (SHA256.blocks _ _ _) as [[[[[[[a b] c] d] e] f] g] h].
  reflexivity.
Qed.

Lemma deriveKey_valid (passphrase : bytes) :
  valid_key_length (length (deriveKey passphrase)) = true.
Proof. now rewrite deriveKey_length. Qed.

(* ------------------------------------------------------------------ *)
(** * The protocol on concrete inputs *)

Example node_iteration_sample :
  node_iteration small_config 2 sample_draws
  = OK {| node_index := 2; total_us := 41250;
          success := true; dropped := false |}.
Proof. vm_compute. reflexivity. Qed.

Example to_string_samples :
  to_string 0 = str "0" /\ to_string 42 = str "42"
  /\ to_string (-2147483648) = str "-2147483648".
Proof. repeat split. Qed.

(* ------------------------------------------------------------------ *)
(** * Locating the token in the protocol messages *)

Lemma bytes_eqb_refl (a : bytes) : bytes_eqb a a = true.
Proof.
  induction a as [|x a IH]; [reflexivity|].
  cbn. now rewrite Ascii.eqb_refl.
Qed.

Lemma bytes_eqb_eq (a b : bytes) : bytes_eqb a b = true <-> a = b.
Proof.
  split; [|intros ->; apply bytes_eqb_refl].
  revert b; induction a as [|x a IH]; intros [|y b] H;
    try discriminate; [reflexivity|].
  cbn in H. apply andb_true_iff in H as [Hx H].
  apply Ascii.eqb_eq in Hx as ->. now rewrite (IH _ H).
Qed.

(** A character outside a class is absent from text made of the class. *)
Lemma absent_of_class (P : ascii -> bool) (x : ascii) (s : bytes) :
  P x = false -> forallb P s = true -> absent x s = true.
Proof.
  intros Hx. unfold absent.
  induction s as [|c s IH]; [reflexivity|]. cbn [forallb].
  intro H. apply andb_true_iff in H as [Hc H]. rewrite (IH H), andb_true_r.
  apply negb_true_iff. destruct (Ascii.eqb x c) eqn:E; [|reflexivity].
  apply Ascii.eqb_eq in E as ->. congruence.
Qed.

Lemma string_of_uint_dec (u : Decimal.uint) :
  forallb dec_char (str (NilEmpty.string_of_uint u)) = true.
Proof. induction u; cbn; auto. Qed.

Lemma to_string_dec (n : Z) : forallb dec_char (to_string n) = true.
Proof.
  unfold to_string. destruct (Z.to_int n) as [u|u]; cbn;
    destruct u; try reflexivity; apply (string_of_uint_dec (_ u)).
Qed.

Lemma to_string_absent (x : ascii) (n : Z) :
  dec_char x = false -> absent x (to_string n) = true.
Proof. intro H. apply (absent_of_class dec_char); [exact H|apply to_string_dec]. Qed.

Lemma genTokenHex_is_hex (rng : RandomPool) (n : nat) :
  forallb is_hex_digit (genTokenHex rng n) = true.
Proof. apply toHex_is_hex. Qed.

Lemma genTokenHex_length (rng : RandomPool) (n : nat) :
  length (genTokenHex rng n) = 2 * n.
Proof.
  unfold genTokenHex. now rewrite toHex_length, GenerateBlock_length.
Qed.

Lemma find_first_cons_miss (needle hay : bytes) (c : ascii) :
  prefixb needle (c :: hay) = false ->
  find_first needle (c :: hay) = option_map S (find_first needle hay).
Proof. intro H. cbn [find_first]. now rewrite H. Qed.

Lemma find_token_marker (p token : bytes) :
  absent "T" p = true ->
  find_first (str "TOKEN:") (p ++ str "TOKEN:" ++ token) = Some (length p).
Proof. intro H. now apply (find_first_after "T" (str "OKEN:")). Qed.

(** When the marker is first found right after [pre], the text taken
    is what follows the marker. *)
Lemma token_after_marker_at (pre token : bytes) :
  find_first (str "TOKEN:") (pre ++ str "TOKEN:" ++ token) = Some (length pre) ->
  token_after_marker (pre ++ str "TOKEN:" ++ token) = OK token.
Proof.
  intro H. unfold token_after_marker. rewrite find_0, H.
  replace (length pre + 6) with (length (pre ++ str "TOKEN:"))
    by (rewrite length_app; reflexivity).
  rewrite app_assoc. apply substr_from_app.
Qed.

(** "NODE_ID:node-<idx>;TOKEN:<token>", payload of the node and header
    of the request. *)
Lemma token_of_node_payload (idx : Z) (token : bytes) :
  token_after_marker
    (str "NODE_ID:" ++ (NODE_ID_BASE ++ to_string idx) ++ str ";TOKEN:" ++ token)
  = OK token.
Proof.
  set (pre := str "NODE_ID:node-" ++ to_string idx ++ str ";").
  replace (str "NODE_ID:" ++ (NODE_ID_BASE ++ to_string idx)
           ++ str ";TOKEN:" ++ token)
    with (pre ++ str "TOKEN:" ++ token)
    by (unfold pre; cbn; now rewrite <- app_assoc).
  apply token_after_marker_at, find_token_marker.
  unfold pre. rewrite !absent_app, to_string_absent by reflexivity.
  reflexivity.
Qed.

(** "MW_EXPECTS_NODE:node-<idx>;TOKEN:<token>": the T of EXPECTS starts
    no marker. *)
Lemma token_of_mw_payload (idx : Z) (token : bytes) :
  token_after_marker
    (str "MW_EXPECTS_NODE:" ++ (NODE_ID_BASE ++ to_string idx)
     ++ str ";TOKEN:" ++ token)
  = OK token.
Proof.
  set (pre := str "MW_EXPECTS_NODE:node-" ++ to_string idx ++ str ";").
  replace (str "MW_EXPECTS_NODE:" ++ (NODE_ID_BASE ++ to_string idx)
           ++ str ";TOKEN:" ++ token)
    with (pre ++ str "TOKEN:" ++ token)
    by (unfold pre; cbn; now rewrite <- app_assoc).
  apply token_after_marker_at.
  set (tail := str "S_NODE:node-" ++ to_string idx ++ str ";").
  assert (Ht : find_first (str "TOKEN:") (tail ++ str "TOKEN:" ++ token)
               = Some (length tail)).
  { apply find_token_marker. unfold tail.
    rewrite !absent_app, to_string_absent by reflexivity. reflexivity. }
  replace (pre ++ str "TOKEN:" ++ token)
    with (str "MW_EXPECT" ++ tail ++ str "TOKEN:" ++ token)
    by (unfold pre, tail; cbn; now rewrite <- !app_assoc).
  replace (length pre) with (9 + length tail)
    by (unfold pre, tail; rewrite !length_app; reflexivity).
  cbn [str list_ascii_of_string app].
  do 9 (rewrite find_first_cons_miss by reflexivity).
  cbn [str list_ascii_of_string app] in Ht. rewrite Ht. reflexivity.
Qed.

(* ------------------------------------------------------------------ *)
(** * The request header *)

Lemma validate_header_request (header rest tok ta_token : bytes) :
  absent "]" header = true ->
  token_after_marker header = OK tok ->
  validate_header (str "HEADER[" ++ header ++ str "]" ++ rest) ta_token
  = OK (bytes_eqb tok ta_token).
Proof.
  intros Habs Htok. unfold validate_header.
  assert (H0 : find (str "HEADER[" ++ header ++ str "]" ++ rest)
                    header_marker 0 = Some 0).
  { rewrite find_0. unfold header_marker.
    change (str "HEADER[") with
      ["H"; "E"; "A"; "D"; "E"; "R"; "["]%char.
    cbn [app find_first prefixb]. rewrite !Ascii.eqb_refl. reflexivity. }
  rewrite H0. cbn [Nat.add].
  assert (Hlen : length header_marker = 7) by reflexivity.
  rewrite Hlen.
  assert (H1 : find (str "HEADER[" ++ header ++ str "]" ++ rest) (str "]") 7
               = Some (7 + length header)).
  { unfold find.
    replace (length _ <? 7) with false
      by (symmetry; apply Nat.ltb_ge; rewrite length_app; cbn; lia).
    rewrite (@skipn_app_exact ascii 7 (str "HEADER[") _ eq_refl).
    change (str "]" ++ rest) with ("]"%char :: [] ++ rest).
    change (str "]") with ["]"%char].
    now rewrite find_first_after. }
  rewrite H1.
  rewrite substr_ok by (rewrite length_app; cbn; lia).
  rewrite (@skipn_app_exact ascii 7 (str "HEADER[") _ eq_refl).
  replace (7 + length header - 7) with (length header) by lia.
  rewrite (firstn_app_exact _ _ eq_refl). cbn [bind].
  rewrite Htok. reflexivity.
Qed.

Lemma header_absent_bracket (idx : Z) (tok : bytes) :
  forallb is_hex_digit tok = true ->
  absent "]"
    (str "NODE_ID:" ++ NODE_ID_BASE ++ to_string idx ++ str ";TOKEN:" ++ tok)
  = true.
Proof.
  intro H. rewrite !absent_app, to_string_absent by reflexivity.
  rewrite (@absent_of_class is_hex_digit "]" tok eq_refl H).
  reflexivity.
Qed.

Lemma maybe_tamper_is_hex (cfg : Config) (d : Draws) (tok : bytes) :
  forallb is_hex_digit tok = true ->
  forallb is_hex_digit (maybe_tamper cfg d tok) = true.
Proof.
  intro H. unfold maybe_tamper.
  destruct (Qltb _ _); [apply genTokenHex_is_hex|exact H].
Qed.

(* ------------------------------------------------------------------ *)
(** * What one iteration records *)

Lemma keys_valid :
  valid_key_length (length KEY_TA_NODE) = true
  /\ valid_key_length (length KEY_NODE_MW) = true
  /\ valid_key_length (length KEY_TA_MW) = true.
Proof. repeat split. Qed.

(** A node that draws a drop is recorded as dropped, without success. *)
Lemma node_iteration_dropped (cfg : Config) (idx : Z) (d : Draws) :
  Qltb (fail_draw d) (fail_percent cfg / 100) = true ->
  node_iteration cfg idx d
  = OK {| node_index := idx; total_us := elapsed_us d;
          success := false; dropped := true |}.
Proof. intro H. unfold node_iteration. now rewrite H. Qed.

(** A node that is not dropped completes the protocol, unless its
    payload cannot be built; its success is the comparison of the
    (possibly tampered) token with the token the TA issued. *)
Lemma node_iteration_completed (cfg : Config) (idx : Z) (d : Draws) :
  Qltb (fail_draw d) (fail_percent cfg / 100) = false ->
  (0 <= payload_bytes cfg)%Z ->
  let token := genTokenHex (token_rng d) 16 in
  node_iteration cfg idx d
  = OK {| node_index := idx; total_us := elapsed_us d;
          success := bytes_eqb (maybe_tamper cfg d token) token;
          dropped := false |}.
Proof.
  intros Hfail Hpay token. destruct keys_valid as (K1 & K2 & K3).
  unfold node_iteration. rewrite Hfail.
  unfold TA_issue_tokens_for_node. fold token.
  destruct (aes_roundtrip KEY_TA_NODE (node_rng d)
              (str "NODE_ID:" ++ (NODE_ID_BASE ++ to_string idx)
               ++ str ";TOKEN:" ++ token) K1) as (w1 & E1 & D1).
  destruct (aes_roundtrip KEY_TA_MW (mw_rng d)
              (str "MW_EXPECTS_NODE:" ++ (NODE_ID_BASE ++ to_string idx)
               ++ str ";TOKEN:" ++ token) K3) as (w2 & E2 & D2).
  rewrite E1, E2. cbn [bind enc_for_node enc_for_mw].
  rewrite D1. cbn [bind]. rewrite token_of_node_payload. cbn [bind].
  set (tok := maybe_tamper cfg d token).
  assert (Htok : forallb is_hex_digit tok = true)
    by apply maybe_tamper_is_hex, genTokenHex_is_hex.
  unfold build_request, string_fill.
  destruct (Z.ltb_spec (payload_bytes cfg) 0) as [|_]; [lia|]. cbn [bind].
  set (payload := repeat _ _).
  set (header := str "NODE_ID:" ++ NODE_ID_BASE ++ to_string idx
                 ++ str ";TOKEN:" ++ tok).
  destruct (aes_roundtrip KEY_NODE_MW (request_rng d)
              (str "HEADER[" ++ header ++ str "]|BODY[" ++ payload ++ str "]")
              K2) as (w3 & E3 & D3).
  rewrite E3. cbn [bind]. unfold mw_validate.
  rewrite D2. cbn [bind]. rewrite token_of_mw_payload. cbn [bind].
  rewrite D3. cbn [bind].
  change (str "]|BODY[" ++ payload ++ str "]")
    with (str "]" ++ (str "|BODY[" ++ payload ++ str "]")).
  rewrite (@validate_header_request header _ tok token).
  - reflexivity.
  - apply header_absent_bracket, Htok.
  - unfold header. rewrite app_assoc.
    rewrite <- (app_assoc (str "NODE_ID:")). apply token_of_node_payload.
Qed.

Lemma node_iteration_bad_payload (cfg : Config) (idx : Z) (d : Draws) :
  Qltb (fail_draw d) (fail_percent cfg / 100) = false ->
  (payload_bytes cfg < 0)%Z ->
  node_iteration cfg idx d = Throw LengthError.
Proof.
  intros Hfail Hpay. destruct keys_valid as (K1 & K2 & K3).
  unfold node_iteration. rewrite Hfail.
  unfold TA_issue_tokens_for_node.
  destruct (aes_roundtrip KEY_TA_NODE (node_rng d)
              (str "NODE_ID:" ++ (NODE_ID_BASE ++ to_string idx)
               ++ str ";TOKEN:" ++ genTokenHex (token_rng d) 16) K1)
    as (w1 & E1 & D1).
  destruct (aes_roundtrip KEY_TA_MW (mw_rng d)
              (str "MW_EXPECTS_NODE:" ++ (NODE_ID_BASE ++ to_string idx)
               ++ str ";TOKEN:" ++ genTokenHex (token_rng d) 16) K3)
    as (w2 & E2 & D2).
  rewrite E1, E2. cbn [bind enc_for_node enc_for_mw].
  rewrite D1. cbn [bind]. rewrite token_of_node_payload. cbn [bind].
  unfold build_request, string_fill.
  destruct (Z.ltb_spec (payload_bytes cfg) 0) as [_|]; [|lia]. reflexivity.
Qed.

(** Draws against a zero percentage never trigger. *)
Lemma Qltb_zero_percent (x p : Q) :
  (0 <= x)%Q -> (p == 0)%Q -> Qltb x (p / 100) = false.
Proof.
  intros Hx Hp. unfold Qltb. apply negb_false_iff, Qle_bool_iff.
  rewrite Hp. now setoid_replace (0 / 100)%Q with 0%Q by reflexivity.
Qed.

(** A tampered token (16 hex characters) never equals the issued one
    (32 hex characters). *)
Lemma tampered_token_differs (cfg : Config) (d : Draws) :
  Qltb (tamper_draw d) (tamper_percent cfg / 100) = true ->
  let token := genTokenHex (token_rng d) 16 in
  bytes_eqb (maybe_tamper cfg d token) token = false.
Proof.
  intros H token. unfold maybe_tamper. rewrite H.
  destruct (bytes_eqb _ _) eqn:E; [|reflexivity].
  apply bytes_eqb_eq in E. apply (f_equal (@length _)) in E.
  unfold token in E. rewrite !genTokenHex_length in E. discriminate.
Qed.

(* ------------------------------------------------------------------ *)
(** * Sorting and the median *)

Lemma insert_sorted_perm (x : Z) (l : list Z) :
  Permutation (x :: l) (insert_sorted x l).
Proof.
  induction l as [|y l IH]; cbn; [reflexivity|].
  destruct (x <=? y)%Z; [reflexivity|].
  rewrite perm_swap. now constructor.
Qed.

Lemma sort_perm (l : list Z) : Permutation l (sort l).
Proof.
  induction l as [|x l IH]; cbn; [constructor|].
  rewrite <- insert_sorted_perm. now constructor.
Qed.

Lemma sort_length (l : list Z) : length (sort l) = length l.
Proof. symmetry. apply Permutation_length, sort_perm. Qed.

Lemma insert_sorted_sorted (x : Z) (l : list Z) :
  Sorted Z.le l -> Sorted Z.le (insert_sorted x l).
Proof.
  induction l as [|y l IH]; intro H; cbn.
  - repeat constructor.
  - destruct (Z.leb_spec x y) as [Hxy|Hxy].
    + constructor; [exact H|]. now constructor.
    + inversion H as [|? ? Hs Hh]; subst. constructor; [now apply IH|].
      destruct l as [|z l]; cbn.
      * constructor. lia.
      * destruct (Z.leb_spec x z); constructor; try lia.
        now inversion Hh.
Qed.

Lemma sort_sorted (l : list Z) : Sorted Z.le (sort l).
Proof.
  induction l as [|x l IH]; cbn; [constructor|].
  now apply insert_sorted_sorted.
Qed.

(** An ascending arrangement of a list is unique: [sort] is what
    [std::sort] leaves in the vector. *)
Lemma sorted_perm_unique (a b : list Z) :
  Sorted Z.le a -> Sorted Z.le b -> Permutation a b -> a = b.
Proof.
  intros Ha Hb. apply Sorted_StronglySorted in Ha; [|intros x y z; lia].
  apply Sorted_StronglySorted in Hb; [|intros x y z; lia].
  revert b Hb; induction Ha as [|x a Ha IH Hx]; intros b Hb Hp.
  - now apply Permutation_nil in Hp.
  - destruct Hb as [|y b Hb Hy].
    + symmetry in Hp. now apply Permutation_nil in Hp.
    + assert (x = y).
      { assert (In x (y :: b)) as [->|Hin]
          by (eapply Permutation_in; [exact Hp|now left]); [reflexivity|].
        assert (In y (x :: a)) as [->|Hin']
          by (eapply Permutation_in; [symmetry; exact Hp|now left]);
          [reflexivity|].
        rewrite Forall_forall in Hx, Hy.
        specialize (Hx _ Hin'). specialize (Hy _ Hin). lia. }
      subst y. f_equal. apply IH; [exact Hb|].
      now apply Permutation_cons_inv in Hp.
Qed.

Lemma sort_unique (v s : list Z) :
  Permutation v s -> Sorted Z.le s -> sort v = s.
Proof.
  intros Hp Hs. apply sorted_perm_unique; [apply sort_sorted|exact Hs|].
  now rewrite <- sort_perm.
Qed.

Lemma wrap64_representable (x : Z) : representable64 x -> wrap64 x = x.
Proof.
  unfold representable64, wrap64. intro H.
  rewrite Z.mod_small by lia. lia.
Qed.

(* ------------------------------------------------------------------ *)
(** * Aggregation *)

Lemma wrap32_small (x : Z) :
  (INT_MIN <= x <= INT_MAX)%Z -> wrap32 x = x.
Proof.
  unfold wrap32, INT_MIN, INT_MAX. intro H.
  rewrite Z.mod_small by lia. lia.
Qed.

Lemma wrap32_succ (x : Z) : wrap32 (wrap32 x + 1) = wrap32 (x + 1).
Proof.
  unfold wrap32. f_equal.
  replace ((x + 2 ^ 31) mod 2 ^ 32 - 2 ^ 31 + 1 + 2 ^ 31)%Z
    with ((x + 2 ^ 31) mod 2 ^ 32 + 1)%Z by lia.
  replace (x + 1 + 2 ^ 31)%Z with ((x + 2 ^ 31) + 1)%Z by lia.
  rewrite (Z.add_mod (x + 2 ^ 31) 1) by lia.
  rewrite (Z.add_mod ((x + 2 ^ 31) mod 2 ^ 32) 1) by lia.
  now rewrite Z.mod_mod by lia.
Qed.

Lemma completed_totals_cons (m : NodeMetrics) (rs : list NodeMetrics) :
  completed_totals (m :: rs)
  = if dropped m then completed_totals rs
    else total_us m :: completed_totals rs.
Proof. unfold completed_totals. cbn. now destruct (dropped m). Qed.

Lemma count_success_cons (m : NodeMetrics) (rs : list NodeMetrics) :
  count_success (m :: rs)
  = ((if success m then 1 else 0) + count_success rs)%Z.
Proof. unfold count_success. cbn. destruct (success m); cbn [length]; lia. Qed.

Lemma count_dropped_cons (m : NodeMetrics) (rs : list NodeMetrics) :
  count_dropped (m :: rs)
  = ((if dropped m then 1 else 0) + count_dropped rs)%Z.
Proof. unfold count_dropped. cbn. destruct (dropped m); cbn [length]; lia. Qed.

(** The loop computes the totals of the records that are not dropped
    and, modulo 2^32, the two counts. *)
Lemma tally_spec (rs : list NodeMetrics) (totals : list Z) (a b : Z) :
  tally rs totals (wrap32 a) (wrap32 b)
  = (totals ++ completed_totals rs,
     wrap32 (a + count_success rs), wrap32 (b + count_dropped rs)).
Proof.
  revert totals a b; induction rs as [|m rs IH]; intros totals a b.
  - cbn. now rewrite app_nil_r, !Z.add_0_r.
  - cbn [tally].
    rewrite completed_totals_cons, count_success_cons, count_dropped_cons.
    destruct (dropped m), (success m); rewrite ?wrap32_succ, IH;
      rewrite <- ?app_assoc; cbn [app];
      repeat match goal with |- (_, _) = (_, _) => f_equal end;
      try reflexivity; f_equal; lia.
Qed.

Lemma tally_start (rs : list NodeMetrics) :
  tally rs [] 0%Z 0%Z
  = (completed_totals rs, wrap32 (count_success rs),
     wrap32 (count_dropped rs)).
Proof. apply (tally_spec rs [] 0 0). Qed.

Lemma count_success_bound (rs : list NodeMetrics) :
  (0 <= count_success rs <= Z.of_nat (length rs))%Z.
Proof.
  unfold count_success. pose proof (filter_length_le success rs). lia.
Qed.

Lemma count_dropped_bound (rs : list NodeMetrics) :
  (0 <= count_dropped rs <= Z.of_nat (length rs))%Z.
Proof.
  unfold count_dropped. pose proof (filter_length_le dropped rs). lia.
Qed.

Lemma fdiv_nonzero (a : Q) (n : Z) :
  n <> 0%Z -> fdiv a (inject_Z n) = OK (a / inject_Z n)%Q.
Proof.
  intro H. unfold fdiv.
  destruct (Qeq_bool (inject_Z n) 0) eqn:E; [|reflexivity].
  apply Qeq_bool_iff in E. unfold Qeq in E. cbn in E. lia.
Qed.

(** The summary in terms of the totals and the counts. *)
Lemma aggregate_spec (n : Z) (rs : list NodeMetrics) :
  n <> 0%Z \/ rs = [] ->
  exists s,
    aggregate n rs = OK s
    /\ (avg_total s, min_total s, max_total s, med_total s)
       = time_stats (completed_totals rs)
    /\ success_pct s
       = match rs with
         | [] => 0%Q
         | _ => (100 * inject_Z (wrap32 (count_success rs)) / inject_Z n)%Q
         end
    /\ drop_pct s
       = match rs with
         | [] => 0%Q
         | _ => (100 * inject_Z (wrap32 (count_dropped rs)) / inject_Z n)%Q
         end.
Proof.
  intro H. unfold aggregate. rewrite tally_start.
  generalize (completed_totals rs) as totals. intro totals.
  assert (Hfd : forall a, rs <> [] ->
            fdiv a (inject_Z n) = OK (a / inject_Z n)%Q).
  { intros a Hrs. apply fdiv_nonzero. now destruct H. }
  destruct totals as [|x tl]; cbn [bind time_stats].
  - destruct rs as [|m rs]; cbn [bind].
    + eexists; split; [reflexivity|]. now cbn.
    + rewrite !Hfd by discriminate. cbn [bind].
      eexists; split; [reflexivity|]. now cbn.
  - unfold lldiv.
    destruct (Z.eqb_spec (Z.of_nat (length (x :: tl))) 0) as [E|_];
      [cbn [length] in E; lia|]. cbn [bind].
    destruct rs as [|m rs]; cbn [bind].
    + eexists; split; [reflexivity|]. now cbn.
    + rewrite !Hfd by discriminate. cbn [bind].
      eexists; split; [reflexivity|]. now cbn.
Qed.

(* ------------------------------------------------------------------ *)
(** * The worker pool: every index once *)

Lemma nth_error_set_nth {A} (l : list A) (w : nat) (t : A) :
  nth_error l w = Some t ->
  exists l1 l2, l = l1 ++ t :: l2
    /\ forall t', set_nth w t' l = l1 ++ t' :: l2.
Proof.
  revert w; induction l as [|x l IH]; intros [|w] H; try discriminate.
  - injection H as ->. now exists [], l.
  - destruct (IH _ H) as (l1 & l2 & -> & Hs).
    exists (x :: l1), l2. split; [reflexivity|].
    intro t'. cbn. now rewrite Hs.
Qed.

Lemma claimed_app (a b : list thread) : claimed (a ++ b) = claimed a ++ claimed b.
Proof. apply flat_map_app. Qed.

Lemma exited_count_app (a b : list thread) :
  exited_count (a ++ b) = (exited_count a + exited_count b)%Z.
Proof. unfold exited_count. rewrite filter_app, length_app. lia. Qed.

Lemma exited_count_bound (a : list thread) :
  (0 <= exited_count a <= Z.of_nat (length a))%Z.
Proof.
  unfold exited_count. pose proof (filter_length_le is_exited a). lia.
Qed.

Lemma exited_count_all (a : list thread) :
  forallb is_exited a = true -> exited_count a = Z.of_nat (length a)
                                /\ claimed a = [].
Proof.
  unfold exited_count. induction a as [|t a IH]; [now split|].
  cbn [forallb]. intro H. apply andb_true_iff in H as [Ht H].
  destruct t; try discriminate. destruct (IH H) as [E C].
  cbn [filter is_exited length claimed flat_map app]. split; [lia|exact C].
Qed.

Lemma indices_succ (k : Z) : (0 <= k)%Z -> indices (k + 1) = indices k ++ [k].
Proof.
  intro H. unfold indices.
  replace (Z.to_nat (k + 1)) with (Z.to_nat k + 1) by lia.
  rewrite seq_app, map_app. cbn. f_equal. f_equal. lia.
Qed.

Lemma indices_length (n : Z) : length (indices n) = Z.to_nat n.
Proof. unfold indices. now rewrite length_map, length_seq. Qed.

Lemma indices_NoDup (n : Z) : NoDup (indices n).
Proof.
  unfold indices. apply Finite.Injective_map_NoDup; [|apply seq_NoDup].
  intros a b. lia.
Qed.

Lemma indices_In (n i : Z) : In i (indices n) <-> (0 <= i < n)%Z.
Proof.
  unfold indices. rewrite in_map_iff. split.
  - intros (j & <- & Hj). apply in_seq in Hj. lia.
  - intro H. exists (Z.to_nat i). split; [lia|]. apply in_seq. lia.
Qed.

(** The record an iteration pushes carries the index it claimed, and
    a dropped one carries no success. *)
Lemma node_iteration_record (cfg : Config) (idx : Z) (d : Draws)
    (m : NodeMetrics) :
  node_iteration cfg idx d = OK m ->
  node_index m = idx /\ total_us m = elapsed_us d
  /\ (dropped m = true -> success m = false).
Proof.
  unfold node_iteration. intro H.
  destruct (Qltb _ _); [injection H as <-; now cbn|].
  repeat match type of H with
  | bind ?r _ = OK _ =>
      let x := fresh "x" in
      destruct r as [x|] eqn:?; cbn [bind] in H; [|discriminate]
  end.
  injection H as <-. cbn. repeat split. discriminate.
Qed.

Lemma fresh_threads (n : nat) :
  exited_count (repeat AtLoop n) = 0%Z /\ claimed (repeat AtLoop n) = [].
Proof.
  unfold exited_count. induction n as [|n [IH1 IH2]]; [now split|].
  cbn. now split.
Qed.

Lemma pool_inv_init (cfg : Config) :
  (0 <= nodes cfg)%Z -> pool_inv cfg (init_pool cfg).
Proof.
  intro H. exists 0%Z. cbn [init_pool counter results threads].
  destruct (fresh_threads (Z.to_nat (pool_size cfg))) as [-> ->].
  rewrite Z.min_l by lia. repeat split; try reflexivity.
  apply repeat_length.
Qed.

Lemma pool_inv_step (cfg : Config) (p q : Pool) :
  (0 <= nodes cfg)%Z -> counter_in_range cfg ->
  pool_inv cfg p -> step cfg p q -> pool_inv cfg q.
Proof.
  intros HN Hrange (k & Hk & Hc & Hke & Hperm & Hlen) Hstep.
  unfold counter_in_range in Hrange.
  destruct Hstep as [w p Hcr Hw | w p idx d m Hcr Hw Hd Hm | w p idx d e Hcr Hw Hd He].
  - (* claim *)
    destruct (nth_error_set_nth _ _ Hw) as (l1 & l2 & Hl & Hset).
    rewrite Hl in Hke, Hperm, Hlen.
    rewrite exited_count_app in Hke. rewrite claimed_app in Hperm.
    change (AtLoop :: l2) with ([AtLoop] ++ l2) in Hke, Hperm.
    rewrite exited_count_app in Hke. rewrite claimed_app in Hperm.
    cbn [claimed flat_map app] in Hperm.
    change (exited_count [AtLoop]) with 0%Z in Hke.
    pose proof (exited_count_bound l1). pose proof (exited_count_bound l2).
    rewrite length_app in Hlen. cbn [length] in Hlen.
    assert (Hsmall : (k <= INT_MAX)%Z) by (unfold INT_MAX; lia).
    assert (Hck : counter p = k)
      by (rewrite Hc; apply wrap32_small; unfold INT_MIN, INT_MAX in *; lia).
    exists (k + 1)%Z. unfold claim. cbn [counter results threads].
    rewrite Hset, Hck. rewrite exited_count_app, claimed_app.
    destruct (Z.geb_spec k (nodes cfg)) as [Hge|Hlt].
    + change (Exited :: l2) with ([Exited] ++ l2).
      rewrite exited_count_app, claimed_app.
      change (exited_count [Exited]) with 1%Z.
      cbn [claimed flat_map app].
      rewrite Z.min_r in * by lia.
      repeat split; try lia; try assumption.
      rewrite length_app. cbn [length]. lia.
    + change (Working k :: l2) with ([Working k] ++ l2).
      rewrite exited_count_app, claimed_app.
      change (exited_count [Working k]) with 0%Z.
      cbn [claimed flat_map app].
      rewrite Z.min_l in Hke, Hperm by lia.
      rewrite Z.min_l by lia.
      repeat split; try lia.
      * rewrite indices_succ by lia.
        rewrite (app_assoc _ (claimed l1)).
        rewrite <- Permutation_middle, <- Permutation_cons_append.
        constructor. now rewrite <- app_assoc.
      * rewrite length_app. cbn [length]. lia.
  - (* push *)
    destruct (nth_error_set_nth _ _ Hw) as (l1 & l2 & Hl & Hset).
    destruct (node_iteration_record _ _ _ Hm) as (Hidx & _).
    exists k. unfold push. cbn [counter results threads].
    rewrite Hset. rewrite Hl in Hke, Hperm, Hlen.
    rewrite exited_count_app in *. rewrite claimed_app in *.
    change (Working idx :: l2) with ([Working idx] ++ l2) in Hke, Hperm.
    change (AtLoop :: l2) with ([AtLoop] ++ l2).
    rewrite exited_count_app in *. rewrite claimed_app in *.
    change (exited_count [Working idx]) with 0%Z in Hke.
    change (exited_count [AtLoop]) with 0%Z.
    cbn [claimed flat_map app] in *.
    repeat split; try assumption.
    + rewrite <- Hperm, map_app. cbn [map]. rewrite Hidx.
      rewrite <- !app_assoc. apply Permutation_app_head. cbn [app].
      rewrite (Permutation_middle (claimed l1)). reflexivity.
    + rewrite length_app in *. exact Hlen.
  - (* an exception leaves the thread *)
    exists k. unfold crash. cbn [counter results threads].
    now repeat split.
Qed.

Lemma pool_inv_steps (cfg : Config) (p q : Pool) :
  (0 <= nodes cfg)%Z -> counter_in_range cfg ->
  pool_inv cfg p -> steps cfg p q -> pool_inv cfg q.
Proof.
  intros HN Hr Hp Hs. induction Hs as [|p q r Hpq _ IH]; [exact Hp|].
  apply IH. now apply (pool_inv_step HN Hr Hp).
Qed.

(** Once every thread is joined, the records carry a rearrangement of
    the indices 0 .. nodes - 1. *)
Lemma completed_run_indices (cfg : Config) (p : Pool) :
  counts_in_range cfg -> counter_in_range cfg ->
  completed_run cfg p ->
  Permutation (map node_index (results p)) (indices (nodes cfg)).
Proof.
  intros (HN & HW) Hr (Hsteps & Hcr & Hall).
  assert (Hinv : pool_inv cfg p).
  { apply (pool_inv_steps (p := init_pool cfg)); try assumption; [lia|].
    apply pool_inv_init. lia. }
  destruct Hinv as (k & Hk & Hc & Hke & Hperm & Hlen).
  destruct (exited_count_all _ Hall) as [He Hcl].
  rewrite Hcl, app_nil_r in Hperm. rewrite He, Hlen in Hke.
  assert (1 <= pool_size cfg)%Z by (unfold pool_size; lia).
  rewrite Z.min_r in Hperm by lia. exact Hperm.
Qed.

(* ------------------------------------------------------------------ *)
(** * Runs of the pool *)

Lemma steps_trans (cfg : Config) (p q r : Pool) :
  steps cfg p q -> steps cfg q r -> steps cfg p r.
Proof.
  intros Hpq Hqr. induction Hpq as [|p q' q Hs _ IH]; [exact Hqr|].
  eapply steps_cons; [exact Hs|]. now apply IH.
Qed.

Lemma steps_one (cfg : Config) (p q : Pool) : step cfg p q -> steps cfg p q.
Proof. intro H. eapply steps_cons; [exact H|apply steps_refl]. Qed.

(** What a schedule computes is a run. *)
Lemma run_schedule_steps (cfg : Config) (sched : list (nat * Draws)) (p : Pool) :
  valid_schedule sched -> steps cfg p (run_schedule cfg sched p).
Proof.
  unfold valid_schedule.
  revert p; induction sched as [|[w d] sched IH]; intros p Hv;
    [apply steps_refl|].
  inversion Hv as [|? ? Hd Hv']; subst. cbn [snd] in Hd.
  cbn [run_schedule].
  destruct (crashed p) eqn:Hc; [apply steps_refl|].
  destruct (nth_error (threads p) w) as [[|idx|]|] eqn:Hw;
    try apply steps_refl.
  - eapply steps_cons; [exact (@step_claim cfg w p Hc Hw)|]. now apply IH.
  - destruct (node_iteration cfg idx d) as [m|e] eqn:Hm.
    + eapply steps_cons; [exact (@step_push cfg w p idx d m Hc Hw Hd Hm)|].
      now apply IH.
    + apply steps_one. exact (@step_throw cfg w p idx d e Hc Hw Hd Hm).
Qed.

Lemma set_nth_restore {A} (l : list A) (w : nat) (t t' : A) :
  nth_error l w = Some t -> set_nth w t (set_nth w t' l) = l.
Proof.
  revert w; induction l as [|x l IH]; intros [|w] H; try discriminate; cbn.
  - now injection H as ->.
  - f_equal. now apply IH.
Qed.

Lemma nth_error_set_nth_same {A} (l : list A) (w : nat) (t t' : A) :
  nth_error l w = Some t -> nth_error (set_nth w t' l) w = Some t'.
Proof.
  revert w; induction l as [|x l IH]; intros [|w] H; try discriminate; cbn.
  - reflexivity.
  - now apply IH.
Qed.

Lemma Zseq_succ (c : Z) (k : nat) : Zseq c (S k) = c :: Zseq (c + 1) k.
Proof.
  unfold Zseq. cbn [seq map]. f_equal; [lia|].
  rewrite <- seq_shift, map_map. apply map_ext. intro i. lia.
Qed.

Lemma Zseq_length (c : Z) (k : nat) : length (Zseq c k) = k.
Proof. unfold Zseq. now rewrite length_map, length_seq. Qed.

(** One thread takes [k] nodes in a row, from the counter value [c]
    on, when each of them can be recorded as [rec] says. *)
Lemma thread_takes_nodes (cfg : Config) (rec : Z -> NodeMetrics) (w : nat)
    (ts : list thread) :
  (forall idx, exists d, valid_draws d /\ node_iteration cfg idx d = OK (rec idx)) ->
  (nodes cfg <= INT_MAX)%Z ->
  nth_error ts w = Some AtLoop ->
  forall (k : nat) (c : Z) (rs : list NodeMetrics),
    (INT_MIN <= c)%Z -> (c + Z.of_nat k <= nodes cfg)%Z ->
    steps cfg
      {| counter := c; results := rs; threads := ts; crashed := None |}
      {| counter := c + Z.of_nat k; results := rs ++ map rec (Zseq c k);
         threads := ts; crashed := None |}.
Proof.
  intros Hrec HN Hw. induction k as [|k IH]; intros c rs Hc Hk.
  - cbn. rewrite Z.add_0_r, app_nil_r. apply steps_refl.
  - destruct (Hrec c) as (d & Hd & Hm).
    set (p0 := {| counter := c; results := rs; threads := ts;
                  crashed := None |}).
    assert (Hclaim : claim cfg w p0
      = {| counter := c + 1; results := rs;
           threads := set_nth w (Working c) ts; crashed := None |}).
    { unfold claim, p0. cbn [counter results threads crashed].
      destruct (Z.geb_spec c (nodes cfg)); [lia|].
      now rewrite wrap32_small by lia. }
    apply steps_cons with (q := claim cfg w p0);
      [apply step_claim; [reflexivity|exact Hw]|].
    rewrite Hclaim.
    match goal with |- steps _ ?p1 _ =>
      apply steps_cons with (q := push w (rec c) p1) end.
    { apply step_push with (idx := c) (d := d);
        [reflexivity| |exact Hd|exact Hm].
      cbn [threads].
      exact (@nth_error_set_nth_same _ ts w AtLoop (Working c) Hw). }
    unfold push. cbn [counter results threads crashed].
    rewrite (@set_nth_restore _ ts w AtLoop (Working c) Hw).
    rewrite Zseq_succ. cbn [map].
    replace (c + Z.of_nat (S k))%Z with (c + 1 + Z.of_nat k)%Z by lia.
    replace (rs ++ rec c :: map rec (Zseq (c + 1) k))
      with ((rs ++ [rec c]) ++ map rec (Zseq (c + 1) k))
      by (now rewrite <- app_assoc).
    apply IH; lia.
Qed.

(** A thread that claims an index at or past [nodes] leaves the loop. *)
Lemma thread_leaves (cfg : Config) (w : nat) (ts : list thread) (c : Z)
    (rs : list NodeMetrics) :
  nth_error ts w = Some AtLoop -> (nodes cfg <= c)%Z ->
  steps cfg
    {| counter := c; results := rs; threads := ts; crashed := None |}
    {| counter := wrap32 (c + 1); results := rs;
       threads := set_nth w Exited ts; crashed := None |}.
Proof.
  intros Hw Hc. apply steps_one.
  set (p0 := {| counter := c; results := rs; threads := ts;
                crashed := None |}).
  replace {| counter := wrap32 (c + 1); results := rs;
             threads := set_nth w Exited ts; crashed := None |}
    with (claim cfg w p0).
  - apply step_claim; [reflexivity|exact Hw].
  - unfold claim, p0. cbn [counter results threads crashed].
    now destruct (Z.geb_spec c (nodes cfg)); [|lia].
Qed.

Lemma dropping_draws_spec (cfg : Config) (idx : Z) :
  Qltb 0 (fail_percent cfg / 100) = true ->
  valid_draws dropping_draws
  /\ node_iteration cfg idx dropping_draws = OK (dropped_record idx).
Proof.
  intro H. split; [now cbn|]. now apply node_iteration_dropped.
Qed.

(* ------------------------------------------------------------------ *)
(** * The claim counter past INT_MAX *)

Lemma wrapping_counts :
  exists k1 k2 : nat,
    Z.of_nat k1 = INT_MAX /\ Z.of_nat k2 = (2 ^ 32 - 1)%Z.
Proof.
  exists (Z.to_nat INT_MAX), (Z.to_nat (2 ^ 32 - 1)).
  split; apply Z2Nat.id; discriminate.
Qed.

(** With [nodes = INT_MAX] and two threads, the thread that leaves the
    loop first moves the counter from [INT_MAX] to [INT_MIN]; the other
    thread then claims [INT_MIN], [INT_MIN + 1], ... as node indices,
    up to [INT_MAX]. *)
Lemma wrapping_run_from (k1 k2 : nat) :
  Z.of_nat k1 = INT_MAX -> Z.of_nat k2 = (2 ^ 32 - 1)%Z ->
  completed_run wrapping_config
    {| counter := INT_MIN;
       results := map dropped_record (Zseq 0 k1)
                  ++ map dropped_record (Zseq INT_MIN k2);
       threads := [Exited; Exited]; crashed := None |}.
Proof.
  intros H1 H2.
  set (cfg := wrapping_config).
  assert (Hrec : forall idx, exists d,
            valid_draws d /\ node_iteration cfg idx d = OK (dropped_record idx)).
  { intro idx. exists dropping_draws. now apply dropping_draws_spec. }
  assert (HN : nodes cfg = INT_MAX) by reflexivity.
  set (r1 := map dropped_record (Zseq 0 k1)).
  set (r2 := map dropped_record (Zseq INT_MIN k2)).
  split; [|now split].
  apply steps_trans with
    (q := {| counter := INT_MAX; results := r1;
             threads := [AtLoop; AtLoop]; crashed := None |}).
  { pose proof (@thread_takes_nodes cfg dropped_record 0 [AtLoop; AtLoop]
                  Hrec ltac:(rewrite HN; reflexivity) eq_refl k1 0%Z []
                  ltac:(discriminate) ltac:(rewrite HN; lia)) as S1.
    rewrite Z.add_0_l, H1 in S1. exact S1. }
  apply steps_trans with
    (q := {| counter := INT_MIN; results := r1;
             threads := [Exited; AtLoop]; crashed := None |}).
  { exact (@thread_leaves cfg 0 [AtLoop; AtLoop] INT_MAX r1 eq_refl
             ltac:(rewrite HN; reflexivity)). }
  apply steps_trans with
    (q := {| counter := INT_MAX; results := r1 ++ r2;
             threads := [Exited; AtLoop]; crashed := None |}).
  { pose proof (@thread_takes_nodes cfg dropped_record 1 [Exited; AtLoop]
                  Hrec ltac:(rewrite HN; reflexivity) eq_refl k2 INT_MIN r1
                  ltac:(reflexivity) ltac:(rewrite HN, H2; discriminate))
      as S3.
    rewrite H2 in S3. exact S3. }
  exact (@thread_leaves cfg 1 [Exited; AtLoop] INT_MAX (r1 ++ r2) eq_refl
           ltac:(rewrite HN; reflexivity)).
Qed.

Lemma wrapping_run :
  exists p,
    completed_run wrapping_config p
    /\ Z.of_nat (length (results p)) = (3 * 2 ^ 31 - 2)%Z
    /\ In INT_MIN (map node_index (results p)).
Proof.
  destruct wrapping_counts as (k1 & k2 & H1 & H2).
  eexists. split; [exact (wrapping_run_from k1 k2 H1 H2)|].
  cbn [results]. split.
  - rewrite length_app, !length_map, !Zseq_length, Nat2Z.inj_add, H1, H2.
    reflexivity.
  - rewrite map_app. apply in_or_app. right.
    destruct k2 as [|k2]; [discriminate H2|].
    rewrite Zseq_succ. now left.
Qed.

(* ------------------------------------------------------------------ *)
(** * What every record of a run satisfies *)

(** A property of what an iteration records holds of every record of
    every run. *)
Lemma records_invariant (cfg : Config) (P : NodeMetrics -> Prop) :
  (forall idx d m, valid_draws d -> node_iteration cfg idx d = OK m -> P m) ->
  forall p q, steps cfg p q -> Forall P (results p) -> Forall P (results q).
Proof.
  intros HP p q Hs. induction Hs as [p|p q r Hpq _ IH]; intro H; [exact H|].
  apply IH. destruct Hpq as [w p _ _|w p idx d m _ _ Hd Hm|w p idx d e _ _ _ _];
    cbn [claim push crash results]; try exact H.
  apply Forall_app. split; [exact H|]. constructor; [|constructor].
  exact (HP idx d m Hd Hm).
Qed.

Lemma run_records (cfg : Config) (P : NodeMetrics -> Prop) (p : Pool) :
  (forall idx d m, valid_draws d -> node_iteration cfg idx d = OK m -> P m) ->
  steps cfg (init_pool cfg) p -> Forall P (results p).
Proof.
  intros HP Hs. apply (records_invariant HP Hs). constructor.
Qed.

(** Without drops and without tampering, an iteration that returns
    records a success. *)
Lemma baseline_record (cfg : Config) (idx : Z) (d : Draws) (m : NodeMetrics) :
  (tamper_percent cfg == 0)%Q -> (fail_percent cfg == 0)%Q ->
  valid_draws d ->
  node_iteration cfg idx d = OK m ->
  dropped m = false /\ success m = true.
Proof.
  intros Ht Hf (Hf0 & _ & Ht0 & _) Hm.
  pose proof (Qltb_zero_percent Hf0 Hf) as Hfail.
  destruct (Z.ltb_spec (payload_bytes cfg) 0) as [Hneg|Hpos].
  - rewrite node_iteration_bad_payload in Hm by assumption. discriminate.
  - rewrite node_iteration_completed in Hm by assumption.
    injection Hm as <-. cbn. split; [reflexivity|].
    unfold maybe_tamper. rewrite (Qltb_zero_percent Ht0 Ht).
    apply bytes_eqb_refl.
Qed.

Lemma filter_all {A} (f : A -> bool) (l : list A) :
  Forall (fun x => f x = true) l -> filter f l = l.
Proof.
  induction 1 as [|x l Hx _ IH]; [reflexivity|]. cbn. now rewrite Hx, IH.
Qed.

Lemma filter_none {A} (f : A -> bool) (l : list A) :
  Forall (fun x => f x = false) l -> filter f l = [].
Proof.
  induction 1 as [|x l Hx _ IH]; [reflexivity|]. cbn. now rewrite Hx.
Qed.

Lemma percent_of_all (n : Z) :
  (0 < n)%Z -> (100 * inject_Z n / inject_Z n == 100)%Q.
Proof.
  intro H. field. intro E. unfold Qeq in E. cbn in E. lia.
Qed.

Lemma percent_of_none (n : Z) : (100 * inject_Z 0 / inject_Z n == 0)%Q.
Proof. unfold Qdiv. now rewrite Qmult_0_r, Qmult_0_l. Qed.

(** The number of records of a completed run. *)
Lemma completed_run_length (cfg : Config) (p : Pool) :
  counts_in_range cfg -> counter_in_range cfg -> completed_run cfg p ->
  Z.of_nat (length (results p)) = nodes cfg.
Proof.
  intros Hc Hr Hrun.
  pose proof (Permutation_length (completed_run_indices Hc Hr Hrun)) as H.
  rewrite length_map, indices_length in H. destruct Hc. lia.
Qed.

(* ------------------------------------------------------------------ *)
(** * Parsing decrypted text never throws *)

Lemma find_bound (s needle : bytes) (pos p : nat) :
  find s needle pos = Some p ->
  pos <= p /\ p + length needle <= length s.
Proof.
  unfold find. destruct (Nat.ltb_spec (length s) pos) as [|Hpos];
    [discriminate|].
  destruct (find_first needle (skipn pos s)) as [q|] eqn:E; [|discriminate].
  intro H. injection H as <-. apply find_first_bound in E.
  rewrite length_skipn in E. lia.
Qed.

Lemma token_after_marker_total (s : bytes) :
  exists t, token_after_marker s = OK t.
Proof.
  unfold token_after_marker.
  destruct (find s (str "TOKEN:") 0) as [p|] eqn:E; [|now exists []].
  apply find_bound in E. cbn [str list_ascii_of_string length] in E.
  rewrite substr_from_ok by lia. eauto.
Qed.

Lemma token_after_marker_none (s : bytes) :
  find s (str "TOKEN:") 0 = None -> token_after_marker s = OK [].
Proof. intro H. unfold token_after_marker. now rewrite H. Qed.

(** The header check returns, and returns [true] only through the
    comparison of the two tokens. *)
Lemma validate_header_cases (req ta_token : bytes) :
  (exists b, validate_header req ta_token = OK b)
  /\ (find req header_marker 0 = None ->
      validate_header req ta_token = OK false)
  /\ (forall hpos, find req header_marker 0 = Some hpos ->
      find req (str "]") (hpos + length header_marker) = None ->
      validate_header req ta_token = OK false)
  /\ (validate_header req ta_token = OK true ->
      exists hpos hend header_str,
        find req header_marker 0 = Some hpos
        /\ find req (str "]") (hpos + length header_marker) = Some hend
        /\ substr req (hpos + length header_marker)
                  (hend - (hpos + length header_marker)) = OK header_str
        /\ token_after_marker header_str = OK ta_token).
Proof.
  unfold validate_header.
  destruct (find req header_marker 0) as [hpos|] eqn:E0.
  2:{ repeat split; eauto; try discriminate. }
  destruct (find req (str "]") (hpos + length header_marker)) as [hend|] eqn:E1.
  2:{ repeat split; eauto; try discriminate. }
  pose proof (find_bound _ _ _ E1) as [Hlo Hhi].
  rewrite substr_ok by lia. cbn [bind].
  destruct (token_after_marker_total
              (firstn (hend - (hpos + length header_marker))
                 (skipn (hpos + length header_marker) req))) as [t Ht].
  rewrite Ht. cbn [bind]. repeat split; eauto; try discriminate.
  - intros hpos' H Hn. injection H as <-. rewrite E1 in Hn. discriminate.
  - intro H. injection H as H. apply bytes_eqb_eq in H. subst t.
    exists hpos, hend. eexists. repeat split; [exact E1| |exact Ht].
    now rewrite substr_ok by lia.
Qed.

(* ------------------------------------------------------------------ *)
(** * Malformed wire strings *)

Lemma fromHex_filter (s : bytes) : fromHex (filter is_hex_digit s) = fromHex s.
Proof. apply hex_decode_filter. Qed.

Lemma aesDecryptHex_no_separator (key wire : bytes) :
  absent ":" wire = true ->
  aesDecryptHex key wire = Throw BadCiphertextFormat.
Proof.
  intro H. unfold aesDecryptHex. rewrite find_0.
  change (str ":") with [":"%char]. now rewrite find_first_none.
Qed.

(** A wire string is cut at its first separator; both parts go through
    the hex decoder, which cannot fail. *)
Lemma aesDecryptHex_parts (key ivhex chex : bytes) :
  absent ":" ivhex = true ->
  aesDecryptHex key (ivhex ++ str ":" ++ chex)
  = decrypt_parts key (fromHex ivhex) (fromHex chex).
Proof.
  intro H. unfold aesDecryptHex, decrypt_parts. rewrite find_0.
  change (str ":") with [":"%char].
  change ([":"%char] ++ chex) with (":"%char :: [] ++ chex).
  rewrite find_first_after by exact H.
  change (":"%char :: [] ++ chex) with ([":"%char] ++ chex).
  rewrite substr_prefix. cbn [bind].
  replace (length ivhex + 1) with (length (ivhex ++ [":"%char]))
    by (rewrite length_app; reflexivity).
  rewrite app_assoc, substr_from_app. reflexivity.
Qed.

(* ------------------------------------------------------------------ *)
(** * The command line *)

Section CommandLineFacts.

Variable stod : bytes -> result Q.

(** A value flag with too few arguments left falls through every
    branch to the last one. *)
Lemma parse_one_missing_values (flag : bytes) (k : nat) (rest : list bytes)
    (cfg : Config) :
  In (flag, k) value_flags -> length rest < k ->
  parse_one stod flag rest cfg
  = OK (Return false cfg [str "Unknown arg: " ++ flag]).
Proof.
  intros Hin Hlen. unfold value_flags in Hin. cbn [In] in Hin.
  repeat destruct Hin as [Hin|Hin]; try contradiction;
    injection Hin as <- <-;
    (destruct rest as [|v1 [|v2 rest]]; cbn [length] in Hlen; try lia;
     reflexivity).
Qed.

(** An iteration that goes on has used up [argv[i]]. *)
Lemma parse_one_consumes (a : bytes) (rest rest1 : list bytes)
    (cfg cfg1 : Config) :
  parse_one stod a rest cfg = OK (Continue rest1 cfg1) ->
  length rest1 <= length rest.
Proof.
  unfold parse_one. intro H.
  repeat match type of H with
  | (if ?c then _ else _) = _ => destruct c
  end;
  try discriminate;
  destruct rest as [|v1 [|v2 rest]];
  repeat match type of H with
  | bind ?r _ = _ => destruct r; cbn [bind] in H
  end;
  try discriminate; injection H as <- _; cbn [length]; lia.
Qed.

(** Fuel beyond the number of arguments changes nothing. *)
Lemma parse_loop_fuel (n : nat) :
  forall (args : list bytes) (cfg : Config) (fuel fuel' : nat),
    length args <= n -> n <= fuel -> n <= fuel' ->
    parse_loop stod fuel args cfg = parse_loop stod fuel' args cfg.
Proof.
  induction n as [|n IH]; intros args cfg fuel fuel' Hn Hf Hf'.
  - destruct args; [|cbn in Hn; lia]. now destruct fuel, fuel'.
  - destruct args as [|a rest]; [now destruct fuel, fuel'|].
    destruct fuel as [|fuel]; [lia|]. destruct fuel' as [|fuel']; [lia|].
    cbn [parse_loop].
    destruct (parse_one stod a rest cfg) as [[rest1 cfg1|ok cfg1 err]|e] eqn:E;
      cbn [bind]; try reflexivity.
    apply parse_one_consumes in E. cbn [length] in Hn. apply IH; lia.
Qed.

Lemma reaches_parse_loop (args args' : list bytes) (cfg cfg' : Config) :
  reaches stod args cfg args' cfg' ->
  forall fuel, length args <= fuel ->
  parse_loop stod fuel args cfg = parse_loop stod (length args') args' cfg'.
Proof.
  induction 1 as [args cfg|a rest rest1 cfg cfg1 args' cfg' Hone _ IH];
    intros fuel Hfuel.
  - now apply (parse_loop_fuel (n := length args)).
  - destruct fuel as [|fuel]; [cbn in Hfuel; lia|]. cbn [parse_loop].
    rewrite Hone. cbn [bind]. apply IH.
    apply parse_one_consumes in Hone. cbn [length] in Hfuel. lia.
Qed.

(** When the loop comes to a value flag with too few arguments left,
    [parse_args] returns [false] and [main] prints the usage text and
    returns 1. *)
Lemma parse_args_missing_values (argv : list bytes) (flag : bytes) (k : nat)
    (rest : list bytes) (cfg' : Config) :
  In (flag, k) value_flags -> length rest < k ->
  reaches stod (tl argv) default_config (flag :: rest) cfg' ->
  parse_args stod argv default_config
  = OK (false, cfg', [str "Unknown arg: " ++ flag]).
Proof.
  intros Hin Hlen Hr. unfold parse_args.
  rewrite (reaches_parse_loop Hr) by (destruct argv; cbn; lia).
  cbn [length parse_loop].
  now rewrite (parse_one_missing_values _ cfg' Hin Hlen).
Qed.

End CommandLineFacts.



(* ------------------------------------------------------------------ *)
(** * Further facts used below *)

Lemma absent_filter (x : ascii) (f : ascii -> bool) (s : bytes) :
  absent x s = true -> absent x (filter f s) = true.
Proof.
  unfold absent. induction s as [|c s IH]; [reflexivity|]. cbn [forallb filter].
  intro H. apply andb_true_iff in H as [Hc H].
  destruct (f c); cbn [forallb]; rewrite ?Hc; now apply IH.
Qed.

Lemma completed_totals_filter (rs : list NodeMetrics) :
  completed_totals (filter (fun m => negb (dropped m)) rs) = completed_totals rs.
Proof.
  unfold completed_totals. f_equal.
  induction rs as [|m rs IH]; [reflexivity|]. cbn [filter].
  destruct (negb (dropped m)) eqn:E; cbn [filter]; rewrite ?E; now rewrite IH.
Qed.

(** Were [Config.nodes] zero with records present, the percentages
    would not be finite. *)
Lemma aggregate_zero_nodes (rs : list NodeMetrics) :
  rs <> [] -> aggregate 0 rs = Throw DivideByZero.
Proof.
  intro H. unfold aggregate. rewrite tally_start.
  destruct (completed_totals rs) as [|x tl].
  - cbn [bind]. destruct rs; [contradiction|]. reflexivity.
  - unfold lldiv.
    destruct (Z.eqb_spec (Z.of_nat (length (x :: tl))) 0) as [E|_];
      [cbn [length] in E; lia|]. cbn [bind].
    destruct rs; [contradiction|]. reflexivity.
Qed.

Lemma aggregate_ok_inv (n : Z) (rs : list NodeMetrics) (s : RunSummary) :
  aggregate n rs = OK s -> n <> 0%Z \/ rs = [].
Proof.
  intro H. destruct (Z.eq_dec n 0) as [->|Hn]; [|now left].
  destruct rs as [|m rs]; [now right|].
  rewrite aggregate_zero_nodes in H by discriminate. discriminate.
Qed.

Lemma aggregate_time_stats (n : Z) (rs : list NodeMetrics) (s : RunSummary) :
  aggregate n rs = OK s ->
  (avg_total s, min_total s, max_total s, med_total s)
  = time_stats (completed_totals rs).
Proof.
  intro H.
  destruct (@aggregate_spec n rs (@aggregate_ok_inv n rs s H))
    as (s' & E & Hs & _).
  rewrite E in H. now injection H as <-.
Qed.

Lemma valid_sample_draws : valid_draws sample_draws.
Proof. unfold valid_draws, Qle, Qlt. cbn. lia. Qed.

Lemma demo_run_completed : completed_run small_config demo_run.
Proof.
  split.
  - apply run_schedule_steps. unfold valid_schedule, demo_schedule.
    cbn [map]. repeat constructor; apply valid_sample_draws.
  - split; vm_compute; reflexivity.
Qed.

Lemma small_config_in_range :
  counts_in_range small_config /\ counter_in_range small_config.
Proof.
  unfold counts_in_range, counter_in_range, INT_MAX. cbn. lia.
Qed.

(* ------------------------------------------------------------------ *)
(** * A run that completes *)





(* ------------------------------------------------------------------ *)
(** * Runs whose records all agree *)

Lemma Qltb_full_percent (x p : Q) :
  (x < 1)%Q -> (p == 100)%Q -> Qltb x (p / 100) = true.
Proof.
  intros Hx Hp. unfold Qltb. apply negb_true_iff.
  destruct (Qle_bool (p / 100) x) eqn:E; [|reflexivity].
  apply Qle_bool_iff in E. rewrite Hp in E.
  setoid_replace (100 / 100)%Q with 1%Q in E by reflexivity.
  exfalso. exact (Qlt_not_le _ _ Hx E).
Qed.

(** The percentages of a completed run whose records all carry the
    same two flags. *)
Lemma uniform_run_summary (cfg : Config) (p : Pool) (bs bd : bool) :
  counts_in_range cfg -> counter_in_range cfg -> completed_run cfg p ->
  Forall (fun m => success m = bs /\ dropped m = bd) (results p) ->
  exists s,
    aggregate (nodes cfg) (results p) = OK s
    /\ (success_pct s == if bs then 100 else 0)%Q
    /\ (drop_pct s == if bd then 100 else 0)%Q
    /\ (bd = true ->
        (avg_total s, min_total s, max_total s, med_total s) = (0, 0, 0, 0)%Z).
Proof.
  intros Hc Hr Hrun Hall.
  pose proof (@completed_run_length cfg p Hc Hr Hrun) as Hlen.
  destruct Hc as [[HN0 HN1] _].
  assert (Hs : count_success (results p) = if bs then nodes cfg else 0%Z).
  { unfold count_success. destruct bs.
    - rewrite filter_all; [exact Hlen|].
      eapply Forall_impl; [|exact Hall]. now intros m [H _].
    - rewrite filter_none; [reflexivity|].
      eapply Forall_impl; [|exact Hall]. now intros m [H _]. }
  assert (Hd : count_dropped (results p) = if bd then nodes cfg else 0%Z).
  { unfold count_dropped. destruct bd.
    - rewrite filter_all; [exact Hlen|].
      eapply Forall_impl; [|exact Hall]. now intros m [_ H].
    - rewrite filter_none; [reflexivity|].
      eapply Forall_impl; [|exact Hall]. now intros m [_ H]. }
  destruct (@aggregate_spec (nodes cfg) (results p)) as (s & E & Et & Es & Ed);
    [left; lia|].
  exists s. split; [exact E|].
  assert (Hne : results p <> []) by (intro H0; rewrite H0 in Hlen; cbn in Hlen; lia).
  destruct (results p) as [|m rs] eqn:Er; [contradiction|].
  rewrite Es, Ed, Hs, Hd. repeat split.
  - destruct bs; rewrite wrap32_small by (unfold INT_MIN, INT_MAX in *; lia);
      [now apply percent_of_all|apply percent_of_none].
  - destruct bd; rewrite wrap32_small by (unfold INT_MIN, INT_MAX in *; lia);
      [now apply percent_of_all|apply percent_of_none].
  - intros ->. rewrite Et. unfold completed_totals.
    rewrite filter_none; [reflexivity|].
    eapply Forall_impl; [|exact Hall]. intros x [_ H]. now rewrite H.
Qed.

Lemma variant_runs_completed :
  completed_run tamper_config tamper_run /\ completed_run drop_config drop_run.
Proof.
  assert (Hv : valid_schedule demo_schedule).
  { unfold valid_schedule, demo_schedule. cbn [map].
    repeat constructor; apply valid_sample_draws. }
  split; (split; [now apply run_schedule_steps|split; vm_compute; reflexivity]).
Qed.

Lemma variant_configs_in_range :
  (counts_in_range tamper_config /\ counter_in_range tamper_config)
  /\ (counts_in_range drop_config /\ counter_in_range drop_config).
Proof.
  unfold counts_in_range, counter_in_range.
  repeat split; (reflexivity || discriminate).
Qed.

(* ================================================================== *)
(** * The claims *)

(** C2 (round trip).  For every AES key (a key of 16, 24 or 32 bytes,
    the lengths [SetKeyWithIV] accepts), every entropy of the IV and
    every plaintext string, [aesEncryptHex] returns a wire string, and
    [aesDecryptHex] under the same key returns the plaintext from it. *)
Theorem aes_round_trip (key : bytes) (rng : RandomPool) (plain : bytes) :
  valid_key_length (length key) = true ->
  exists wire,
    aesEncryptHex key rng plain = OK wire
    /\ aesDecryptHex key wire = OK plain.
Proof.
  intro Hkey.
  assert (Hset : SetKey key = OK (KeyExpansion key))
    by (unfold SetKey; now rewrite Hkey).
  exists (toHex (GenerateBlock rng BLOCKSIZE) ++ str ":"
          ++ toHex (cbc_encrypt (KeyExpansion key)
                      (GenerateBlock rng BLOCKSIZE) plain)).
  split.
  - unfold aesEncryptHex. now rewrite Hset.
  - rewrite (@aesDecryptHex_wire key _ _ (KeyExpansion key) Hset)
      by apply GenerateBlock_length.
    apply cbc_decrypt_encrypt.
Qed.

Lemma aes_round_trip_witness :
  exists wire,
    aesEncryptHex test_key test_pool (str "hello world") = OK wire
    /\ aesDecryptHex test_key wire = OK (str "hello world").
Proof.
  apply (aes_round_trip test_key test_pool (str "hello world")).
  reflexivity.
Defined.

(** C3 (no-tamper baseline).  With [tamper_percent = 0] and
    [fail_percent = 0]: an iteration whose payload can be built records
    a node that is not dropped and whose submitted token equals the
    expected one ([success = true]); every record of every run is such
    a record; and a completed run, whose counter stays in range,
    reports a success percentage of 100 and a drop percentage of 0. *)
Theorem no_tamper_baseline (cfg : Config) :
  (tamper_percent cfg == 0)%Q -> (fail_percent cfg == 0)%Q ->
  (forall idx d, valid_draws d -> (0 <= payload_bytes cfg)%Z ->
     node_iteration cfg idx d
     = OK {| node_index := idx; total_us := elapsed_us d;
             success := true; dropped := false |})
  /\ (forall p, steps cfg (init_pool cfg) p ->
        Forall (fun m => dropped m = false /\ success m = true) (results p))
  /\ (forall p, counts_in_range cfg -> counter_in_range cfg ->
        completed_run cfg p ->
        exists s, aggregate (nodes cfg) (results p) = OK s
                  /\ (success_pct s == 100)%Q /\ (drop_pct s == 0)%Q).
Proof.
  intros Ht Hf.
  assert (Hrec : forall idx d m, valid_draws d ->
            node_iteration cfg idx d = OK m ->
            dropped m = false /\ success m = true)
    by (intros idx d m Hd Hm; exact (@baseline_record cfg idx d m Ht Hf Hd Hm)).
  repeat split.
  - intros idx d Hd Hpay. destruct Hd as (Hf0 & _ & Ht0 & _).
    rewrite node_iteration_completed
      by (try apply Qltb_zero_percent; assumption).
    unfold maybe_tamper. rewrite (@Qltb_zero_percent _ _ Ht0 Ht).
    now rewrite bytes_eqb_refl.
  - intros p Hs. exact (@run_records cfg _ p Hrec Hs).
  - intros p Hc Hr Hrun.
    pose proof (@completed_run_length cfg p Hc Hr Hrun) as Hlen.
    pose proof (@run_records cfg _ p Hrec (proj1 Hrun)) as Hall.
    assert (Hs : count_success (results p) = nodes cfg).
    { unfold count_success. rewrite filter_all; [exact Hlen|].
      eapply Forall_impl; [|exact Hall]. now intros m [_ H]. }
    assert (Hd : count_dropped (results p) = 0%Z).
    { unfold count_dropped. rewrite filter_none; [reflexivity|].
      eapply Forall_impl; [|exact Hall]. now intros m [H _]. }
    destruct Hc as [[HN0 HN1] _].
    destruct (@aggregate_spec (nodes cfg) (results p)) as (s & E & _ & Es & Ed);
      [left; lia|].
    exists s. split; [exact E|].
    destruct (results p) as [|m rs]; [cbn in Hlen; lia|].
    rewrite Es, Ed, Hs, Hd.
    rewrite !wrap32_small by (unfold INT_MIN, INT_MAX in *; lia).
    split; [now apply percent_of_all|apply percent_of_none].
Qed.

Lemma no_tamper_baseline_witness :
  node_iteration small_config 2 sample_draws
  = OK {| node_index := 2; total_us := 41250;
          success := true; dropped := false |}
  /\ Forall (fun m => dropped m = false /\ success m = true) (results demo_run)
  /\ exists s, aggregate (nodes small_config) (results demo_run) = OK s
               /\ (success_pct s == 100)%Q /\ (drop_pct s == 0)%Q.
Proof.
  destruct (@no_tamper_baseline small_config) as (H1 & H2 & H3);
    [reflexivity|reflexivity|].
  split; [|split].
  - apply (H1 2%Z sample_draws valid_sample_draws). discriminate.
  - apply H2. exact (proj1 demo_run_completed).
  - apply H3; [exact (proj1 small_config_in_range)
              |exact (proj2 small_config_in_range)
              |exact demo_run_completed].
Defined.

(** C6 (median).  For a list of elapsed times, the median is taken on
    the ascending arrangement [s] of the list: 0 for the empty list,
    the middle element for an odd length, and for an even length the
    sum of the two middle elements divided by two with integer
    division (the sum being a [long long]).  The median of 10, 20, 30
    is 20 and that of 10, 20, 30, 40 is 25. *)
Theorem median_of_vec_correct :
  (forall v s : list Z,
     Permutation v s -> Sorted Z.le s ->
     let n := length v in
     (n = 0 -> median_of_vec v = 0%Z)
     /\ (n mod 2 = 1 -> median_of_vec v = nth (n / 2) s 0%Z)
     /\ (0 < n -> n mod 2 = 0 ->
         representable64 (nth (n / 2 - 1) s 0 + nth (n / 2) s 0)%Z ->
         median_of_vec v
         = Z.quot (nth (n / 2 - 1) s 0 + nth (n / 2) s 0)%Z 2))
  /\ median_of_vec [10; 20; 30]%Z = 20%Z
  /\ median_of_vec [10; 20; 30; 40]%Z = 25%Z.
Proof.
  split; [|split; reflexivity].
  intros v s Hp Hs n. pose proof (@sort_unique v s Hp Hs) as Hsort.
  assert (Hlen : length (sort v) = n) by apply sort_length.
  repeat split.
  - intro H0. destruct v; [reflexivity|discriminate].
  - intro Hodd. destruct v as [|x v]; [discriminate|].
    unfold median_of_vec. rewrite Hlen, Hsort.
    now destruct (Nat.eqb_spec (n mod 2) 1).
  - intros Hpos Heven Hrep. destruct v as [|x v]; [cbn in Hpos; lia|].
    unfold median_of_vec. rewrite Hlen, Hsort.
    destruct (Nat.eqb_spec (n mod 2) 1) as [E|_]; [lia|].
    now rewrite wrap64_representable.
Qed.

Lemma median_of_vec_correct_witness :
  median_of_vec [40; 10; 30; 20]%Z = Z.quot (20 + 30) 2
  /\ median_of_vec [30; 10; 20]%Z = 20%Z.
Proof.
  destruct median_of_vec_correct as [H _].
  assert (Hs4 : Sorted Z.le [10; 20; 30; 40]%Z)
    by (repeat constructor; discriminate).
  assert (Hs3 : Sorted Z.le [10; 20; 30]%Z)
    by (repeat constructor; discriminate).
  assert (Hp4 : Permutation [40; 10; 30; 20]%Z [10; 20; 30; 40]%Z).
  { apply Permutation_trans with (l' := [10; 40; 30; 20]%Z);
      [apply perm_swap|]. apply perm_skip.
    apply Permutation_trans with (l' := [30; 40; 20]%Z);
      [apply perm_swap|].
    apply Permutation_trans with (l' := [30; 20; 40]%Z);
      [apply perm_skip, perm_swap|]. apply perm_swap. }
  assert (Hp3 : Permutation [30; 10; 20]%Z [10; 20; 30]%Z).
  { apply Permutation_trans with (l' := [10; 30; 20]%Z);
      [apply perm_swap|]. apply perm_skip, perm_swap. }
  split.
  - apply (H _ _ Hp4 Hs4); [cbn; lia|reflexivity|].
    unfold representable64. cbn. lia.
  - apply (H _ _ Hp3 Hs3). reflexivity.
Defined.

(** C5 (percentages).  On the empty outcome set every statistic is 0
    and no division takes place.  On any outcome set of at most INT_MAX
    records, with a configured node count that is not zero, the success
    percentage is 100 * count(success) / nodes and the drop percentage
    is 100 * count(dropped) / nodes: the denominator is the configured
    node count, whatever the number of completed records. *)
Theorem aggregate_percentages :
  (forall n, aggregate n [] = OK zero_summary)
  /\ (forall n rs,
        n <> 0%Z -> (Z.of_nat (length rs) <= INT_MAX)%Z ->
        exists s,
          aggregate n rs = OK s
          /\ (success_pct s
              == 100 * inject_Z (count_success rs) / inject_Z n)%Q
          /\ (drop_pct s
              == 100 * inject_Z (count_dropped rs) / inject_Z n)%Q).
Proof.
  split; [reflexivity|].
  intros n rs Hn Hlen.
  destruct (@aggregate_spec n rs (or_introl Hn)) as (s & E & _ & Es & Ed).
  exists s. split; [exact E|].
  pose proof (count_success_bound rs). pose proof (count_dropped_bound rs).
  rewrite Es, Ed. destruct rs as [|m rs].
  - split; symmetry; apply percent_of_none.
  - rewrite !wrap32_small by (unfold INT_MIN, INT_MAX in *; lia).
    split; reflexivity.
Qed.

Lemma aggregate_percentages_witness :
  exists s,
    aggregate 4 sample_records = OK s
    /\ (success_pct s == 100 * inject_Z 1 / inject_Z 4)%Q
    /\ (drop_pct s == 100 * inject_Z 1 / inject_Z 4)%Q.
Proof.
  apply (proj2 aggregate_percentages 4%Z sample_records); discriminate.
Defined.

(** C7 (drop exclusivity).  A record with [dropped = true] has
    [success = false], at every iteration and so in every run; and the
    average, minimum, maximum and median of the summary are those of
    the elapsed times of the records that are not dropped: removing the
    dropped records from the outcome set leaves them unchanged. *)
Theorem drop_exclusivity :
  (forall cfg idx d m,
     node_iteration cfg idx d = OK m ->
     dropped m = true -> success m = false)
  /\ (forall cfg p,
        steps cfg (init_pool cfg) p ->
        Forall (fun m => dropped m = true -> success m = false) (results p))
  /\ (forall n rs s,
        aggregate n rs = OK s ->
        (avg_total s, min_total s, max_total s, med_total s)
        = time_stats (completed_totals rs))
  /\ (forall n rs s s',
        aggregate n rs = OK s ->
        aggregate n (filter (fun m => negb (dropped m)) rs) = OK s' ->
        (avg_total s', min_total s', max_total s', med_total s')
        = (avg_total s, min_total s, max_total s, med_total s)).
Proof.
  assert (Hrec : forall cfg idx d m,
            node_iteration cfg idx d = OK m ->
            dropped m = true -> success m = false).
  { intros cfg idx d m Hm.
    exact (proj2 (proj2 (@node_iteration_record cfg idx d m Hm))). }
  repeat split.
  - exact Hrec.
  - intros cfg p Hs. apply (@run_records cfg _ p); [|exact Hs].
    intros idx d m _ Hm. exact (Hrec cfg idx d m Hm).
  - intros n rs s H. exact (@aggregate_time_stats n rs s H).
  - intros n rs s s' H H'.
    rewrite (@aggregate_time_stats n rs s H).
    rewrite (@aggregate_time_stats n _ s' H').
    now rewrite completed_totals_filter.
Qed.

Lemma drop_exclusivity_witness :
  exists s,
    aggregate 4 sample_records = OK s
    /\ (avg_total s, min_total s, max_total s, med_total s)
       = (20, 10, 30, 20)%Z.
Proof.
  eexists. split; [reflexivity|].
  exact (proj1 (proj2 (proj2 drop_exclusivity)) 4%Z sample_records _ eq_refl).
Defined.

(** C9 (validation defaults to failure).  Parsing decrypted text never
    throws: the token of a payload without "TOKEN:" is the empty
    string; the header check of a request always returns, with [false]
    when the request has no "HEADER[" or no "]" after it, and with
    [true] only when the token of the header equals the expected
    token; and the middleware validation returns whenever its two
    decryptions do. *)
Theorem validation_defaults_to_failure :
  (forall s, exists t, token_after_marker s = OK t)
  /\ (forall s, find s (str "TOKEN:") 0 = None ->
        token_after_marker s = OK [])
  /\ (forall req ta_token, exists b, validate_header req ta_token = OK b)
  /\ (forall req ta_token,
        find req header_marker 0 = None ->
        validate_header req ta_token = OK false)
  /\ (forall req ta_token hpos,
        find req header_marker 0 = Some hpos ->
        find req (str "]") (hpos + length header_marker) = None ->
        validate_header req ta_token = OK false)
  /\ (forall req ta_token,
        validate_header req ta_token = OK true ->
        exists hpos hend header_str,
          find req header_marker 0 = Some hpos
          /\ find req (str "]") (hpos + length header_marker) = Some hend
          /\ substr req (hpos + length header_marker)
                    (hend - (hpos + length header_marker)) = OK header_str
          /\ token_after_marker header_str = OK ta_token)
  /\ (forall enc_mw encrypted_for_mw p1 p2,
        aesDecryptHex KEY_TA_MW enc_mw = OK p1 ->
        aesDecryptHex KEY_NODE_MW encrypted_for_mw = OK p2 ->
        exists b, mw_validate enc_mw encrypted_for_mw = OK b).
Proof.
  repeat split.
  - exact token_after_marker_total.
  - exact token_after_marker_none.
  - intros req ta. exact (proj1 (validate_header_cases req ta)).
  - intros req ta. exact (proj1 (proj2 (validate_header_cases req ta))).
  - intros req ta.
    exact (proj1 (proj2 (proj2 (validate_header_cases req ta)))).
  - intros req ta.
    exact (proj2 (proj2 (proj2 (validate_header_cases req ta)))).
  - intros enc_mw enc p1 p2 H1 H2. unfold mw_validate.
    rewrite H1. cbn [bind].
    destruct (token_after_marker_total p1) as [t ->]. cbn [bind].
    rewrite H2. cbn [bind].
    exact (proj1 (validate_header_cases p2 t)).
Qed.

Lemma validation_defaults_to_failure_witness :
  token_after_marker (str "NODE_ID:node-1;TOKE") = OK []
  /\ validate_header (str "BODY[AAAA]") (str "00ff") = OK false
  /\ validate_header (str "HEADER[NODE_ID:node-1;TOKEN:00ff|BODY[AAAA")
                     (str "00ff") = OK false.
Proof.
  destruct validation_defaults_to_failure as (_ & H2 & _ & H4 & H5 & _).
  split; [|split].
  - apply H2. reflexivity.
  - apply H4. reflexivity.
  - apply (H5 _ _ 0); reflexivity.
Defined.

(** C8, as the code has it.  For every key, [aesDecryptHex] throws the
    "Bad ciphertext format" error on a wire string without separator.
    Hex decoding itself cannot fail: the decoder skips the characters
    that are not hex digits, so a wire string cut at its first
    separator is decrypted from what the digits of its two parts
    decode to, and gives what the wire string without those characters
    gives. *)
Theorem aesDecryptHex_malformed (key : bytes) :
  (forall wire,
     absent ":" wire = true ->
     aesDecryptHex key wire = Throw BadCiphertextFormat)
  /\ (forall ivhex chex,
        absent ":" ivhex = true ->
        aesDecryptHex key (ivhex ++ str ":" ++ chex)
        = decrypt_parts key (fromHex ivhex) (fromHex chex))
  /\ (forall s, fromHex (filter is_hex_digit s) = fromHex s)
  /\ (forall ivhex chex,
        absent ":" ivhex = true ->
        aesDecryptHex key (ivhex ++ str ":" ++ chex)
        = aesDecryptHex key (filter is_hex_digit ivhex ++ str ":"
                             ++ filter is_hex_digit chex)).
Proof.
  repeat split.
  - intros wire H. exact (@aesDecryptHex_no_separator key wire H).
  - intros ivhex chex H. exact (@aesDecryptHex_parts key ivhex chex H).
  - exact fromHex_filter.
  - intros ivhex chex H.
    rewrite !aesDecryptHex_parts by (try apply absent_filter; exact H).
    now rewrite !fromHex_filter.
Qed.

Lemma aesDecryptHex_malformed_witness :
  aesDecryptHex test_key (str "101112131415161718191a1b1c1d1e1f")
  = Throw BadCiphertextFormat
  /\ aesDecryptHex test_key (dirty_iv_hex ++ str ":" ++ dirty_cipher_hex)
     = aesDecryptHex test_key
         (str "101112131415161718191a1b1c1d1e1f:cda122e671f0f91095f426334e422b2b").
Proof.
  destruct (aesDecryptHex_malformed test_key) as (H1 & _ & _ & H4).
  split.
  - apply H1. reflexivity.
  - apply (H4 dirty_iv_hex dirty_cipher_hex). reflexivity.
Defined.

(** C8, as stated, fails: a wire string whose two parts hold
    characters that are not hex digits is decrypted to a value. *)
Lemma aesDecryptHex_accepts_bad_hex :
  forallb is_hex_digit dirty_iv_hex = false
  /\ forallb is_hex_digit dirty_cipher_hex = false
  /\ aesDecryptHex test_key (dirty_iv_hex ++ str ":" ++ dirty_cipher_hex)
     = OK (str "hello world").
Proof. repeat split; vm_compute; reflexivity. Qed.

(** C4, as the code has it.  When the tamper draw triggers, the token
    the node recovered is replaced by the hex text of 8 bytes of a
    fresh random pool: 16 hex characters, where the token the TA
    issued is the hex text of 16 bytes, 32 characters.  The two are
    therefore never equal, and a node that is not dropped records a
    failed validation. *)
Theorem tamper_replaces_token (cfg : Config) (d : Draws)
    (token_extracted : bytes) :
  Qltb (tamper_draw d) (tamper_percent cfg / 100) = true ->
  maybe_tamper cfg d token_extracted = genTokenHex (tamper_rng d) 8
  /\ length (maybe_tamper cfg d token_extracted) = 16
  /\ forallb is_hex_digit (maybe_tamper cfg d token_extracted) = true
  /\ (forall node_id issued,
        TA_issue_tokens_for_node (token_rng d) (node_rng d) (mw_rng d) node_id
        = OK issued ->
        token_plain issued = genTokenHex (token_rng d) 16
        /\ length (token_plain issued) = 32)
  /\ (forall idx,
        Qltb (fail_draw d) (fail_percent cfg / 100) = false ->
        (0 <= payload_bytes cfg)%Z ->
        node_iteration cfg idx d
        = OK {| node_index := idx; total_us := elapsed_us d;
                success := false; dropped := false |}).
Proof.
  intro Ht.
  assert (E : maybe_tamper cfg d token_extracted = genTokenHex (tamper_rng d) 8)
    by (unfold maybe_tamper; now rewrite Ht).
  repeat split.
  - exact E.
  - rewrite E. apply genTokenHex_length.
  - rewrite E. apply genTokenHex_is_hex.
  - unfold TA_issue_tokens_for_node in H.
    repeat match type of H with
    | bind ?r _ = OK _ =>
        destruct r eqn:?; cbn [bind] in H; [|discriminate]
    end.
    now injection H as <-.
  - unfold TA_issue_tokens_for_node in H.
    repeat match type of H with
    | bind ?r _ = OK _ =>
        destruct r eqn:?; cbn [bind] in H; [|discriminate]
    end.
    injection H as <-. cbn [token_plain]. apply genTokenHex_length.
  - intros idx Hf Hp. rewrite node_iteration_completed by assumption.
    now rewrite (@tampered_token_differs cfg d Ht).
Qed.

Lemma tamper_replaces_token_witness :
  length (maybe_tamper tamper_config sample_draws
            (genTokenHex (token_rng sample_draws) 16)) = 16
  /\ node_iteration tamper_config 2 sample_draws
     = OK {| node_index := 2; total_us := 41250;
             success := false; dropped := false |}.
Proof.
  destruct (@tamper_replaces_token tamper_config sample_draws
              (genTokenHex (token_rng sample_draws) 16) eq_refl)
    as (_ & H2 & _ & _ & H5).
  split; [exact H2|]. apply H5; [reflexivity|discriminate].
Defined.

(** C4, as stated, fails: the value that replaces the token has half
    the length of the token the TA issued. *)
Lemma tamper_changes_length :
  Qltb (tamper_draw sample_draws) (tamper_percent tamper_config / 100) = true
  /\ length (maybe_tamper tamper_config sample_draws
               (genTokenHex (token_rng sample_draws) 16)) = 16
  /\ length (genTokenHex (token_rng sample_draws) 16) = 32.
Proof. repeat split. Qed.

Section CommandLineClaim.

Variable stod : bytes -> result Q.

(** C10 (flag without its values).  When the loop of [parse_args]
    comes to a flag that takes values and fewer values than it takes
    are left (as "--nodes" in last position), the iteration ends in the
    "Unknown arg" branch, [parse_args] returns [false], and [main]
    prints the usage text and returns 1, nothing else. *)
Theorem missing_flag_value_is_unknown (argv : list bytes) (flag : bytes)
    (k : nat) (rest : list bytes) (cfg' : Config) :
  In (flag, k) value_flags -> length rest < k ->
  reaches stod (tl argv) default_config (flag :: rest) cfg' ->
  parse_one stod flag rest cfg'
  = OK (Return false cfg' [str "Unknown arg: " ++ flag])
  /\ parse_args stod argv default_config
     = OK (false, cfg', [str "Unknown arg: " ++ flag])
  /\ main stod argv (Usage (print_usage (hd [] argv)) 1)
  /\ (forall r, main stod argv r -> r = Usage (print_usage (hd [] argv)) 1).
Proof.
  intros Hin Hlen Hr.
  pose proof (@parse_args_missing_values stod argv flag k rest cfg' Hin Hlen Hr)
    as Hp.
  repeat split.
  - exact (@parse_one_missing_values stod flag k rest cfg' Hin Hlen).
  - exact Hp.
  - exact (@main_usage stod argv cfg' _ Hp).
  - intros r Hm.
    destruct Hm as [cfg err H|cfg err p s H _ _|e H|cfg err p e H _ _];
      [reflexivity| | |]; rewrite Hp in H; discriminate.
Qed.

End CommandLineClaim.

Lemma missing_flag_value_is_unknown_witness :
  parse_args no_stod short_argv default_config
  = OK (false, set_workers 4 default_config, [str "Unknown arg: --nodes"])
  /\ main no_stod short_argv (Usage (print_usage (str "./verbose")) 1).
Proof.
  destruct (@missing_flag_value_is_unknown no_stod short_argv (str "--nodes") 1
              [] (set_workers 4 default_config))
    as (_ & H2 & H3 & _).
  - cbn. tauto.
  - cbn. lia.
  - eapply reaches_next; [reflexivity|]. apply reaches_here.
  - split; [exact H2|exact H3].
Defined.

(** C1 (completeness) at [--nodes 2147483647 --fail-percent 100], two
    worker threads: the configuration is one [parse_args] accepts, and
    it has a completed run whose result vector holds 3 * 2^31 - 2
    records, not [nodes], one of them with node index [INT_MIN].  The
    thread that leaves the loop first still increments the counter,
    which wraps from [INT_MAX] to [INT_MIN]. *)
Theorem completeness_lost_when_counter_wraps :
  counts_in_range wrapping_config
  /\ exists p,
       completed_run wrapping_config p
       /\ Z.of_nat (length (results p)) <> nodes wrapping_config
       /\ In INT_MIN (map node_index (results p)).
Proof.
  split; [repeat split; (reflexivity || discriminate)|].
  destruct wrapping_run as (p & Hrun & Hlen & Hin).
  exists p. repeat split; try assumption; try apply Hrun.
  rewrite Hlen. discriminate.
Qed.

(** X1 (completeness while the counter stays in range).  For every
    configuration with [nodes + min(workers, nodes) <= 2^31], after a
    completed run the result vector holds exactly [nodes] records and
    every index of [0, nodes) is the node index of exactly one of
    them, whatever the interleaving of the threads. *)
Theorem completeness_while_counter_in_range (cfg : Config) (p : Pool) :
  counts_in_range cfg -> counter_in_range cfg -> completed_run cfg p ->
  Z.of_nat (length (results p)) = nodes cfg
  /\ Permutation (map node_index (results p)) (indices (nodes cfg))
  /\ (forall i, (0 <= i < nodes cfg)%Z ->
        count_occ Z.eq_dec (map node_index (results p)) i = 1)
  /\ (forall m, In m (results p) -> (0 <= node_index m < nodes cfg)%Z).
Proof.
  intros Hc Hr Hrun.
  pose proof (@completed_run_indices cfg p Hc Hr Hrun) as Hperm.
  repeat split.
  - exact (@completed_run_length cfg p Hc Hr Hrun).
  - exact Hperm.
  - intros i Hi. rewrite (Permutation_count_occ Z.eq_dec) in Hperm.
    rewrite Hperm.
    apply (proj1 (NoDup_count_occ' Z.eq_dec _) (indices_NoDup _)).
    now apply indices_In.
  - apply (proj1 (indices_In (nodes cfg) (node_index m))).
    apply (Permutation_in _ Hperm). now apply in_map.
  - apply (proj1 (indices_In (nodes cfg) (node_index m))).
    apply (Permutation_in _ Hperm). now apply in_map.
Qed.

Lemma completeness_while_counter_in_range_witness :
  Z.of_nat (length (results demo_run)) = 3%Z
  /\ map node_index (results demo_run) = [1; 0; 2]%Z
  /\ count_occ Z.eq_dec (map node_index (results demo_run)) 2%Z = 1.
Proof.
  destruct (@completeness_while_counter_in_range small_config demo_run
              (proj1 small_config_in_range) (proj2 small_config_in_range)
              demo_run_completed) as (H1 & _ & H3 & _).
  split; [exact H1|]. split; [vm_compute; reflexivity|].
  apply H3. split; [discriminate|reflexivity].
Defined.



(** X3 (tamper effect).  With [tamper_percent = 100] and
    [fail_percent = 0], every record of every run is a failed
    validation of a node that is not dropped, and a completed run in
    range reports a success percentage of 0. *)
Theorem tamper_effect (cfg : Config) :
  (tamper_percent cfg == 100)%Q -> (fail_percent cfg == 0)%Q ->
  (forall p, steps cfg (init_pool cfg) p ->
     Forall (fun m => success m = false /\ dropped m = false) (results p))
  /\ (forall p, counts_in_range cfg -> counter_in_range cfg ->
        completed_run cfg p ->
        exists s, aggregate (nodes cfg) (results p) = OK s
                  /\ (success_pct s == 0)%Q /\ (drop_pct s == 0)%Q).
Proof.
  intros Ht Hf.
  assert (Hrec : forall idx d m, valid_draws d ->
            node_iteration cfg idx d = OK m ->
            success m = false /\ dropped m = false).
  { intros idx d m (Hf0 & _ & _ & Ht1) Hm.
    pose proof (@Qltb_zero_percent _ _ Hf0 Hf) as Hfail.
    pose proof (@Qltb_full_percent _ _ Ht1 Ht) as Htam.
    destruct (Z.ltb_spec (payload_bytes cfg) 0) as [Hneg|Hpos].
    - rewrite node_iteration_bad_payload in Hm by assumption. discriminate.
    - rewrite node_iteration_completed in Hm by assumption.
      injection Hm as <-. cbn [success dropped].
      now rewrite (@tampered_token_differs cfg d Htam). }
  split.
  - intros p Hs. exact (@run_records cfg _ p Hrec Hs).
  - intros p Hc Hr Hrun.
    destruct (@uniform_run_summary cfg p false false Hc Hr Hrun)
      as (s & E & Hs & Hd & _).
    + exact (@run_records cfg _ p Hrec (proj1 Hrun)).
    + exists s. now repeat split.
Qed.

Lemma tamper_effect_witness :
  Forall (fun m => success m = false /\ dropped m = false) (results tamper_run)
  /\ exists s, aggregate (nodes tamper_config) (results tamper_run) = OK s
               /\ (success_pct s == 0)%Q /\ (drop_pct s == 0)%Q.
Proof.
  destruct (@tamper_effect tamper_config) as (H1 & H2);
    [reflexivity|reflexivity|].
  split.
  - apply H1. exact (proj1 (proj1 variant_runs_completed)).
  - apply H2; [exact (proj1 (proj1 variant_configs_in_range))
              |exact (proj2 (proj1 variant_configs_in_range))
              |exact (proj1 variant_runs_completed)].
Defined.

(** X4 (all dropped).  With [fail_percent = 100], every record of
    every run is a dropped node without success, and a completed run
    in range reports a success percentage of 0, a drop percentage of
    100 and elapsed-time statistics that are all 0. *)
Theorem all_dropped (cfg : Config) :
  (fail_percent cfg == 100)%Q ->
  (forall p, steps cfg (init_pool cfg) p ->
     Forall (fun m => success m = false /\ dropped m = true) (results p))
  /\ (forall p, counts_in_range cfg -> counter_in_range cfg ->
        completed_run cfg p ->
        exists s, aggregate (nodes cfg) (results p) = OK s
                  /\ (success_pct s == 0)%Q /\ (drop_pct s == 100)%Q
                  /\ (avg_total s, min_total s, max_total s, med_total s)
                     = (0, 0, 0, 0)%Z).
Proof.
  intros Hf.
  assert (Hrec : forall idx d m, valid_draws d ->
            node_iteration cfg idx d = OK m ->
            success m = false /\ dropped m = true).
  { intros idx d m (_ & Hf1 & _) Hm.
    pose proof (@Qltb_full_percent _ _ Hf1 Hf) as Hfail.
    rewrite node_iteration_dropped in Hm by assumption.
    injection Hm as <-. now split. }
  split.
  - intros p Hs. exact (@run_records cfg _ p Hrec Hs).
  - intros p Hc Hr Hrun.
    destruct (@uniform_run_summary cfg p false true Hc Hr Hrun)
      as (s & E & Hs & Hd & Hz).
    + exact (@run_records cfg _ p Hrec (proj1 Hrun)).
    + exists s. repeat split; try assumption. now apply Hz.
Qed.

Lemma all_dropped_witness :
  Forall (fun m => success m = false /\ dropped m = true) (results drop_run)
  /\ exists s, aggregate (nodes drop_config) (results drop_run) = OK s
               /\ (success_pct s == 0)%Q /\ (drop_pct s == 100)%Q
               /\ (avg_total s, min_total s, max_total s, med_total s)
                  = (0, 0, 0, 0)%Z.
Proof.
  destruct (@all_dropped drop_config) as (H1 & H2); [reflexivity|].
  split.
  - apply H1. exact (proj1 (proj2 variant_runs_completed)).
  - apply H2; [exact (proj1 (proj2 variant_configs_in_range))
              |exact (proj2 (proj2 variant_configs_in_range))
              |exact (proj2 variant_runs_completed)].
Defined.

(* ================================================================== *)
(** * Further properties of the code *)

(** ** Hex helpers *)

Lemma lower_hex_cases (c : ascii) :
  is_lower_hex c = true -> In c hex_alphabet.
Proof.
  unfold is_lower_hex. intro H. apply existsb_exists in H as (x & Hx & E).
  apply Ascii.eqb_eq in E. now subst.
Qed.

Lemma toHex_pair (a b : ascii) (va vb : nat) :
  is_lower_hex a = true -> is_lower_hex b = true ->
  hex_value a = Some va -> hex_value b = Some vb ->
  toHex [ascii_of_nat (16 * va + vb)] = [a; b].
Proof.
  intros Ha Hb. apply lower_hex_cases in Ha, Hb.
  unfold hex_alphabet in Ha, Hb. cbn [In] in Ha, Hb.
  repeat destruct Ha as [Ha|Ha]; try contradiction; subst a;
    intro Ea; injection Ea as <-;
    repeat destruct Hb as [Hb|Hb]; try contradiction; subst b;
    intro Eb; injection Eb as <-; reflexivity.
Qed.

Lemma lower_hex_value (c : ascii) :
  is_lower_hex c = true -> exists v, hex_value c = Some v.
Proof.
  intro H. apply lower_hex_cases in H. unfold hex_alphabet in H.
  cbn [In] in H.
  repeat destruct H as [H|H]; try contradiction; subst c; eexists; reflexivity.
Qed.

(** Encoding what was decoded from lower-case digits, pair by pair. *)
Lemma toHex_hex_decode (n : nat) :
  forall h : bytes,
    length h = 2 * n -> forallb is_lower_hex h = true ->
    toHex (hex_decode None h) = h.
Proof.
  induction n as [|n IH]; intros h Hlen Hh.
  - now destruct h.
  - destruct h as [|a [|b h]]; try (cbn in Hlen; lia).
    cbn [forallb] in Hh. apply andb_true_iff in Hh as [Ha Hh].
    apply andb_true_iff in Hh as [Hb Hh].
    destruct (lower_hex_value a Ha) as [va Ea].
    destruct (lower_hex_value b Hb) as [vb Eb].
    cbn [hex_decode]. rewrite Ea, Eb.
    change (toHex (ascii_of_nat (16 * va + vb) :: hex_decode None h))
      with (toHex [ascii_of_nat (16 * va + vb)] ++ toHex (hex_decode None h)).
    rewrite (toHex_pair a b Ha Hb Ea Eb), IH; [reflexivity| |exact Hh].
    cbn [length] in Hlen. lia.
Qed.

Lemma toHex_is_lower_hex (s : bytes) : forallb is_lower_hex (toHex s) = true.
Proof.
  induction s as [|c s IH]; [reflexivity|].
  cbn [toHex flat_map app forallb]. fold (toHex s). rewrite IH.
  destruct c as [[] [] [] [] [] [] [] []]; reflexivity.
Qed.

Lemma hex_value_to_upper (c : ascii) : hex_value (to_upper c) = hex_value c.
Proof. destruct c as [[] [] [] [] [] [] [] []]; reflexivity. Qed.

Lemma hex_decode_to_upper (p : option nat) (s : bytes) :
  hex_decode p (map to_upper s) = hex_decode p s.
Proof.
  revert p; induction s as [|c s IH]; intro p; [reflexivity|].
  cbn [map hex_decode]. rewrite hex_value_to_upper.
  destruct (hex_value c); [destruct p|]; now rewrite IH.
Qed.

(** X5 (hex round trips).  Decoding what [toHex] wrote gives the bytes
    back; [toHex] writes two lower-case hex digits per byte; encoding
    what [fromHex] read from an even number of lower-case hex digits
    gives the digits back; and [fromHex] reads upper-case digits as it
    reads lower-case ones. *)
Theorem hex_round_trips :
  (forall s, fromHex (toHex s) = s)
  /\ (forall s, length (toHex s) = 2 * length s
                /\ forallb is_lower_hex (toHex s) = true)
  /\ (forall h, Nat.even (length h) = true ->
                forallb is_lower_hex h = true ->
                toHex (fromHex h) = h)
  /\ (forall h, fromHex (map to_upper h) = fromHex h).
Proof.
  repeat split.
  - apply fromHex_toHex.
  - apply toHex_length.
  - apply toHex_is_lower_hex.
  - intros h Heven Hh. apply Nat.even_spec in Heven as [n Hn].
    exact (toHex_hex_decode n h Hn Hh).
  - intro h. apply hex_decode_to_upper.
Qed.

Lemma hex_round_trips_witness :
  toHex (fromHex (str "00ff7a")) = str "00ff7a"
  /\ fromHex (map to_upper (str "00ff7a")) = fromHex (str "00ff7a").
Proof.
  destruct hex_round_trips as (_ & _ & H3 & H4).
  split; [apply H3; reflexivity|apply H4].
Defined.

(** ** The wire format of [aesEncryptHex] *)

Lemma is_lower_hex_is_hex (c : ascii) :
  is_lower_hex c = true -> is_hex_digit c = true.
Proof.
  intro H. apply lower_hex_cases in H. unfold hex_alphabet in H.
  cbn [In] in H.
  repeat destruct H as [H|H]; try contradiction; subst c; reflexivity.
Qed.

Lemma cbc_encrypt_length (rks : list bytes) (iv plain : bytes) :
  length (cbc_encrypt rks iv plain)
  = BLOCKSIZE * (length plain / BLOCKSIZE + 1).
Proof.
  unfold cbc_encrypt. pose proof (pkcs_pad_length plain) as Hp.
  assert (Hdiv : length (pkcs_pad plain) / BLOCKSIZE
                 = length plain / BLOCKSIZE + 1).
  { rewrite Hp, Nat.mul_comm. apply Nat.div_mul. unfold BLOCKSIZE. lia. }
  rewrite Hdiv. apply cbc_enc_length. rewrite Hp. lia.
Qed.

Lemma aesEncryptHex_ok (key : bytes) (rng : RandomPool) (plain : bytes) :
  valid_key_length (length key) = true ->
  aesEncryptHex key rng plain
  = OK (toHex (GenerateBlock rng BLOCKSIZE) ++ str ":"
        ++ toHex (cbc_encrypt (KeyExpansion key)
                    (GenerateBlock rng BLOCKSIZE) plain)).
Proof. intro Hk. unfold aesEncryptHex, SetKey. now rewrite Hk. Qed.

Lemma aesEncryptHex_inv (key : bytes) (rng : RandomPool) (plain wire : bytes) :
  aesEncryptHex key rng plain = OK wire ->
  valid_key_length (length key) = true.
Proof.
  unfold aesEncryptHex, SetKey.
  destruct (valid_key_length (length key)); [reflexivity|discriminate].
Qed.

(** X6 (wire format).  [aesEncryptHex] fails only on a key of a length
    AES does not take, and a key from [deriveKey] never has one.  The
    wire string is 32 lower-case hex digits (the IV), one ':' at
    position 32, and 32 hex digits for each block of the padded
    plaintext: one block more than the whole blocks of the plaintext. *)
Theorem aesEncryptHex_wire_format (key : bytes) (rng : RandomPool)
    (plain : bytes) :
  (valid_key_length (length key) = false ->
   aesEncryptHex key rng plain = Throw InvalidKeyLength)
  /\ (valid_key_length (length key) = true ->
      exists ivhex chex,
        aesEncryptHex key rng plain = OK (ivhex ++ str ":" ++ chex)
        /\ length ivhex = 32
        /\ length chex = 32 * (length plain / 16 + 1)
        /\ forallb is_lower_hex ivhex = true
        /\ forallb is_lower_hex chex = true
        /\ find (ivhex ++ str ":" ++ chex) (str ":") 0 = Some 32)
  /\ (forall passphrase,
        exists wire, aesEncryptHex (deriveKey passphrase) rng plain = OK wire).
Proof.
  split; [|split].
  - intro Hk. unfold aesEncryptHex, SetKey. now rewrite Hk.
  - intro Hk. rewrite (aesEncryptHex_ok key rng plain Hk).
    set (iv := GenerateBlock rng BLOCKSIZE).
    set (c := cbc_encrypt (KeyExpansion key) iv plain).
    assert (Hiv : length (toHex iv) = 32).
    { rewrite toHex_length. unfold iv. now rewrite GenerateBlock_length. }
    exists (toHex iv), (toHex c). split; [reflexivity|].
    split; [exact Hiv|]. split.
    + rewrite toHex_length. unfold c. rewrite cbc_encrypt_length.
      unfold BLOCKSIZE. lia.
    + split; [apply toHex_is_lower_hex|]. split; [apply toHex_is_lower_hex|].
      rewrite find_separator by apply toHex_is_hex. now rewrite Hiv.
  - intro passphrase.
    rewrite (aesEncryptHex_ok _ rng plain (deriveKey_valid passphrase)).
    eexists. reflexivity.
Qed.

Lemma aesEncryptHex_wire_format_witness :
  exists ivhex chex,
    aesEncryptHex test_key test_pool (str "hello world")
    = OK (ivhex ++ str ":" ++ chex)
    /\ length ivhex = 32 /\ length chex = 32.
Proof.
  destruct (aesEncryptHex_wire_format test_key test_pool (str "hello world"))
    as (_ & H & _).
  destruct (H eq_refl) as (ivhex & chex & E & L1 & L2 & _).
  exists ivhex, chex. split; [exact E|]. split; [exact L1|exact L2].
Defined.

(** X7 (no two messages share a wire string).  Under one key, a wire
    string determines the plaintext and the IV it was made from: two
    calls that differ in the plaintext or in the 16 bytes drawn for
    the IV return different strings. *)
Theorem aesEncryptHex_injective (key : bytes) (rng1 rng2 : RandomPool)
    (plain1 plain2 wire : bytes) :
  aesEncryptHex key rng1 plain1 = OK wire ->
  aesEncryptHex key rng2 plain2 = OK wire ->
  plain1 = plain2
  /\ GenerateBlock rng1 BLOCKSIZE = GenerateBlock rng2 BLOCKSIZE.
Proof.
  intros E1 E2. pose proof (aesEncryptHex_inv _ _ _ E1) as Hk. split.
  - destruct (aes_roundtrip key rng1 plain1 Hk) as (w1 & F1 & D1).
    destruct (aes_roundtrip key rng2 plain2 Hk) as (w2 & F2 & D2).
    rewrite E1 in F1. rewrite E2 in F2.
    injection F1 as <-. injection F2 as <-. congruence.
  - rewrite (aesEncryptHex_ok key rng1 plain1 Hk) in E1.
    rewrite (aesEncryptHex_ok key rng2 plain2 Hk) in E2.
    assert (E : fromHex (toHex (GenerateBlock rng1 BLOCKSIZE) ++ str ":"
                  ++ toHex (cbc_encrypt (KeyExpansion key)
                              (GenerateBlock rng1 BLOCKSIZE) plain1))
                = fromHex (toHex (GenerateBlock rng2 BLOCKSIZE) ++ str ":"
                  ++ toHex (cbc_encrypt (KeyExpansion key)
                              (GenerateBlock rng2 BLOCKSIZE) plain2)))
      by congruence.
    unfold fromHex in E.
    rewrite !fromHex_toHex_app in E.
    apply (f_equal (firstn BLOCKSIZE)) in E.
    now rewrite !(@firstn_app_exact ascii BLOCKSIZE _ _
                    (GenerateBlock_length _ _)) in E.
Qed.

Lemma aesEncryptHex_injective_witness :
  str "hello world" = str "hello world"
  /\ GenerateBlock test_pool BLOCKSIZE = GenerateBlock test_pool BLOCKSIZE.
Proof.
  apply (@aesEncryptHex_injective test_key test_pool test_pool
           (str "hello world") (str "hello world")
           (str "101112131415161718191a1b1c1d1e1f:cda122e671f0f91095f426334e422b2b"));
    vm_compute; reflexivity.
Defined.

(** ** The checks of [aesDecryptHex], in their order *)

Lemma decrypt_parts_invalid_key (key iv cipher : bytes) :
  valid_key_length (length key) = false ->
  decrypt_parts key iv cipher = Throw InvalidKeyLength.
Proof. intro H. unfold decrypt_parts, SetKey. now rewrite H. Qed.

Lemma decrypt_parts_valid_key (key iv cipher : bytes) :
  valid_key_length (length key) = true ->
  decrypt_parts key iv cipher
  = if length iv <? BLOCKSIZE then Throw IvOverread
    else cbc_decrypt (KeyExpansion key) (firstn BLOCKSIZE iv) cipher.
Proof. intro H. unfold decrypt_parts, SetKey. now rewrite H. Qed.

(** X8 (what [aesDecryptHex] refuses, and in which order).  Once the
    separator is found: a key of a wrong length is refused whatever the
    rest; then an IV part of fewer than 16 bytes is read past its end;
    then a ciphertext part that decodes to nothing, or not to whole
    blocks, is refused as an invalid ciphertext.  Of a longer IV part
    only the first 16 bytes count. *)
Theorem aesDecryptHex_checks (key ivhex chex : bytes) :
  absent ":" ivhex = true ->
  let wire := ivhex ++ str ":" ++ chex in
  (valid_key_length (length key) = false ->
   aesDecryptHex key wire = Throw InvalidKeyLength)
  /\ (valid_key_length (length key) = true ->
      length (fromHex ivhex) < 16 ->
      aesDecryptHex key wire = Throw IvOverread)
  /\ (valid_key_length (length key) = true ->
      16 <= length (fromHex ivhex) ->
      length (fromHex chex) = 0 \/ length (fromHex chex) mod 16 <> 0 ->
      aesDecryptHex key wire = Throw InvalidCiphertext)
  /\ (forall iv more,
        length iv = 16 ->
        aesDecryptHex key (toHex (iv ++ more) ++ str ":" ++ chex)
        = aesDecryptHex key (toHex iv ++ str ":" ++ chex)).
Proof.
  intros Habs wire. unfold wire.
  rewrite (aesDecryptHex_parts key ivhex chex Habs).
  split; [|split; [|split]].
  - apply decrypt_parts_invalid_key.
  - intros Hk Hiv. rewrite decrypt_parts_valid_key by exact Hk.
    unfold BLOCKSIZE. now destruct (Nat.ltb_spec (length (fromHex ivhex)) 16);
      [|lia].
  - intros Hk Hiv Hc. rewrite decrypt_parts_valid_key by exact Hk.
    unfold BLOCKSIZE. destruct (Nat.ltb_spec (length (fromHex ivhex)) 16);
      [lia|].
    unfold cbc_decrypt, BLOCKSIZE. destruct Hc as [Hc|Hc].
    + now rewrite Hc.
    + apply Nat.eqb_neq in Hc. rewrite Hc. now rewrite orb_true_r.
  - intros iv more Hiv.
    assert (Hsep : forall s, absent ":" (toHex s) = true)
      by (intro s; apply hex_absent; [reflexivity|apply toHex_is_hex]).
    rewrite !aesDecryptHex_parts by apply Hsep.
    rewrite !fromHex_toHex. unfold decrypt_parts.
    destruct (SetKey key) as [rks|e]; [|reflexivity]. cbn [bind].
    rewrite length_app, Hiv. unfold BLOCKSIZE. cbn [Nat.ltb Nat.leb].
    replace (16 + length more <? 16) with false
      by (symmetry; apply Nat.ltb_ge; lia).
    rewrite (@firstn_app_exact ascii 16 iv more Hiv).
    rewrite <- Hiv at 2. now rewrite firstn_all.
Qed.

Lemma aesDecryptHex_checks_witness :
  aesDecryptHex (str "short key") (str "1011:cda1") = Throw InvalidKeyLength
  /\ aesDecryptHex test_key (str "1011:cda1") = Throw IvOverread
  /\ aesDecryptHex test_key (str "101112131415161718191a1b1c1d1e1f:cda1")
     = Throw InvalidCiphertext.
Proof.
  split; [|split].
  - apply (@aesDecryptHex_checks (str "short key") (str "1011") (str "cda1"));
      reflexivity.
  - apply (@aesDecryptHex_checks test_key (str "1011") (str "cda1"));
      [reflexivity|reflexivity|vm_compute; lia].
  - apply (@aesDecryptHex_checks test_key
             (str "101112131415161718191a1b1c1d1e1f") (str "cda1"));
      [reflexivity|reflexivity|vm_compute; lia|right; vm_compute; lia].
Defined.

(** ** What the TA issues *)

Lemma node_payload_token (node_id token : bytes) :
  absent "T" node_id = true ->
  token_after_marker (str "NODE_ID:" ++ node_id ++ str ";TOKEN:" ++ token)
  = OK token.
Proof.
  intro H. set (pre := str "NODE_ID:" ++ node_id ++ str ";").
  replace (str "NODE_ID:" ++ node_id ++ str ";TOKEN:" ++ token)
    with (pre ++ str "TOKEN:" ++ token)
    by (unfold pre; now rewrite <- !app_assoc).
  apply token_after_marker_at, find_token_marker.
  unfold pre. rewrite !absent_app, H. reflexivity.
Qed.

Lemma mw_payload_token (node_id token : bytes) :
  absent "T" node_id = true ->
  token_after_marker
    (str "MW_EXPECTS_NODE:" ++ node_id ++ str ";TOKEN:" ++ token)
  = OK token.
Proof.
  intro H. set (pre := str "MW_EXPECTS_NODE:" ++ node_id ++ str ";").
  replace (str "MW_EXPECTS_NODE:" ++ node_id ++ str ";TOKEN:" ++ token)
    with (pre ++ str "TOKEN:" ++ token)
    by (unfold pre; now rewrite <- !app_assoc).
  apply token_after_marker_at.
  set (tail := str "S_NODE:" ++ node_id ++ str ";").
  assert (Ht : find_first (str "TOKEN:") (tail ++ str "TOKEN:" ++ token)
               = Some (length tail)).
  { apply find_token_marker. unfold tail. rewrite !absent_app, H.
    reflexivity. }
  replace (pre ++ str "TOKEN:" ++ token)
    with (str "MW_EXPECT" ++ tail ++ str "TOKEN:" ++ token)
    by (unfold pre, tail; cbn; now rewrite <- !app_assoc).
  replace (length pre) with (9 + length tail)
    by (unfold pre, tail; rewrite !length_app; reflexivity).
  cbn [str list_ascii_of_string app].
  do 9 (rewrite find_first_cons_miss by reflexivity).
  cbn [str list_ascii_of_string app] in Ht. rewrite Ht. reflexivity.
Qed.

(** A node id that holds the marker hides the token from the reader. *)
Lemma node_payload_shadowed (a b token : bytes) :
  absent "T" a = true ->
  token_after_marker
    (str "NODE_ID:" ++ (a ++ str "TOKEN:" ++ b) ++ str ";TOKEN:" ++ token)
  = OK (b ++ str ";TOKEN:" ++ token).
Proof.
  intro H. set (pre := str "NODE_ID:" ++ a).
  replace (str "NODE_ID:" ++ (a ++ str "TOKEN:" ++ b) ++ str ";TOKEN:" ++ token)
    with (pre ++ str "TOKEN:" ++ (b ++ str ";TOKEN:" ++ token))
    by (unfold pre; now rewrite <- !app_assoc).
  apply token_after_marker_at, find_token_marker.
  unfold pre. rewrite absent_app, H. reflexivity.
Qed.

(** X9 (what the TA issues).  [TA_issue_tokens_for_node] always
    returns: a token of 32 lower-case hex digits and two wire strings
    which decrypt, under the key of the node and the key of the
    middleware, to "NODE_ID:<id>;TOKEN:<token>" and
    "MW_EXPECTS_NODE:<id>;TOKEN:<token>".  Reading the text after the
    first "TOKEN:" gives the token back from both when the node id has
    no 'T'; a node id that holds "TOKEN:" itself hides the token: what
    is read is longer than the token. *)
Theorem TA_issue_tokens_for_node_spec
    (token_rng node_rng mw_rng : RandomPool) (node_id : bytes) :
  exists issued,
    TA_issue_tokens_for_node token_rng node_rng mw_rng node_id = OK issued
    /\ length (token_plain issued) = 32
    /\ forallb is_lower_hex (token_plain issued) = true
    /\ aesDecryptHex KEY_TA_NODE (enc_for_node issued)
       = OK (str "NODE_ID:" ++ node_id ++ str ";TOKEN:" ++ token_plain issued)
    /\ aesDecryptHex KEY_TA_MW (enc_for_mw issued)
       = OK (str "MW_EXPECTS_NODE:" ++ node_id ++ str ";TOKEN:"
             ++ token_plain issued)
    /\ (absent "T" node_id = true ->
        forall p1 p2,
          aesDecryptHex KEY_TA_NODE (enc_for_node issued) = OK p1 ->
          aesDecryptHex KEY_TA_MW (enc_for_mw issued) = OK p2 ->
          token_after_marker p1 = OK (token_plain issued)
          /\ token_after_marker p2 = OK (token_plain issued))
    /\ (forall a b p1 t,
          node_id = a ++ str "TOKEN:" ++ b -> absent "T" a = true ->
          aesDecryptHex KEY_TA_NODE (enc_for_node issued) = OK p1 ->
          token_after_marker p1 = OK t ->
          length (token_plain issued) < length t).
Proof.
  destruct keys_valid as (K1 & _ & K3).
  unfold TA_issue_tokens_for_node.
  set (token := genTokenHex token_rng 16).
  destruct (aes_roundtrip KEY_TA_NODE node_rng
              (str "NODE_ID:" ++ node_id ++ str ";TOKEN:" ++ token) K1)
    as (w1 & E1 & D1).
  destruct (aes_roundtrip KEY_TA_MW mw_rng
              (str "MW_EXPECTS_NODE:" ++ node_id ++ str ";TOKEN:" ++ token) K3)
    as (w2 & E2 & D2).
  rewrite E1, E2. cbn [bind]. eexists. split; [reflexivity|].
  cbn [token_plain enc_for_node enc_for_mw].
  split; [apply genTokenHex_length|].
  split; [apply toHex_is_lower_hex|].
  split; [exact D1|]. split; [exact D2|]. split.
  - intros HT p1 p2 P1 P2. rewrite D1 in P1. rewrite D2 in P2.
    injection P1 as <-. injection P2 as <-.
    split; [now apply node_payload_token|now apply mw_payload_token].
  - intros a b p1 t -> Ha P1 Ht. rewrite D1 in P1.
    pose proof (node_payload_shadowed a b token Ha) as Hs.
    assert (Et : t = b ++ str ";TOKEN:" ++ token) by congruence. subst t.
    rewrite !length_app. cbn [str list_ascii_of_string length]. lia.
Qed.

Lemma TA_issue_tokens_for_node_spec_witness :
  exists issued,
    TA_issue_tokens_for_node (token_rng sample_draws) (node_rng sample_draws)
      (mw_rng sample_draws) (str "node-7") = OK issued
    /\ length (token_plain issued) = 32
    /\ exists p1, aesDecryptHex KEY_TA_NODE (enc_for_node issued) = OK p1
                  /\ token_after_marker p1 = OK (token_plain issued).
Proof.
  destruct (TA_issue_tokens_for_node_spec (token_rng sample_draws)
              (node_rng sample_draws) (mw_rng sample_draws) (str "node-7"))
    as (issued & E & L & _ & D1 & D2 & H & _).
  exists issued. split; [exact E|]. split; [exact L|].
  eexists. split; [exact D1|].
  exact (proj1 (H eq_refl _ _ D1 D2)).
Defined.

(** ** What one iteration of the worker does *)



(** ** The pool at every moment of a run *)

Lemma node_iteration_total (cfg : Config) (idx : Z) (d : Draws) :
  (0 <= payload_bytes cfg)%Z -> exists m, node_iteration cfg idx d = OK m.
Proof.
  intro Hp.
  destruct (Qltb (fail_draw d) (fail_percent cfg / 100)) eqn:E.
  - eexists. now apply node_iteration_dropped.
  - eexists. now apply node_iteration_completed.
Qed.

(** What holds of every exception an iteration can throw holds of the
    exception that ended a run. *)
Lemma crashed_invariant (cfg : Config) (Q : error -> Prop) :
  (forall idx d e, valid_draws d -> node_iteration cfg idx d = Throw e -> Q e) ->
  forall p q, steps cfg p q ->
    (forall e, crashed p = Some e -> Q e) ->
    forall e, crashed q = Some e -> Q e.
Proof.
  intros HQ p q Hs. induction Hs as [|p q r Hpq _ IH]; [auto|].
  intro Hp. apply IH.
  destruct Hpq as [w p Hcr Hw | w p idx d m Hcr Hw Hd Hm
                  | w p idx d e0 Hcr Hw Hd He]; cbn [claim push crash crashed].
  - exact Hp.
  - exact Hp.
  - intros e E. injection E as <-. exact (HQ idx d e0 Hd He).
Qed.

Lemma crashed_stuck (cfg : Config) (p q : Pool) (e : error) :
  crashed p = Some e -> step cfg p q -> False.
Proof. intros H Hs. destruct Hs; congruence. Qed.

Lemma steps_results_prefix (cfg : Config) (p q : Pool) :
  steps cfg p q -> exists l, results q = results p ++ l.
Proof.
  intro Hs. induction Hs as [p|p q r Hpq _ (l & IH)].
  - exists []. now rewrite app_nil_r.
  - destruct Hpq; cbn [claim push crash results] in IH.
    + now exists l.
    + eexists. rewrite IH, <- app_assoc. reflexivity.
    + now exists l.
Qed.

(** The claims made so far, read off the state. *)
Lemma pool_inv_counts (cfg : Config) (p : Pool) :
  (0 <= nodes cfg)%Z -> pool_inv cfg p ->
  exists k : Z,
    (0 <= k)%Z /\ counter p = wrap32 k
    /\ (Z.of_nat (length (results p))
        + Z.of_nat (length (claimed (threads p))) = Z.min k (nodes cfg))%Z
    /\ (k = Z.min k (nodes cfg) + exited_count (threads p))%Z
    /\ (exited_count (threads p) <= Z.of_nat (Z.to_nat (pool_size cfg)))%Z.
Proof.
  intros HN (k & Hk & Hc & Hke & Hperm & Hlen). exists k.
  apply Permutation_length in Hperm.
  rewrite length_app, length_map, indices_length in Hperm.
  pose proof (exited_count_bound (threads p)) as Hb. rewrite Hlen in Hb.
  repeat split; try assumption; lia.
Qed.

Lemma steps_left_nonneg (cfg : Config) (p : Pool) :
  (0 <= nodes cfg)%Z -> (0 <= pool_size cfg)%Z -> pool_inv cfg p ->
  (0 <= steps_left cfg p)%Z.
Proof.
  intros HN HP Hinv.
  destruct (@pool_inv_counts cfg p HN Hinv) as (k & Hk & _ & Hrc & Hke & Hex).
  unfold steps_left. lia.
Qed.

Lemma steps_left_joined (cfg : Config) (p : Pool) :
  (0 <= nodes cfg)%Z -> (0 < pool_size cfg)%Z -> pool_inv cfg p ->
  forallb is_exited (threads p) = true ->
  steps_left cfg p = 0%Z /\ Z.of_nat (length (results p)) = nodes cfg.
Proof.
  intros HN HP Hinv Hall.
  destruct (@pool_inv_counts cfg p HN Hinv) as (k & Hk & _ & Hrc & Hke & _).
  destruct Hinv as (_ & _ & _ & _ & _ & Hlen).
  destruct (exited_count_all _ Hall) as [He Hcl].
  unfold steps_left. rewrite Hcl in *. rewrite He, Hlen in *.
  cbn [length] in *. lia.
Qed.

Lemma steps_left_step (cfg : Config) (p q : Pool) :
  step cfg p q -> crashed q = None ->
  steps_left cfg q = (steps_left cfg p - 1)%Z.
Proof.
  intros Hs Hq.
  destruct Hs as [w p Hcr Hw | w p idx d m Hcr Hw Hd Hm
                 | w p idx d e0 Hcr Hw Hd He].
  - destruct (nth_error_set_nth _ _ Hw) as (l1 & l2 & Hl & Hset).
    unfold steps_left, claim. cbn [results threads].
    rewrite Hset, Hl, !claimed_app, !exited_count_app.
    change (AtLoop :: l2) with ([AtLoop] ++ l2).
    destruct (counter p >=? nodes cfg)%Z.
    + change (Exited :: l2) with ([Exited] ++ l2).
      rewrite !claimed_app, !exited_count_app, !length_app.
      change (exited_count [Exited]) with 1%Z.
      change (exited_count [AtLoop]) with 0%Z. cbn [claimed flat_map length app].
      lia.
    + change (Working (counter p) :: l2) with ([Working (counter p)] ++ l2).
      rewrite !claimed_app, !exited_count_app, !length_app.
      change (exited_count [Working (counter p)]) with 0%Z.
      change (exited_count [AtLoop]) with 0%Z. cbn [claimed flat_map length app].
      lia.
  - destruct (nth_error_set_nth _ _ Hw) as (l1 & l2 & Hl & Hset).
    unfold steps_left, push. cbn [results threads].
    rewrite Hset, Hl, !claimed_app, !exited_count_app.
    change (AtLoop :: l2) with ([AtLoop] ++ l2).
    change (Working idx :: l2) with ([Working idx] ++ l2).
    rewrite !claimed_app, !exited_count_app, !length_app.
    change (exited_count [Working idx]) with 0%Z.
    change (exited_count [AtLoop]) with 0%Z. cbn [claimed flat_map length app].
    lia.
  - discriminate.
Qed.



Lemma reachable_inv (cfg : Config) (p : Pool) :
  counts_in_range cfg -> counter_in_range cfg ->
  steps cfg (init_pool cfg) p -> pool_inv cfg p.
Proof.
  intros ((HN & _) & _) Hr Hs.
  apply (pool_inv_steps (p := init_pool cfg)); try assumption; [lia|].
  apply pool_inv_init. lia.
Qed.

Lemma pool_size_positive (cfg : Config) :
  counts_in_range cfg -> (0 < pool_size cfg)%Z.
Proof. intros ((HN & _) & (HW & _)). unfold pool_size. lia. Qed.

Lemma no_crash (cfg : Config) (p : Pool) :
  (0 <= payload_bytes cfg)%Z ->
  steps cfg (init_pool cfg) p -> crashed p = None.
Proof.
  intros Hpay Hs. destruct (crashed p) as [e|] eqn:E; [|reflexivity].
  exfalso.
  assert (H1 : forall idx d e0, valid_draws d ->
                 node_iteration cfg idx d = Throw e0 -> False).
  { intros idx d e0 _ He.
    destruct (@node_iteration_total cfg idx d Hpay) as (m & Hm). congruence. }
  assert (H2 : forall e0, crashed (init_pool cfg) = Some e0 -> False)
    by (intro e0; cbn; discriminate).
  exact (@crashed_invariant cfg (fun _ => False) H1 _ _ Hs H2 e E).
Qed.


(** The length of a run. *)
Lemma steps_count_bound (cfg : Config) (n : nat) (p q : Pool) :
  (0 <= nodes cfg)%Z -> (0 <= pool_size cfg)%Z -> counter_in_range cfg ->
  steps_count cfg n p q -> pool_inv cfg p -> crashed p = None ->
  (crashed q = None -> steps_left cfg q = steps_left cfg p - Z.of_nat n)%Z
  /\ (Z.of_nat n <= steps_left cfg p + 1)%Z.
Proof.
  intros HN HP Hr Hs. induction Hs as [p|n p q r Hpq Hqr IH]; intros Hinv Hcr.
  - pose proof (@steps_left_nonneg cfg p HN HP Hinv). split; [intros _|]; lia.
  - pose proof (@steps_left_nonneg cfg p HN HP Hinv) as H0.
    destruct (crashed q) as [e|] eqn:Eq.
    + assert (n = 0 /\ r = q) as [-> ->].
      { destruct Hqr as [|n q Hq' r Hstep _]; [now split|].
        exfalso. exact (@crashed_stuck cfg _ _ _ Eq Hstep). }
      split; [congruence|lia].
    + pose proof (@steps_left_step cfg p q Hpq Eq) as Hdec.
      destruct (IH (@pool_inv_step cfg p q HN Hr Hinv Hpq) eq_refl) as [IH1 IH2].
      split; [intro Hrn; rewrite (IH1 Hrn)|]; lia.
Qed.

Lemma steps_count_steps (cfg : Config) (n : nat) (p q : Pool) :
  steps_count cfg n p q -> steps cfg p q.
Proof.
  intro Hs. induction Hs as [p|n p q r Hpq _ IH]; [apply steps_refl|].
  now apply steps_cons with (q := q).
Qed.

Lemma steps_steps_count (cfg : Config) (p q : Pool) :
  steps cfg p q -> exists n, steps_count cfg n p q.
Proof.
  intro Hs. induction Hs as [p|p q r Hpq _ (n & IH)].
  - exists 0. apply count_refl.
  - exists (S n). now apply count_cons with (q := q).
Qed.

Lemma run_schedule_count (cfg : Config) (sched : list (nat * Draws))
    (p : Pool) :
  valid_schedule sched ->
  steps_count cfg (moves cfg sched p) p (run_schedule cfg sched p).
Proof.
  unfold valid_schedule.
  revert p; induction sched as [|[w d] sched IH]; intros p Hv;
    [apply count_refl|].
  inversion Hv as [|? ? Hd Hv']; subst. cbn [snd] in Hd.
  cbn [run_schedule moves].
  destruct (crashed p) eqn:Hc; [apply count_refl|].
  destruct (nth_error (threads p) w) as [[|idx|]|] eqn:Hw;
    try apply count_refl.
  - eapply count_cons; [exact (@step_claim cfg w p Hc Hw)|]. now apply IH.
  - destruct (node_iteration cfg idx d) as [m|e] eqn:Hm.
    + eapply count_cons; [exact (@step_push cfg w p idx d m Hc Hw Hd Hm)|].
      now apply IH.
    + eapply count_cons; [exact (@step_throw cfg w p idx d e Hc Hw Hd Hm)|].
      apply count_refl.
Qed.

Lemma valid_demo_schedule : valid_schedule demo_schedule.
Proof.
  unfold valid_schedule, demo_schedule. cbn [map].
  repeat constructor; apply valid_sample_draws.
Qed.

Lemma mid_run_reachable : steps small_config (init_pool small_config) mid_run.
Proof.
  apply run_schedule_steps. unfold valid_schedule, demo_schedule.
  cbn [map firstn]. repeat constructor; apply valid_sample_draws.
Qed.

Lemma steps_left_init (cfg : Config) :
  steps_left cfg (init_pool cfg) = (2 * nodes cfg + pool_size cfg)%Z.
Proof.
  unfold steps_left, init_pool. cbn [results threads length].
  destruct (fresh_threads (Z.to_nat (pool_size cfg))) as [-> ->].
  cbn [length]. lia.
Qed.


(** X18 (the pool at every moment of a run).  While the counter stays
    in range, at every moment of every run, completed or not, under
    every interleaving: no node index is held twice among the records
    pushed and the indices claimed by the threads at work; all of them
    lie in [0, nodes); the result vector never holds more than [nodes]
    records; the number of threads is [min(workers, nodes)]; records
    once pushed stay where they are; and no exception leaves a thread
    when the payload size is not negative. *)
Theorem pool_safety (cfg : Config) (p : Pool) :
  counts_in_range cfg -> counter_in_range cfg ->
  steps cfg (init_pool cfg) p ->
  NoDup (map node_index (results p) ++ claimed (threads p))
  /\ (forall i, In i (map node_index (results p) ++ claimed (threads p)) ->
        (0 <= i < nodes cfg)%Z)
  /\ (Z.of_nat (length (results p)) <= nodes cfg)%Z
  /\ length (threads p) = Z.to_nat (pool_size cfg)
  /\ (forall q, steps cfg p q -> exists l, results q = results p ++ l)
  /\ ((0 <= payload_bytes cfg)%Z -> crashed p = None).
Proof.
  intros Hc Hr Hs. pose proof (@reachable_inv cfg p Hc Hr Hs) as Hinv.
  destruct Hc as ((HN & _) & _).
  destruct (@pool_inv_counts cfg p ltac:(lia) Hinv)
    as (k0 & _ & _ & Hrc & _ & _).
  destruct Hinv as (k & Hk & _ & _ & Hperm & Hlen).
  split; [|split; [|split; [|split; [|split]]]].
  - apply (Permutation_NoDup (Permutation_sym Hperm)), indices_NoDup.
  - intros i Hi. apply (Permutation_in _ Hperm) in Hi.
    apply indices_In in Hi. lia.
  - lia.
  - exact Hlen.
  - intros q Hq. exact (steps_results_prefix Hq).
  - intro Hpay. exact (@no_crash cfg p Hpay Hs).
Qed.

Lemma pool_safety_witness :
  NoDup (map node_index (results mid_run) ++ claimed (threads mid_run))
  /\ map node_index (results mid_run) ++ claimed (threads mid_run) = [1; 0]%Z
  /\ crashed mid_run = None.
Proof.
  destruct (@pool_safety small_config mid_run
              (proj1 small_config_in_range) (proj2 small_config_in_range)
              mid_run_reachable) as (H1 & _ & _ & _ & _ & H6).
  split; [exact H1|]. split; [vm_compute; reflexivity|].
  apply H6. discriminate.
Defined.

(** X19 (runs are finite).  While the counter stays in range no run
    goes on for ever: a run makes at most [2 * nodes + min(workers,
    nodes)] claims and pushes, followed by at most one exception, and
    a completed run makes exactly that many: two steps for each node,
    and for each thread the claim on which it leaves the loop. *)
Theorem runs_are_finite (cfg : Config) (n : nat) (p : Pool) :
  counts_in_range cfg -> counter_in_range cfg ->
  steps_count cfg n (init_pool cfg) p ->
  (Z.of_nat n <= 2 * nodes cfg + pool_size cfg + 1)%Z
  /\ (crashed p = None -> Z.of_nat n <= 2 * nodes cfg + pool_size cfg)%Z
  /\ (joined p -> Z.of_nat n = 2 * nodes cfg + pool_size cfg)%Z.
Proof.
  intros Hc Hr Hs.
  pose proof (pool_size_positive Hc) as HP.
  pose proof (@reachable_inv cfg p Hc Hr (steps_count_steps Hs)) as Hinv.
  destruct Hc as ((HN & _) & _).
  assert (Hinit : pool_inv cfg (init_pool cfg)) by (apply pool_inv_init; lia).
  destruct (@steps_count_bound cfg n (init_pool cfg) p ltac:(lia) ltac:(lia)
              Hr Hs Hinit eq_refl) as [H1 H2].
  rewrite steps_left_init in H1, H2.
  split; [exact H2|]. split.
  - intro Hcr. pose proof (H1 Hcr).
    pose proof (@steps_left_nonneg cfg p ltac:(lia) ltac:(lia) Hinv). lia.
  - intros [Hcr Hall]. pose proof (H1 Hcr).
    destruct (@steps_left_joined cfg p ltac:(lia) HP Hinv Hall) as [H0 _]. lia.
Qed.

Lemma runs_are_finite_witness :
  steps_count small_config 8 (init_pool small_config) demo_run
  /\ (Z.of_nat 8 = 2 * nodes small_config + pool_size small_config)%Z.
Proof.
  assert (H : steps_count small_config 8 (init_pool small_config) demo_run)
    by exact (@run_schedule_count small_config demo_schedule
                (init_pool small_config) valid_demo_schedule).
  split; [exact H|].
  apply (@runs_are_finite small_config 8 demo_run
           (proj1 small_config_in_range) (proj2 small_config_in_range) H).
  exact (proj2 demo_run_completed).
Defined.



(** ** A negative payload size *)





(** ** The summary does not depend on the order of the records *)

Lemma wrap64_add (a x : Z) : wrap64 (wrap64 a + x) = wrap64 (a + x).
Proof.
  unfold wrap64. f_equal.
  replace ((a + 2 ^ 63) mod 2 ^ 64 - 2 ^ 63 + x + 2 ^ 63)%Z
    with ((a + 2 ^ 63) mod 2 ^ 64 + x)%Z by lia.
  replace (a + x + 2 ^ 63)%Z with ((a + 2 ^ 63) + x)%Z by lia.
  rewrite (Z.add_mod (a + 2 ^ 63) x) by lia.
  rewrite (Z.add_mod ((a + 2 ^ 63) mod 2 ^ 64) x) by lia.
  now rewrite Z.mod_mod by lia.
Qed.

Lemma accumulate_from (l : list Z) (a : Z) :
  fold_left (fun acc x => wrap64 (acc + x)) l (wrap64 a)
  = wrap64 (a + total_time l).
Proof.
  revert a; induction l as [|x l IH]; intro a; cbn [fold_left].
  - change (total_time []) with 0%Z. now rewrite Z.add_0_r.
  - change (total_time (x :: l)) with (x + total_time l)%Z.
    rewrite wrap64_add, IH. f_equal. lia.
Qed.

(** [std::accumulate] on [long long] is the sum modulo 2^64. *)
Lemma accumulate_sum (l : list Z) : accumulate l = wrap64 (total_time l).
Proof. exact (accumulate_from l 0). Qed.

Lemma total_time_perm (l l' : list Z) :
  Permutation l l' -> total_time l = total_time l'.
Proof. intro H. unfold total_time. induction H; cbn [fold_right] in *; lia. Qed.

Lemma filter_permutation {A} (f : A -> bool) (l l' : list A) :
  Permutation l l' -> Permutation (filter f l) (filter f l').
Proof.
  intro H. induction H as [|x l l' _ IH|x y l|l l' l'' _ IH1 _ IH2].
  - constructor.
  - cbn. destruct (f x); [now constructor|exact IH].
  - cbn. destruct (f x), (f y); try reflexivity. apply perm_swap.
  - now transitivity (filter f l').
Qed.

Lemma min_element_spec (x : Z) (tl : list Z) :
  In (min_element x tl) (x :: tl)
  /\ Forall (fun y => (min_element x tl <= y)%Z) (x :: tl).
Proof.
  unfold min_element. revert x; induction tl as [|y tl IH]; intro x.
  - cbn. split; [now left|]. constructor; [lia|constructor].
  - cbn [fold_left]. destruct (IH (Z.min x y)) as [Hin Hall].
    inversion Hall as [|? ? Hm Htl]; subst. split.
    + destruct Hin as [Hin|Hin]; [|now right; right].
      rewrite <- Hin. destruct (Z.min_spec x y) as [[_ ->]|[_ ->]];
        [now left|now right; left].
    + constructor; [lia|]. constructor; [lia|exact Htl].
Qed.

Lemma max_element_spec (x : Z) (tl : list Z) :
  In (max_element x tl) (x :: tl)
  /\ Forall (fun y => (y <= max_element x tl)%Z) (x :: tl).
Proof.
  unfold max_element. revert x; induction tl as [|y tl IH]; intro x.
  - cbn. split; [now left|]. constructor; [lia|constructor].
  - cbn [fold_left]. destruct (IH (Z.max x y)) as [Hin Hall].
    inversion Hall as [|? ? Hm Htl]; subst. split.
    + destruct Hin as [Hin|Hin]; [|now right; right].
      rewrite <- Hin. destruct (Z.max_spec x y) as [[_ ->]|[_ ->]];
        [now right; left|now left].
    + constructor; [lia|]. constructor; [lia|exact Htl].
Qed.

Lemma min_element_perm (x y : Z) (tl tl' : list Z) :
  Permutation (x :: tl) (y :: tl') -> min_element x tl = min_element y tl'.
Proof.
  intro H. destruct (min_element_spec x tl) as [I1 A1].
  destruct (min_element_spec y tl') as [I2 A2].
  rewrite Forall_forall in A1, A2.
  pose proof (A1 _ (Permutation_in _ (Permutation_sym H) I2)).
  pose proof (A2 _ (Permutation_in _ H I1)). lia.
Qed.

Lemma max_element_perm (x y : Z) (tl tl' : list Z) :
  Permutation (x :: tl) (y :: tl') -> max_element x tl = max_element y tl'.
Proof.
  intro H. destruct (max_element_spec x tl) as [I1 A1].
  destruct (max_element_spec y tl') as [I2 A2].
  rewrite Forall_forall in A1, A2.
  pose proof (A1 _ (Permutation_in _ (Permutation_sym H) I2)).
  pose proof (A2 _ (Permutation_in _ H I1)). lia.
Qed.

Lemma sort_perm_eq (v v' : list Z) : Permutation v v' -> sort v = sort v'.
Proof.
  intro H. apply sort_unique; [|apply sort_sorted].
  transitivity v'; [exact H|apply sort_perm].
Qed.

Lemma median_of_vec_perm (v v' : list Z) :
  Permutation v v' -> median_of_vec v = median_of_vec v'.
Proof.
  intro H. pose proof (sort_perm_eq H) as Hs.
  destruct v as [|x v], v' as [|y v'].
  - reflexivity.
  - now apply Permutation_nil in H.
  - now apply Permutation_sym, Permutation_nil in H.
  - unfold median_of_vec. now rewrite Hs.
Qed.

Lemma time_stats_perm (l l' : list Z) :
  Permutation l l' -> time_stats l = time_stats l'.
Proof.
  intro H. destruct l as [|x l], l' as [|y l'].
  - reflexivity.
  - now apply Permutation_nil in H.
  - now apply Permutation_sym, Permutation_nil in H.
  - unfold time_stats.
    rewrite !accumulate_sum, (total_time_perm H), (Permutation_length H),
      (min_element_perm H), (max_element_perm H), (median_of_vec_perm H).
    reflexivity.
Qed.

Lemma completed_totals_perm (rs rs' : list NodeMetrics) :
  Permutation rs rs' ->
  Permutation (completed_totals rs) (completed_totals rs').
Proof.
  intro H. unfold completed_totals.
  now apply Permutation_map, filter_permutation.
Qed.

Lemma counts_perm (rs rs' : list NodeMetrics) :
  Permutation rs rs' ->
  count_success rs = count_success rs' /\ count_dropped rs = count_dropped rs'.
Proof.
  intro H. unfold count_success, count_dropped.
  now rewrite (Permutation_length (filter_permutation success H)),
    (Permutation_length (filter_permutation dropped H)).
Qed.

(** [aggregate] through the counts and the completed totals. *)
Lemma aggregate_unfold (n : Z) (rs : list NodeMetrics) :
  aggregate n rs
  = let totals := completed_totals rs in
    do avg <- match totals with
              | [] => OK 0%Z
              | _ => lldiv (accumulate totals) (Z.of_nat (length totals))
              end;
    do spct <- match rs with
               | [] => OK 0%Q
               | _ => fdiv (100 * inject_Z (wrap32 (count_success rs)))
                           (inject_Z n)
               end;
    do dpct <- match rs with
               | [] => OK 0%Q
               | _ => fdiv (100 * inject_Z (wrap32 (count_dropped rs)))
                           (inject_Z n)
               end;
    OK {| avg_total := avg;
          min_total := snd (fst (fst (time_stats totals)));
          max_total := snd (fst (time_stats totals));
          med_total := snd (time_stats totals);
          success_pct := spct; drop_pct := dpct |}.
Proof.
  unfold aggregate. rewrite tally_start. cbv zeta.
  destruct (completed_totals rs) as [|x tl]; reflexivity.
Qed.

(** X11 (the summary does not depend on the order of the records).
    The order in which the threads push their records is left to the
    scheduler; the summary computed from the result vector is the same
    for every order: counts, average, minimum, maximum and median are
    those of the records as a collection. *)
Theorem aggregate_order_independent (n : Z) (rs rs' : list NodeMetrics) :
  Permutation rs rs' -> aggregate n rs = aggregate n rs'.
Proof.
  intro H. rewrite !aggregate_unfold. cbv zeta.
  pose proof (completed_totals_perm H) as HT.
  destruct (counts_perm H) as [-> ->].
  rewrite (time_stats_perm HT).
  assert (Havg :
    match completed_totals rs with
    | [] => OK 0%Z
    | _ => lldiv (accumulate (completed_totals rs))
                 (Z.of_nat (length (completed_totals rs)))
    end
    = match completed_totals rs' with
      | [] => OK 0%Z
      | _ => lldiv (accumulate (completed_totals rs'))
                   (Z.of_nat (length (completed_totals rs')))
      end).
  { rewrite !accumulate_sum, (total_time_perm HT), (Permutation_length HT).
    destruct (completed_totals rs) as [|x l], (completed_totals rs') as [|y l'];
      try reflexivity.
    - now apply Permutation_nil in HT.
    - now apply Permutation_sym, Permutation_nil in HT. }
  rewrite Havg.
  destruct rs as [|m rs], rs' as [|m' rs']; try reflexivity.
  - now apply Permutation_nil in H.
  - now apply Permutation_sym, Permutation_nil in H.
Qed.

Lemma aggregate_order_independent_witness :
  aggregate 4 sample_records = aggregate 4 (rev sample_records).
Proof.
  apply (@aggregate_order_independent 4 sample_records (rev sample_records)).
  apply Permutation_rev.
Defined.

(** ** The four times of the summary *)

Lemma total_time_bounds (lo hi : Z) (l : list Z) :
  Forall (fun t => (lo <= t <= hi)%Z) l ->
  (lo * Z.of_nat (length l) <= total_time l <= hi * Z.of_nat (length l))%Z.
Proof.
  unfold total_time. intro H. induction H as [|x l Hx _ IH].
  - cbn. lia.
  - cbn [fold_right length]. lia.
Qed.

Lemma nth_le_total (l : list Z) :
  Forall (fun t => (0 <= t)%Z) l ->
  (0 <= total_time l)%Z
  /\ forall j, j < length l -> (nth j l 0 <= total_time l)%Z.
Proof.
  unfold total_time. intro H. induction H as [|x l Hx _ [IH0 IH]].
  - cbn. split; [lia|]. intros j Hj. lia.
  - cbn [fold_right length]. split; [lia|].
    intros [|j] Hj; cbn [nth]; [lia|]. specialize (IH j). lia.
Qed.

(** Two entries at different places weigh no more than the sum. *)
Lemma nth_pair_le_total (l : list Z) :
  Forall (fun t => (0 <= t)%Z) l ->
  forall i j, i < j -> j < length l ->
    (nth i l 0 + nth j l 0 <= total_time l)%Z.
Proof.
  intro H. induction H as [|x l Hx Hl IH]; intros i j Hij Hj.
  - cbn in Hj. lia.
  - destruct j as [|j]; [lia|]. cbn [length] in Hj.
    change (total_time (x :: l)) with (x + total_time l)%Z.
    destruct i as [|i]; cbn [nth].
    + pose proof (proj2 (nth_le_total Hl) j). lia.
    + specialize (IH i j). lia.
Qed.

Lemma median_of_vec_cases (v : list Z) :
  v <> [] ->
  let s := sort v in
  let n := length v in
  median_of_vec v
  = if n mod 2 =? 1 then nth (n / 2) s 0%Z
    else Z.quot (wrap64 (nth (n / 2 - 1) s 0 + nth (n / 2) s 0)%Z) 2.
Proof.
  intros Hv s n. destruct v as [|x v]; [congruence|].
  unfold median_of_vec, s, n. cbv zeta. now rewrite (sort_length (x :: v)).
Qed.

Lemma Forall_perm {A} (P : A -> Prop) (l l' : list A) :
  Permutation l l' -> Forall P l -> Forall P l'.
Proof.
  intros Hp H. rewrite Forall_forall in *. intros x Hx.
  apply H. exact (Permutation_in _ (Permutation_sym Hp) Hx).
Qed.

(** The median of nonnegative times whose sum is a [long long] lies
    between any two bounds of the times. *)
Lemma median_between (v : list Z) (lo hi : Z) :
  v <> [] ->
  Forall (fun t => (0 <= t)%Z) v -> (total_time v < 2 ^ 63)%Z ->
  Forall (fun t => (lo <= t <= hi)%Z) v ->
  (lo <= median_of_vec v <= hi)%Z.
Proof.
  intros Hv Hpos Hsum Hb. rewrite (median_of_vec_cases Hv). cbv zeta.
  pose proof (sort_perm v) as Hp.
  pose proof (Forall_perm Hp Hpos) as Hpos'.
  pose proof (Forall_perm Hp Hb) as Hb'.
  rewrite (total_time_perm Hp) in Hsum.
  rewrite <- (sort_length v). set (s := sort v) in *.
  assert (Hn : 0 < length s)
    by (unfold s; rewrite sort_length; destruct v; [congruence|cbn; lia]).
  rewrite Forall_forall in Hb'.
  assert (Hnth : forall j, j < length s -> (lo <= nth j s 0 <= hi)%Z)
    by (intros j Hj; apply Hb', nth_In, Hj).
  destruct (Nat.eqb_spec (length s mod 2) 1) as [Hodd|Heven].
  - apply Hnth. apply Nat.div_lt; lia.
  - pose proof (Nat.div_mod_eq (length s) 2) as Hdm.
    pose proof (Nat.mod_upper_bound (length s) 2 ltac:(lia)) as Hm.
    assert (H2 : 1 <= length s / 2) by lia.
    pose proof (Hnth (length s / 2 - 1) ltac:(lia)) as Ha.
    pose proof (Hnth (length s / 2) ltac:(lia)) as Hb2.
    pose proof (@nth_pair_le_total s Hpos' (length s / 2 - 1) (length s / 2)
                  ltac:(lia) ltac:(lia)) as Hpair.
    rewrite Forall_forall in Hpos'.
    pose proof (Hpos' _ (@nth_In _ (length s / 2 - 1) s 0%Z ltac:(lia))) as Ha0.
    pose proof (Hpos' _ (@nth_In _ (length s / 2) s 0%Z ltac:(lia))) as Hb0.
    cbv beta in Ha0, Hb0.
    rewrite wrap64_representable by (unfold representable64; lia).
    rewrite Z.quot_div_nonneg by lia.
    split; [apply Z.div_le_lower_bound|apply Z.div_le_upper_bound]; lia.
Qed.

(** X12 (the four times of the summary are consistent).  When some
    node completed, the elapsed times are not negative and their sum
    is a [long long]: the minimum and the maximum of the summary are
    elapsed times of completed nodes and bound all of them, the average
    is the sum divided by the number of completed nodes, rounded down,
    and both the average and the median lie between the minimum and
    the maximum. *)
Theorem summary_times_consistent (n : Z) (rs : list NodeMetrics)
    (s : RunSummary) :
  aggregate n rs = OK s ->
  completed_totals rs <> [] ->
  Forall (fun t => (0 <= t)%Z) (completed_totals rs) ->
  (total_time (completed_totals rs) < 2 ^ 63)%Z ->
  In (min_total s) (completed_totals rs)
  /\ In (max_total s) (completed_totals rs)
  /\ Forall (fun t => (min_total s <= t <= max_total s)%Z) (completed_totals rs)
  /\ avg_total s
     = (total_time (completed_totals rs)
        / Z.of_nat (length (completed_totals rs)))%Z
  /\ (min_total s <= avg_total s <= max_total s)%Z
  /\ (min_total s <= med_total s <= max_total s)%Z.
Proof.
  intros Hagg Hne Hpos Hsum.
  pose proof (aggregate_time_stats _ _ Hagg) as Hts.
  destruct (nth_le_total Hpos) as [H0 _].
  destruct (completed_totals rs) as [|x tl] eqn:ET; [congruence|].
  unfold time_stats in Hts.
  assert (Havg : avg_total s
                 = Z.quot (accumulate (x :: tl)) (Z.of_nat (length (x :: tl))))
    by congruence.
  assert (Hmin : min_total s = min_element x tl) by congruence.
  assert (Hmax : max_total s = max_element x tl) by congruence.
  assert (Hmed : med_total s = median_of_vec (x :: tl)) by congruence.
  clear Hts.
  destruct (min_element_spec x tl) as [Imin Amin].
  destruct (max_element_spec x tl) as [Imax Amax].
  rewrite <- Hmin in Imin, Amin. rewrite <- Hmax in Imax, Amax.
  clear Hmin Hmax.
  assert (Hb : Forall (fun t => (min_total s <= t <= max_total s)%Z) (x :: tl)).
  { rewrite Forall_forall in *. intros t Ht.
    split; [now apply Amin|now apply Amax]. }
  assert (Hlen : (0 < Z.of_nat (length (x :: tl)))%Z) by (cbn [length]; lia).
  assert (Ha : avg_total s
               = (total_time (x :: tl) / Z.of_nat (length (x :: tl)))%Z).
  { rewrite Havg, accumulate_sum.
    rewrite wrap64_representable by (unfold representable64; lia).
    apply Z.quot_div_nonneg; lia. }
  split; [exact Imin|]. split; [exact Imax|]. split; [exact Hb|].
  split; [exact Ha|]. split.
  - rewrite Ha. pose proof (total_time_bounds Hb) as [Hlo Hhi].
    split; [apply Z.div_le_lower_bound|apply Z.div_le_upper_bound]; lia.
  - rewrite Hmed. apply median_between; assumption.
Qed.

Lemma summary_times_consistent_witness :
  exists s,
    aggregate 4 sample_records = OK s
    /\ (min_total s <= avg_total s <= max_total s)%Z
    /\ (min_total s <= med_total s <= max_total s)%Z.
Proof.
  eexists. split; [reflexivity|].
  apply (@summary_times_consistent 4 sample_records _ eq_refl).
  - discriminate.
  - repeat constructor; discriminate.
  - reflexivity.
Defined.

(** ** The percentages of a completed run *)






(** ** Numbers on the command line *)

Lemma digits_value_stops (a : Z) (s : bytes) :
  stops s = true -> digits_value a s = a.
Proof.
  destruct s as [|c s]; [reflexivity|]. cbn [stops digits_value].
  intro H. apply negb_true_iff in H. now rewrite H.
Qed.

(** [digits_value] reads a decimal numeral as the standard library's
    conversion does. *)
Lemma digits_value_uint (u : Decimal.uint) (sfx : bytes) :
  stops sfx = true ->
  forall p : positive,
    digits_value (Z.pos p) (str (NilEmpty.string_of_uint u) ++ sfx)
    = Z.pos (Pos.of_uint_acc u p).
Proof.
  intro Hs. induction u as [|u IH|u IH|u IH|u IH|u IH|u IH|u IH|u IH|u IH|u IH];
    intro p;
    cbn [NilEmpty.string_of_uint str list_ascii_of_string app digits_value
         Pos.of_uint_acc].
  1: now apply digits_value_stops.
  all: match goal with |- context [is_digit ?c] =>
         change (is_digit c) with true end; cbv iota;
       match goal with
       | |- digits_value ?a _ = Z.pos (Pos.of_uint_acc _ ?q) =>
           replace a with (Z.pos q)
             by (match goal with |- context [nat_of_ascii ?c] =>
                   let v := eval vm_compute in (Z.of_nat (nat_of_ascii c)) in
                   change (Z.of_nat (nat_of_ascii c)) with v end; lia)
       end; apply IH.
Qed.

Lemma digits_value_uint0 (u : Decimal.uint) (sfx : bytes) :
  stops sfx = true ->
  digits_value 0 (str (NilEmpty.string_of_uint u) ++ sfx)
  = Z.of_N (Pos.of_uint u).
Proof.
  intro Hs. induction u as [|u IH|u IH|u IH|u IH|u IH|u IH|u IH|u IH|u IH|u IH];
    cbn [NilEmpty.string_of_uint str list_ascii_of_string app digits_value
         Pos.of_uint].
  1: now apply digits_value_stops.
  1: exact IH.
  all: match goal with |- context [is_digit ?c] =>
         change (is_digit c) with true end; cbv iota;
       exact (digits_value_uint u sfx Hs _).
Qed.

Lemma uint_text_head (u : Decimal.uint) :
  u <> Decimal.Nil ->
  NilZero.string_of_uint u = NilEmpty.string_of_uint u
  /\ exists c s, str (NilEmpty.string_of_uint u) = c :: s /\ is_digit c = true.
Proof.
  intro H. destruct u; [congruence| | | | | | | | | |];
    (split; [reflexivity|]);
    cbn [NilEmpty.string_of_uint str list_ascii_of_string];
    eexists; eexists; (split; [reflexivity|reflexivity]).
Qed.

Lemma digit_cases (c : ascii) :
  is_digit c = true -> In c (str "0123456789").
Proof.
  destruct c as [[] [] [] [] [] [] [] []]; try discriminate; intros _;
    cbn; tauto.
Qed.

(** [stoi] on text that starts with a digit, or with '-' and a digit. *)
Lemma stoi_digits (c : ascii) (s : bytes) :
  is_digit c = true ->
  stoi (c :: s)
  = (let v := digits_value 0 (c :: s) in
     if (v <? INT_MIN)%Z || (INT_MAX <? v)%Z then Throw OutOfRange else OK v)
  /\ stoi ("-"%char :: c :: s)
     = (let v := (- digits_value 0 (c :: s))%Z in
        if (v <? INT_MIN)%Z || (INT_MAX <? v)%Z then Throw OutOfRange
        else OK v).
Proof.
  intro H. apply digit_cases in H. cbn [str list_ascii_of_string In] in H.
  repeat destruct H as [H|H]; try contradiction; subst c;
    split; reflexivity.
Qed.

(** What [std::stoi] makes of what [std::to_string] writes, whatever
    follows the digits. *)
Lemma stoi_to_string (n : Z) (sfx : bytes) :
  stops sfx = true ->
  stoi (to_string n ++ sfx)
  = if (n <? INT_MIN)%Z || (INT_MAX <? n)%Z then Throw OutOfRange else OK n.
Proof.
  intro Hs. unfold to_string. destruct n as [|p|p]; cbn [Z.to_int].
  - change (str (NilZero.string_of_int (Decimal.Pos (Decimal.D0 Decimal.Nil))))
      with (str (NilEmpty.string_of_uint (Decimal.D0 Decimal.Nil))).
    pose proof (digits_value_uint0 (Decimal.D0 Decimal.Nil) sfx Hs) as Hv.
    cbn [NilEmpty.string_of_uint str list_ascii_of_string app] in *.
    rewrite (proj1 (stoi_digits "0" sfx eq_refl)). cbv zeta. now rewrite Hv.
  - cbn [NilZero.string_of_int].
    destruct (uint_text_head (DecimalPos.Unsigned.to_uint_nonnil p))
      as (-> & c & s & Hc & Hd).
    pose proof (digits_value_uint0 (Pos.to_uint p) sfx Hs) as Hv.
    rewrite DecimalPos.Unsigned.of_to in Hv. rewrite Hc in *.
    cbn [app] in *. rewrite (proj1 (stoi_digits c (s ++ sfx) Hd)).
    cbv zeta. now rewrite Hv.
  - cbn [NilZero.string_of_int].
    destruct (uint_text_head (DecimalPos.Unsigned.to_uint_nonnil p))
      as (-> & c & s & Hc & Hd).
    pose proof (digits_value_uint0 (Pos.to_uint p) sfx Hs) as Hv.
    rewrite DecimalPos.Unsigned.of_to in Hv.
    cbn [str list_ascii_of_string]. fold (str (NilEmpty.string_of_uint (Pos.to_uint p))).
    rewrite Hc in *. cbn [app] in *.
    rewrite (proj2 (stoi_digits c (s ++ sfx) Hd)).
    cbv zeta. now rewrite Hv.
Qed.


Section NumbersOnTheCommandLine.

Variable stod : bytes -> result Q.

Lemma parse_args_one_value (prog flag v : bytes) (cfg cfg1 : Config) :
  parse_one stod flag [v] cfg = OK (Continue [] cfg1) ->
  parse_args stod [prog; flag; v] cfg = OK (true, clamp_config cfg1, []).
Proof.
  intro H. unfold parse_args. cbn [length tl parse_loop].
  rewrite H. reflexivity.
Qed.

Lemma parse_args_two_values (prog flag v1 v2 : bytes) (cfg cfg1 : Config) :
  parse_one stod flag [v1; v2] cfg = OK (Continue [] cfg1) ->
  parse_args stod [prog; flag; v1; v2] cfg = OK (true, clamp_config cfg1, []).
Proof.
  intro H. unfold parse_args. cbn [length tl parse_loop].
  rewrite H. reflexivity.
Qed.

Lemma parse_one_int_flag (flag v : bytes) (setter : Z -> Config -> Config)
    (rest : list bytes) (cfg : Config) :
  In (flag, setter) int_flags ->
  parse_one stod flag (v :: rest) cfg
  = do n <- stoi v; OK (Continue rest (setter n cfg)).
Proof.
  intro Hin. unfold int_flags in Hin. cbn [In] in Hin.
  repeat destruct Hin as [Hin|Hin]; try contradiction;
    injection Hin as <- <-; reflexivity.
Qed.

Lemma parse_one_pair_flag (flag v1 v2 : bytes)
    (set_min set_max : Z -> Config -> Config) (rest : list bytes)
    (cfg : Config) :
  In (flag, set_min, set_max) pair_flags ->
  parse_one stod flag (v1 :: v2 :: rest) cfg
  = do lo <- stoi v1; do hi <- stoi v2;
    OK (Continue rest (set_max hi (set_min lo cfg))).
Proof.
  intro Hin. unfold pair_flags in Hin. cbn [In] in Hin.
  repeat destruct Hin as [Hin|Hin]; try contradiction;
    injection Hin as <- <- <-; reflexivity.
Qed.

(** X21 (numbers on the command line).  The value of a flag that takes
    an [int] is read as a decimal numeral: what [std::to_string] writes
    for an [int] sets the field to that [int], and any text after the
    digits is ignored ("--nodes 12abc" is "--nodes 12"); a numeral
    outside the range of [int] makes [std::stoi] throw out of
    [parse_args].  The two values of a delay flag are stored as they
    come: a minimum above the maximum is accepted. *)
Theorem int_values_read_as_written (prog : bytes) (cfg : Config) (n : Z)
    (sfx : bytes) :
  stops sfx = true ->
  (forall flag setter,
     In (flag, setter) int_flags -> int_range n ->
     parse_args stod [prog; flag; to_string n ++ sfx] cfg
     = OK (true, clamp_config (setter n cfg), []))
  /\ (forall flag setter,
        In (flag, setter) int_flags -> ~ int_range n ->
        parse_args stod [prog; flag; to_string n ++ sfx] cfg
        = Throw OutOfRange)
  /\ (forall flag set_min set_max hi,
        In (flag, set_min, set_max) pair_flags ->
        int_range n -> int_range hi ->
        parse_args stod [prog; flag; to_string n ++ sfx; to_string hi] cfg
        = OK (true, clamp_config (set_max hi (set_min n cfg)), [])).
Proof.
  intro Hs. pose proof (stoi_to_string n sfx Hs) as Hn.
  assert (Hin : forall z, int_range z ->
            ((z <? INT_MIN)%Z || (INT_MAX <? z)%Z) = false).
  { intros z [H1 H2]. apply orb_false_iff. split; apply Z.ltb_ge; lia. }
  split; [|split].
  - intros flag setter Hf Hr. apply parse_args_one_value.
    rewrite (parse_one_int_flag _ [] cfg Hf), Hn, (Hin n Hr). reflexivity.
  - intros flag setter Hf Hr. unfold parse_args. cbn [length tl parse_loop].
    rewrite (parse_one_int_flag _ [] cfg Hf), Hn.
    destruct ((n <? INT_MIN)%Z || (INT_MAX <? n)%Z) eqn:E; [reflexivity|].
    exfalso. apply Hr. apply orb_false_iff in E as [E1 E2].
    apply Z.ltb_ge in E1, E2. split; lia.
  - intros flag set_min set_max hi Hf Hr Hhi. apply parse_args_two_values.
    rewrite (parse_one_pair_flag _ _ [] cfg Hf), Hn, (Hin n Hr). cbn [bind].
    pose proof (stoi_to_string hi [] eq_refl) as Hh.
    rewrite app_nil_r in Hh. rewrite Hh, (Hin hi Hhi). reflexivity.
Qed.

End NumbersOnTheCommandLine.

Lemma int_values_read_as_written_witness :
  parse_args no_stod [str "./verbose"; str "--nodes"; str "12abc"]
    default_config
  = OK (true, clamp_config (set_nodes 12 default_config), [])
  /\ parse_args no_stod [str "./verbose"; str "--db-delay"; str "60"; str "20"]
       default_config
     = OK (true, clamp_config
                   (set_db_delay_max 20 (set_db_delay_min 60 default_config)),
           []).
Proof.
  split.
  - apply (proj1 (@int_values_read_as_written no_stod (str "./verbose")
                    default_config 12%Z (str "abc") eq_refl)
             (str "--nodes") set_nodes).
    + cbn. tauto.
    + unfold int_range, INT_MIN, INT_MAX. lia.
  - apply (proj2 (proj2 (@int_values_read_as_written no_stod (str "./verbose")
                           default_config 60%Z [] eq_refl))
             (str "--db-delay") set_db_delay_min set_db_delay_max 20%Z).
    + cbn. tauto.
    + unfold int_range, INT_MIN, INT_MAX. lia.
    + unfold int_range, INT_MIN, INT_MAX. lia.
Defined.

(** ** What [parse_args] accepts, and what [main] makes of it *)



Section AcceptedCommandLines.

Variable stod : bytes -> result Q.




Lemma parse_args_returns (argv : list bytes) (a : bytes) (rest : list bytes)
    (cfg' : Config) (r : result loop_step) :
  reaches stod (tl argv) default_config (a :: rest) cfg' ->
  parse_one stod a rest cfg' = r ->
  parse_args stod argv default_config
  = match r with
    | OK (Return ok c err) =>
        if ok then OK (true, clamp_config c, err) else OK (false, c, err)
    | OK (Continue rest1 c) =>
        do x <- parse_loop stod (length rest) rest1 c;
        let '(ok, c', err) := x in
        if ok then OK (true, clamp_config c', err) else OK (false, c', err)
    | Throw e => Throw e
    end.
Proof.
  intros Hr Hone. unfold parse_args.
  rewrite (reaches_parse_loop Hr) by (destruct argv; cbn; lia).
  cbn [length parse_loop]. rewrite Hone.
  destruct r as [[rest1 c|ok c err]|e]; reflexivity.
Qed.

Lemma main_usage_only (argv : list bytes) (cfg : Config) (err : list bytes) :
  parse_args stod argv default_config = OK (false, cfg, err) ->
  main stod argv (Usage (print_usage (hd [] argv)) 1)
  /\ forall r, main stod argv r -> r = Usage (print_usage (hd [] argv)) 1.
Proof.
  intro Hp. split; [exact (@main_usage stod argv cfg err Hp)|].
  intros r Hm.
  destruct Hm as [cfg0 err0 H|cfg0 err0 p s H _ _|e H|cfg0 err0 p e H _ _];
    [reflexivity| | |]; rewrite Hp in H; discriminate.
Qed.

Lemma parse_one_help (a : bytes) (rest : list bytes) (cfg : Config) :
  In a [str "--help"; str "-h"] ->
  parse_one stod a rest cfg = OK (Return false cfg []).
Proof. intros [<-|[<-|[]]]; reflexivity. Qed.

Lemma parse_one_unknown (a : bytes) (rest : list bytes) (cfg : Config) :
  ~ In a known_args ->
  parse_one stod a rest cfg = OK (Return false cfg [str "Unknown arg: " ++ a]).
Proof.
  intro Hn.
  assert (Hk : forall k, In k known_args -> bytes_eqb a k = false).
  { intros k Hin. destruct (bytes_eqb a k) eqn:E; [|reflexivity].
    apply bytes_eqb_eq in E. subst k. contradiction. }
  unfold parse_one.
  rewrite !Hk by (unfold known_args, value_flags; cbn [map fst app In]; tauto).
  reflexivity.
Qed.


(** X15 (help and unknown arguments).  When the loop of [parse_args]
    comes to "--help" or "-h", or to an argument it does not know,
    [parse_args] returns [false] without looking at what follows; for
    the unknown argument one line goes to [cerr], for the help flag
    none.  In both cases [main] prints the usage text and returns 1,
    nothing else: asking for help is answered with the status of an
    error. *)
Theorem help_and_unknown_arguments (argv : list bytes) (a : bytes)
    (rest : list bytes) (cfg' : Config) :
  reaches stod (tl argv) default_config (a :: rest) cfg' ->
  (In a [str "--help"; str "-h"] ->
   parse_args stod argv default_config = OK (false, cfg', []))
  /\ (~ In a known_args ->
      parse_args stod argv default_config
      = OK (false, cfg', [str "Unknown arg: " ++ a]))
  /\ (In a [str "--help"; str "-h"] \/ ~ In a known_args ->
      main stod argv (Usage (print_usage (hd [] argv)) 1)
      /\ forall r, main stod argv r -> r = Usage (print_usage (hd [] argv)) 1).
Proof.
  intro Hr.
  assert (H1 : In a [str "--help"; str "-h"] ->
               parse_args stod argv default_config = OK (false, cfg', [])).
  { intro Ha. rewrite (@parse_args_returns argv a rest cfg' _ Hr
               (@parse_one_help a rest cfg' Ha)).
    reflexivity. }
  assert (H2 : ~ In a known_args ->
               parse_args stod argv default_config
               = OK (false, cfg', [str "Unknown arg: " ++ a])).
  { intro Ha. rewrite (@parse_args_returns argv a rest cfg' _ Hr
               (@parse_one_unknown a rest cfg' Ha)).
    reflexivity. }
  split; [exact H1|]. split; [exact H2|].
  intros [Ha|Ha].
  - exact (@main_usage_only argv cfg' _ (H1 Ha)).
  - exact (@main_usage_only argv cfg' _ (H2 Ha)).
Qed.

Lemma stoi_throws (s : bytes) (e : error) :
  stoi s = Throw e -> e = InvalidArgument \/ e = OutOfRange.
Proof.
  unfold stoi.
  destruct (skip_spaces s) as [|c tl]; [intro H; injection H as <-; now left|].
  match goal with
  | |- match ?x with _ => _ end = _ -> _ => destruct x as [neg [|c0 s0]]
  end; [intro H; injection H as <-; now left|].
  destruct (is_digit c0); [|intro H; injection H as <-; now left].
  match goal with
  | |- (if ?b then _ else _) = _ -> _ => destruct b
  end; [intro H; injection H as <-; now right|discriminate].
Qed.

(** X16 (a value that is no number ends the program).  When the loop
    of [parse_args] comes to a flag that takes an [int] and
    [std::stoi] refuses its value, the exception ([std::invalid_argument]
    or [std::out_of_range]) leaves [parse_args]; nothing in [main]
    catches it: the program is terminated, no usage text is printed
    and no run takes place. *)
Theorem bad_value_terminates (argv : list bytes) (flag : bytes)
    (setter : Z -> Config -> Config) (v : bytes) (rest : list bytes)
    (cfg' : Config) (e : error) :
  In (flag, setter) int_flags -> stoi v = Throw e ->
  reaches stod (tl argv) default_config (flag :: v :: rest) cfg' ->
  (e = InvalidArgument \/ e = OutOfRange)
  /\ parse_args stod argv default_config = Throw e
  /\ main stod argv (Terminated e)
  /\ forall r, main stod argv r -> r = Terminated e.
Proof.
  intros Hf Hv Hr.
  assert (Hone : parse_one stod flag (v :: rest) cfg' = Throw e)
    by (rewrite (@parse_one_int_flag stod flag v setter rest cfg' Hf), Hv;
        reflexivity).
  assert (Hp : parse_args stod argv default_config = Throw e)
    by (rewrite (@parse_args_returns argv flag (v :: rest) cfg' _ Hr Hone);
        reflexivity).
  split; [exact (@stoi_throws v e Hv)|]. split; [exact Hp|].
  split; [exact (@main_bad_value stod argv e Hp)|].
  intros r Hm.
  destruct Hm as [cfg0 err0 H|cfg0 err0 p s H _ _|e0 H|cfg0 err0 p e0 H _ _];
    rewrite Hp in H; try discriminate.
  now injection H as <-.
Qed.


End AcceptedCommandLines.


Lemma help_and_unknown_arguments_witness :
  parse_args no_stod [str "./verbose"; str "--workers"; str "4"; str "--help"]
    default_config
  = OK (false, set_workers 4 default_config, [])
  /\ parse_args no_stod [str "./verbose"; str "--verbose"] default_config
     = OK (false, default_config, [str "Unknown arg: --verbose"]).
Proof.
  split.
  - apply (@help_and_unknown_arguments no_stod
             [str "./verbose"; str "--workers"; str "4"; str "--help"]
             (str "--help") [] (set_workers 4 default_config)).
    + eapply reaches_next; [reflexivity|]. apply reaches_here.
    + cbn. tauto.
  - apply (@help_and_unknown_arguments no_stod
             [str "./verbose"; str "--verbose"]
             (str "--verbose") [] default_config).
    + apply reaches_here.
    + unfold known_args, value_flags. cbn [map fst app In].
      intros H. repeat destruct H as [H|H]; try discriminate H; exact H.
Defined.

Lemma bad_value_terminates_witness :
  parse_args no_stod [str "./verbose"; str "--nodes"; str "many"]
    default_config = Throw InvalidArgument
  /\ main no_stod [str "./verbose"; str "--nodes"; str "many"]
       (Terminated InvalidArgument).
Proof.
  destruct (@bad_value_terminates no_stod
              [str "./verbose"; str "--nodes"; str "many"]
              (str "--nodes") set_nodes (str "many") [] default_config
              InvalidArgument) as (_ & H2 & H3 & _).
  - cbn. tauto.
  - reflexivity.
  - apply reaches_here.
  - split; [exact H2|exact H3].
Defined.

